(** * vector-search: the in-memory cosine-similarity index and its indexing loop

    A shallow embedding of [nodejs-cli/vector_search.js] (class [VectorSearch])
    and of [nodejs-cli/app.js]: the command line, the embedder, the indexing
    loop, the query and the lines printed.

    - A JavaScript Number is an IEEE 754 binary64 value: Rocq's primitive
      [float], whose operations are specified by [FloatAxioms] against
      [SpecFloat].
    - A JavaScript string is a [string]: a sequence of code units, here the
      code units below 256 (Latin-1).
    - A method that mutates [this.docs] takes the array and returns its
      completion together with the array as the call leaves it.
    - What ECMA-262 leaves to the engine, or what needs the engine's parsers,
      is gathered in the record [engine]; every definition takes it as an
      argument, the theorems hold for every engine, and the closed examples
      run on [reference_engine]. *)

From Stdlib Require Import ZArith List String Ascii Bool Lia Floats.
From Stdlib Require Import Permutation Sorted.
From Stdlib Require Uint63 FloatLemmas.
Import ListNotations.

#[local] Set Warnings "-register-all,-inexact-float".
Local Open Scope string_scope.
Local Open Scope list_scope.

(* ================================================================= *)
(** * Numbers *)

Definition number := float.

Definition NaN : number := PrimFloat.nan.
Definition pos_zero : number := PrimFloat.zero.
Definition one : number := PrimFloat.one.

(** [x > 0] on Numbers: false when [x] is NaN. *)
Definition gt0 (x : number) : bool := PrimFloat.ltb pos_zero x.

(** The class of a Number, read off its IEEE 754 datum. *)
Definition isNaN (x : number) : bool :=
  match Prim2SF x with
  | S754_nan => true
  | _ => false
  end.

Definition isZero (x : number) : bool :=
  match Prim2SF x with
  | S754_zero _ => true
  | _ => false
  end.

Definition isInfinity (x : number) : bool :=
  match Prim2SF x with
  | S754_infinity _ => true
  | _ => false
  end.

(** Storing a Number into a [Float32Array] element rounds it to binary32
    (ties to even); reading the element back gives that value as a Number.
    [binary_normalize 24 128] is the rounding to binary32, and [SF2Prim] is
    exact on its result. *)
Definition fround (x : number) : number :=
  match Prim2SF x with
  | S754_finite s m e =>
      SF2Prim (binary_normalize 24 128 (cond_Zopp s (Zpos m)) e s)
  | _ => x
  end.

(* ================================================================= *)
(** * Values *)

(** The values the program handles: what [JSON.parse] produces, and
    [undefined].  An array of Numbers also stands for a [Float32Array]. *)
Inductive value : Type :=
| VUndefined
| VNull
| VBool (b : bool)
| VNumber (x : number)
| VString (s : string)
| VArray (xs : list value)
| VObject (props : list (string * value)).

(** An object's own properties in creation order; the keys are distinct. *)
Definition object := list (string * value).

Fixpoint obj_lookup (k : string) (o : object) : option value :=
  match o with
  | [] => None
  | (k', v) :: o' => if String.eqb k k' then Some v else obj_lookup k o'
  end.

(** [o[k]] on an object: [undefined] when [k] is not a property. *)
Definition obj_get (o : object) (k : string) : value :=
  match obj_lookup k o with
  | Some v => v
  | None => VUndefined
  end.

(** [o[k] = v]: an existing property keeps its place. *)
Fixpoint obj_set (k : string) (v : value) (o : object) : object :=
  match o with
  | [] => [(k, v)]
  | (k', v') :: o' =>
      if String.eqb k k' then (k', v) :: o' else (k', v') :: obj_set k v o'
  end.

(** [{ ...base, ...rest }]. *)
Definition obj_spread (base rest : object) : object :=
  fold_left (fun o kv => obj_set (fst kv) (snd kv) o) rest base.

(** The rest of a destructuring pattern: the properties not named in it. *)
Definition obj_without (ks : list string) (o : object) : object :=
  filter (fun kv => negb (existsb (String.eqb (fst kv)) ks)) o.

Definition is_nullish (v : value) : bool :=
  match v with
  | VUndefined | VNull => true
  | _ => false
  end.

(** ToBoolean. *)
Definition truthy (v : value) : bool :=
  match v with
  | VUndefined | VNull => false
  | VBool b => b
  | VNumber x => negb (isNaN x || isZero x)
  | VString s => negb (String.eqb s "")
  | VArray _ | VObject _ => true
  end.

(* ================================================================= *)
(** * Completions *)

(** The errors a call can end with: [TypeError] is the one the program and
    the conversions throw; [RangeError] can only come from the engine (a
    typed array too long to allocate). *)
Inductive error : Type :=
| TypeError
| RangeError.

Definition error_name (e : error) : string :=
  match e with
  | TypeError => "TypeError"
  | RangeError => "RangeError"
  end.

Inductive completion (A : Type) : Type :=
| Normal (a : A)
| Throw (e : error).

Arguments Normal {A} a.
Arguments Throw {A} e.

Definition bind {A B : Type} (c : completion A) (k : A -> completion B)
  : completion B :=
  match c with
  | Normal a => k a
  | Throw e => Throw e
  end.

Notation "'let*' x ':=' c 'in' k" := (bind c (fun x => k))
  (at level 10, x name, c at level 100, k at level 200).

(** [v[k]] for a property name that no primitive wrapper and no array has
    ([text_block], [header], [vector]): reading it from [null] or [undefined]
    throws, from a primitive or an array gives [undefined]. *)
Definition Get (v : value) (k : string) : completion value :=
  match v with
  | VUndefined | VNull => Throw TypeError
  | VObject o => Normal (obj_get o k)
  | _ => Normal VUndefined
  end.

(* ================================================================= *)
(** * The engine *)

(** The built-ins whose result ECMA-262 leaves to the implementation, or that
    need its numeric-literal grammar:
    - [ToNumber_text]: ToNumber of a string, an array or an object
      (ToPrimitive, then StringToNumber);
    - [TypedArray_from_other]: [Float32Array.from] of a value that is neither
      nullish nor an array (a string is iterated, anything else is read as an
      array-like through its [length]);
    - [Math_hypot]: [Math.hypot(...vec)], an implementation-approximated
      square root of the sum of the squares of the elements of [vec]. *)
Record engine : Type := {
  ToNumber_text : value -> number;
  TypedArray_from_other : value -> completion (list number);
  Math_hypot : list number -> number
}.

Definition ToNumber (E : engine) (v : value) : number :=
  match v with
  | VUndefined => NaN
  | VNull => pos_zero
  | VBool b => if b then one else pos_zero
  | VNumber x => x
  | VString _ | VArray _ | VObject _ => ToNumber_text E v
  end.

(** The elements of an array as a [Float32Array] holds them. *)
Definition to_float32 (E : engine) (xs : list value) : list number :=
  map (fun x => fround (ToNumber E x)) xs.

(** [Float32Array.from(v)]. *)
Definition Float32Array_from (E : engine) (v : value)
  : completion (list number) :=
  match v with
  | VUndefined | VNull => Throw TypeError
  | VArray xs => Normal (to_float32 E xs)
  | _ => TypedArray_from_other E v
  end.

(* ================================================================= *)
(** * Array and String built-ins *)

Section ArrayBuiltins.
Context {A : Type}.

(** [Array.prototype.sort(comparefn)].  ECMA-262 fixes the result only for a
    consistent comparator: then it is the one stable arrangement in which no
    element is followed by one that compares before it, which is what this
    insertion sort builds.  A comparator result that is NaN counts as [+0]:
    [gt0] is false on it. *)
Fixpoint sort_insert (comparefn : A -> A -> number) (x : A) (l : list A)
  : list A :=
  match l with
  | [] => [x]
  | y :: l' =>
      if gt0 (comparefn x y) then y :: sort_insert comparefn x l'
      else x :: y :: l'
  end.

Fixpoint Array_sort (comparefn : A -> A -> number) (l : list A) : list A :=
  match l with
  | [] => []
  | x :: l' => sort_insert comparefn x (Array_sort comparefn l')
  end.

(** [Array.prototype.slice(0, k)] for an integer [k]: a negative [k] counts
    from the end. *)
Definition Array_slice0 (k : Z) (l : list A) : list A :=
  let len := Z.of_nat (List.length l) in
  let final := if (k <? 0)%Z then Z.max (len + k) 0 else Z.min k len in
  firstn (Z.to_nat final) l.

End ArrayBuiltins.

(** WhiteSpace and LineTerminator code units below 256: TAB, LF, VT, FF, CR,
    SP and NBSP. *)
Definition is_whitespace (c : ascii) : bool :=
  let n := nat_of_ascii c in
  ((9 <=? n) && (n <=? 13) || (n =? 32) || (n =? 160))%nat.

Fixpoint trimStart (s : string) : string :=
  match s with
  | EmptyString => EmptyString
  | String c s' => if is_whitespace c then trimStart s' else s
  end.

Fixpoint trimEnd (s : string) : string :=
  match s with
  | EmptyString => EmptyString
  | String c s' =>
      match trimEnd s' with
      | EmptyString => if is_whitespace c then EmptyString else String c EmptyString
      | t => String c t
      end
  end.

(** [String.prototype.trim]. *)
Definition trim (s : string) : string := trimStart (trimEnd s).

(** The lower-case mapping of a code unit below 256: A-Z, and the Latin-1
    capitals U+00C0-U+00DE except the multiplication sign U+00D7. *)
Definition lower_char (c : ascii) : ascii :=
  let n := nat_of_ascii c in
  if ((65 <=? n) && (n <=? 90)
      || (192 <=? n) && (n <=? 222) && negb (n =? 215))%nat
  then ascii_of_nat (n + 32)
  else c.

(** [String.prototype.toLowerCase]. *)
Fixpoint toLowerCase (s : string) : string :=
  match s with
  | EmptyString => EmptyString
  | String c s' => String (lower_char c) (toLowerCase s')
  end.

(* ================================================================= *)
(** * class VectorSearch *)

(** One element of [this.docs]: [{ id, vector, norm, ...rest }], with
    [vector] a [Float32Array]. *)
Record entry : Type := {
  id : value;
  vector : list number;
  norm : value;
  rest : object
}.

(** [this.docs]. *)
Definition index := list entry.

Section VectorSearch.
Variable E : engine.

(** [add(id, vector)]. *)
Definition add (id0 vector0 : value) (docs : index)
  : completion unit * index :=
  match Float32Array_from E vector0 with
  | Throw e => (Throw e, docs)
  | Normal vec =>
      let norm0 := Math_hypot E vec in
      (Normal tt,
       docs ++ [ {| id := id0; vector := vec; norm := VNumber norm0; rest := [] |} ])
  end.

(** The callback of [loadDocs]: [({ id, vector, norm, ...rest }) => ...].
    Destructuring [null] or [undefined] throws; a primitive or an array has
    none of the three properties, so [Float32Array.from(undefined)] throws
    before its [rest] is used. *)
Definition loadDocs_callback (d : value) (docs : index)
  : completion unit * index :=
  match d with
  | VObject o =>
      match Float32Array_from E (obj_get o "vector") with
      | Throw e => (Throw e, docs)
      | Normal vec =>
          (Normal tt,
           docs ++ [ {| id := obj_get o "id";
                        vector := vec;
                        norm := obj_get o "norm";
                        rest := obj_without ["id"; "vector"; "norm"] o |} ])
      end
  | _ => (Throw TypeError, docs)
  end.

(** [docs.forEach(callback)]: the entries pushed before a throw stay. *)
Fixpoint loadDocs_forEach (ds : list value) (docs : index)
  : completion unit * index :=
  match ds with
  | [] => (Normal tt, docs)
  | d :: ds' =>
      match loadDocs_callback d docs with
      | (Normal _, docs') => loadDocs_forEach ds' docs'
      | thrown => thrown
      end
  end.

(** [loadDocs(docs)]. *)
Definition loadDocs (arg : value) (docs : index) : completion unit * index :=
  match arg with
  | VArray ds => loadDocs_forEach ds docs
  | _ => (Throw TypeError, docs)
  end.

(** [q[i]] and [vector[i]] on a [Float32Array]: [undefined] out of range,
    which the product turns into NaN. *)
Definition typed_get (a : list number) (i : nat) : number :=
  match nth_error a i with
  | Some x => x
  | None => NaN
  end.

(** [let dot = 0; for (let i = 0; i < q.length; i++) dot += q[i] * vector[i];] *)
Definition dot_product (q vector0 : list number) : number :=
  fold_left
    (fun dot i => (dot + typed_get q i * typed_get vector0 i)%float)
    (seq 0 (List.length q)) pos_zero.

(** [dot / (norm * qNorm)]. *)
Definition cosine (q : list number) (qNorm : number) (e : entry) : number :=
  (dot_product q (vector e) / (ToNumber E (norm e) * qNorm))%float.

(** The callback of [map] in [search]: [{ id, score: ..., ...rest }]. *)
Definition scored (q : list number) (qNorm : number) (e : entry) : object :=
  obj_spread [("id", id e); ("score", VNumber (cosine q qNorm e))] (rest e).

(** [r.score] as the comparator's subtraction reads it. *)
Definition score_of (r : object) : number := ToNumber E (obj_get r "score").

(** [(a, b) => b.score - a.score]. *)
Definition by_score (a b : object) : number :=
  (score_of b - score_of a)%float.

(** [search(queryVec, k)], for an integer [k]; [k] is 10 when omitted. *)
Definition search (queryVec : value) (k : Z) (docs : index)
  : completion (list object) :=
  let* q := Float32Array_from E queryVec in
  let qNorm := Math_hypot E q in
  Normal (Array_slice0 k (Array_sort by_score (map (scored q qNorm) docs))).

(** [doc[attr]] on an element of [this.docs]. *)
Definition entry_get (e : entry) (attr : string) : value :=
  obj_get
    (obj_spread
       [("id", id e); ("vector", VArray (map VNumber (vector e)));
        ("norm", norm e)]
       (rest e))
    attr.

(** [typeof value === 'string' && value.trim().toLowerCase() === loweredText]. *)
Definition attr_matches (loweredText : string) (value0 : value) : bool :=
  match value0 with
  | VString s => String.eqb (toLowerCase (trim s)) loweredText
  | _ => false
  end.

(** [textSearch(text, attr)]; [None] is [null]. *)
Definition textSearch (text : value) (attr : string) (docs : index)
  : option entry :=
  match text with
  | VString t =>
      let loweredText := toLowerCase (trim t) in
      find (fun doc => attr_matches loweredText (entry_get doc attr)) docs
  | _ => None
  end.

End VectorSearch.

Definition default_k : Z := 10.

(* ================================================================= *)
(** * app.js: the indexing loop *)

Definition BATCH_SIZE : nat := 32.

(** What the loop changes: the index, and the calls made to [embedBatch]
    (the texts of each call, oldest first). *)
Record run : Type := {
  run_docs : index;
  run_calls : list (list value)
}.

(** [new VectorSearch()], and no call made yet. *)
Definition start : run := {| run_docs := []; run_calls := [] |}.

Section IndexingLoop.
Variable E : engine.

(** [embedBatch(texts)]: the array the feature-extraction pipeline returns for
    a batch of texts. *)
Variable embedBatch : list value -> list value.

(** [chunk.map((d) => d.text_block)]. *)
Fixpoint chunk_texts (chunk : list value) : completion (list value) :=
  match chunk with
  | [] => Normal []
  | d :: chunk' =>
      let* t := Get d "text_block" in
      let* ts := chunk_texts chunk' in
      Normal (t :: ts)
  end.

(** [embeddings[j]]. *)
Definition array_get (a : list value) (j : nat) : value :=
  nth j a VUndefined.

(** [for (let j = 0; j < chunk.length; j++) index.add(chunk[j].header, embeddings[j]);]
    with [todo] the elements of [chunk] from [j] on. *)
Fixpoint add_chunk (todo : list value) (j : nat) (embeddings : list value)
  (docs : index) : completion unit * index :=
  match todo with
  | [] => (Normal tt, docs)
  | d :: todo' =>
      match Get d "header" with
      | Throw e => (Throw e, docs)
      | Normal header =>
          match add E header (array_get embeddings j) docs with
          | (Normal _, docs') => add_chunk todo' (S j) embeddings docs'
          | thrown => thrown
          end
      end
  end.

(** One turn of the loop body, for the chunk [docs.slice(i, i + batch)]. *)
Definition index_chunk (chunk : list value) (st : run) : completion unit * run :=
  match chunk_texts chunk with
  | Throw e => (Throw e, st)
  | Normal texts =>
      let embeddings := embedBatch texts in
      let calls := run_calls st ++ [texts] in
      match add_chunk chunk 0 embeddings (run_docs st) with
      | (c, docs') => (c, {| run_docs := docs'; run_calls := calls |})
      end
  end.

(** [for (let i = 0; i < total; i += batch) { ... }] from [i] on, with the
    batch size as a parameter ([BATCH_SIZE] in the source).  [None]: the fuel
    ran out before the loop ended. *)
Fixpoint indexing_loop (fuel : nat) (batch : nat) (docs : list value) (i : nat)
  (st : run) : option (completion unit * run) :=
  if (i <? List.length docs)%nat then
    match fuel with
    | O => None
    | S fuel' =>
        match index_chunk (firstn batch (skipn i docs)) st with
        | (Normal _, st') => indexing_loop fuel' batch docs (i + batch) st'
        | thrown => Some thrown
        end
    end
  else Some (Normal tt, st).

(** The branch of the main function: [docs[0]["vector"]] decides between
    [loadDocs] and the indexing loop. *)
Definition build_index (fuel : nat) (docs : list value)
  : option (completion unit * run) :=
  match Get (array_get docs 0) "vector" with
  | Throw e => Some (Throw e, start)
  | Normal v =>
      if truthy v then
        match loadDocs E (VArray docs) [] with
        | (c, docs') => Some (c, {| run_docs := docs'; run_calls := [] |})
        end
      else indexing_loop fuel BATCH_SIZE docs 0 start
  end.

End IndexingLoop.

(* ================================================================= *)
(** * The order of the Numbers *)

Definition emin64 : Z := SpecFloat.emin prec emax.

(** An integer that orders the Numbers other than NaN as [<] does: a finite
    Number is [m * 2^e] with [emin64 <= e], both zeros are 0, and the
    infinities lie beyond every finite Number. *)
Definition okey (x : spec_float) : Z :=
  match x with
  | S754_zero _ => 0
  | S754_nan => 0
  | S754_infinity s => cond_Zopp s (2 ^ (emax - emin64))
  | S754_finite s m e => cond_Zopp s (Zpos m * 2 ^ (e - emin64))
  end.

Definition key (x : number) : Z := okey (Prim2SF x).

(** A nonzero datum of sign [s]. *)
Definition has_sign (s : bool) (x : spec_float) : Prop :=
  match x with
  | S754_finite s' _ _ | S754_infinity s' => s' = s
  | _ => False
  end.

(** Descending order of an integer rank. *)
Definition ranked_down {A : Type} (rank : A -> Z) : A -> A -> Prop :=
  fun a b => (rank b <= rank a)%Z.

(* ================================================================= *)
(** * The notions the specification speaks of *)

(** Descending order: every score is [>=] each score after it. *)
Definition descending (scores : list number) : Prop :=
  StronglySorted (fun a b => PrimFloat.leb b a = true) scores.

(** The array [search] sorts: one object per entry, in insertion order. *)
Definition search_candidates (E : engine) (queryVec : list value) (docs : index)
  : list object :=
  let q := to_float32 E queryVec in
  map (scored E q (Math_hypot E q)) docs.

(** Objects of equal score stand in [ranked] in the order they have in
    [candidates]. *)
Definition stable_by_score (E : engine) (ranked candidates : list object)
  : Prop :=
  forall v : number,
    filter (fun r => PrimFloat.eqb (score_of E r) v) ranked
    = filter (fun r => PrimFloat.eqb (score_of E r) v) candidates.

(** The entry [add(id, vector)] appends for an array [vector]. *)
Definition added (E : engine) (id0 : value) (xs : list value) : entry :=
  {| id := id0;
     vector := to_float32 E xs;
     norm := VNumber (Math_hypot E (to_float32 E xs));
     rest := [] |}.

(** A bulk-load input as the specification wants it: an array of objects
    that each carry an [id] and a [vector]. *)
Definition carries (k : string) (o : object) : bool :=
  match obj_lookup k o with
  | Some _ => true
  | None => false
  end.

Definition well_formed_bulk (arg : value) : bool :=
  match arg with
  | VArray ds =>
      forallb (fun d => match d with
                        | VObject o => carries "id" o && carries "vector" o
                        | _ => false
                        end) ds
  | _ => false
  end.

(** What [loadDocs] asks of an element: an object whose [vector] is an
    array. *)
Definition has_vector (d : value) : Prop :=
  exists o xs, d = VObject o /\ obj_get o "vector" = VArray xs.

(** An element [loadDocs] stops at: not an object, or an object whose
    [vector] is missing or [null]. *)
Definition lacks_vector (d : value) : Prop :=
  match d with
  | VObject o => is_nullish (obj_get o "vector") = true
  | _ => True
  end.

Definition elements (v : value) : list value :=
  match v with
  | VArray xs => xs
  | _ => []
  end.

Definition properties (v : value) : object :=
  match v with
  | VObject o => o
  | _ => []
  end.

(** The entry [loadDocs] stores for an element that has a vector. *)
Definition stored (E : engine) (d : value) : entry :=
  {| id := obj_get (properties d) "id";
     vector := to_float32 E (elements (obj_get (properties d) "vector"));
     norm := obj_get (properties d) "norm";
     rest := obj_without ["id"; "vector"; "norm"] (properties d) |}.

(** The consecutive batches of [batch] elements; the last may be shorter. *)
Fixpoint batches_fuel {A : Type} (fuel batch : nat) (l : list A)
  : list (list A) :=
  match fuel, l with
  | S fuel', _ :: _ => firstn batch l :: batches_fuel fuel' batch (skipn batch l)
  | _, _ => []
  end.

Definition batches {A : Type} (batch : nat) (l : list A) : list (list A) :=
  batches_fuel (List.length l) batch l.

Definition text_block_of (d : value) : value := obj_get (properties d) "text_block".
Definition header_of (d : value) : value := obj_get (properties d) "header".

(** The entries the loop adds for one chunk and the embeddings returned for
    it: document [j] of the chunk with vector [j]. *)
Fixpoint added_chunk (E : engine) (chunk embeddings : list value) : list entry :=
  match chunk, embeddings with
  | d :: chunk', v :: embeddings' =>
      added E (header_of d) (elements v) :: added_chunk E chunk' embeddings'
  | _, _ => []
  end.

(** The gateway's contract: one vector, an array, per text. *)
Definition one_vector_per_text (embedBatch : list value -> list value) : Prop :=
  forall texts,
    List.length (embedBatch texts) = List.length texts
    /\ Forall (fun v => exists xs, v = VArray xs) (embedBatch texts).

(** The entries the loop adds for [docs], batch by batch, and the vectors
    the gateway returns for them. *)
Definition loop_entries (E : engine) (embedBatch : list value -> list value)
  (batch : nat) (docs : list value) : list entry :=
  List.concat
    (map (fun chunk => added_chunk E chunk (embedBatch (map text_block_of chunk)))
       (batches batch docs)).

Definition loop_vectors (embedBatch : list value -> list value)
  (batch : nat) (docs : list value) : list value :=
  List.concat
    (map (fun chunk => embedBatch (map text_block_of chunk)) (batches batch docs)).

(** The embeddable text as the specification derives it: the [text_blocks]
    joined with a separator when that field is a list, else [text_block]. *)
Definition string_of (v : value) : string :=
  match v with
  | VString s => s
  | _ => ""
  end.

Definition spec_embeddable_text (d : value) : value :=
  match obj_get (properties d) "text_blocks" with
  | VArray parts => VString (String.concat " " (map string_of parts))
  | _ => obj_get (properties d) "text_block"
  end.

(** Equality of strings ignoring letter case and leading and trailing
    whitespace, said without [trim] and [toLowerCase]: [core] is [s] without
    the blanks around it, and two cores agree letter by letter up to case. *)
Definition blank (s : string) : Prop :=
  Forall (fun c => is_whitespace c = true) (list_ascii_of_string s).

Definition starts_clean (s : string) : Prop :=
  forall c t, s = String c t -> is_whitespace c = false.

Definition ends_clean (s : string) : Prop :=
  forall t c, s = (t ++ String c "")%string -> is_whitespace c = false.

Definition core_of (s core : string) : Prop :=
  exists l r,
    s = (l ++ core ++ r)%string /\ blank l /\ blank r
    /\ starts_clean core /\ ends_clean core.

Definition same_letters (a b : string) : Prop :=
  Forall2 (fun x y => lower_char x = lower_char y)
    (list_ascii_of_string a) (list_ascii_of_string b).

Definition equal_ignoring_case_and_blanks (a b : string) : Prop :=
  exists ca cb, core_of a ca /\ core_of b cb /\ same_letters ca cb.

(** ** textSearch, in the specification's words *)












(* ================================================================= *)
(** * An engine for the closed examples *)

(** The square root of the sum of the squares, computed in binary64, with the
    cases ECMA-262 fixes: an infinite argument gives [+Infinity], else a NaN
    argument gives NaN, and zeros only (or no argument) give [+0]. *)
Definition hypot_reference (xs : list number) : number :=
  if existsb isInfinity xs then PrimFloat.infinity
  else if existsb isNaN xs then NaN
  else PrimFloat.sqrt (fold_left (fun acc x => (acc + x * x)%float) xs pos_zero).

(** The examples hold a Number wherever a Number is read and an array
    wherever a vector is read, so they never reach the two conversions. *)
Definition reference_engine : engine :=
  {| ToNumber_text := fun _ => NaN;
     TypedArray_from_other := fun _ => Normal [];
     Math_hypot := hypot_reference |}.



(** ** Indexes and inputs of the examples *)

Definition query_1_0 : list value := [VNumber 1%float; VNumber 0%float].

(** [add("a", [3, 4]); add("b", [1, 0])]. *)
Definition index_a_b : index :=
  snd (add reference_engine (VString "b") (VArray [VNumber 1%float; VNumber 0%float])
    (snd (add reference_engine (VString "a") (VArray [VNumber 3%float; VNumber 4%float]) []))).

(** [add("a", [3, 4]); add("z", [0, 0]); add("b", [1, 0])]. *)
Definition index_a_z_b : index :=
  snd (add reference_engine (VString "b") (VArray [VNumber 1%float; VNumber 0%float])
    (snd (add reference_engine (VString "z") (VArray [VNumber 0%float; VNumber 0%float])
      (snd (add reference_engine (VString "a") (VArray [VNumber 3%float; VNumber 4%float]) []))))).

(** [add("z", [0, 0])]. *)
Definition index_z : index :=
  snd (add reference_engine (VString "z") (VArray [VNumber 0%float; VNumber 0%float]) []).

(** [loadDocs([{ id: "x", vector: [1], norm: 1, score: 5 }])]. *)
Definition index_own_score : index :=
  snd (loadDocs reference_engine
         (VArray [VObject [("id", VString "x"); ("vector", VArray [VNumber 1%float]);
                           ("norm", VNumber 1%float); ("score", VNumber 5%float)]]) []).

(** [add("a", [3, 4])] and [add("a", [3, 0])]. *)
Definition index_3_4 : index :=
  snd (add reference_engine (VString "a") (VArray [VNumber 3%float; VNumber 4%float]) []).
Definition index_3_0 : index :=
  snd (add reference_engine (VString "a") (VArray [VNumber 3%float; VNumber 0%float]) []).

(** [[{ id: "x", vector: [0.1], norm: 1 }]] and
    [[{ id: "x", vector: null, norm: 1 }]]. *)
Definition bulk_tenth : value :=
  VArray [VObject [("id", VString "x"); ("vector", VArray [VNumber 0.1%float]);
                   ("norm", VNumber 1%float)]].
Definition bulk_null_vector : value :=
  VArray [VObject [("id", VString "x"); ("vector", VNull);
                   ("norm", VNumber 1%float)]].

(** [[{ vector: [1], norm: 1 }]]: an element with no [id]. *)
Definition bulk_without_id : value :=
  VArray [VObject [("vector", VArray [VNumber 1%float]); ("norm", VNumber 1%float)]].

(** A gateway that returns the vector [[1]] for every text. *)
Definition embed_ones (texts : list value) : list value :=
  map (fun _ => VArray [VNumber 1%float]) texts.

Definition three_docs : list value :=
  [VObject [("header", VString "Intro"); ("text_block", VString "cats are great")];
   VObject [("header", VString "Finance"); ("text_block", VString "stocks and bonds")];
   VObject [("header", VString "Pets"); ("text_block", VString "dogs")]].

Definition doc_with_blocks : value :=
  VObject [("header", VString "H"); ("text_blocks", VArray [VString "a"]);
           ("lang", VString "en")].


(** Two documents with precomputed vectors and norms. *)
Definition bulk_documents : list value :=
  [VObject [("id", VString "doc-1"); ("header", VString "Intro");
            ("vector", VArray [VNumber 3%float; VNumber 4%float]);
            ("norm", VNumber 5%float)];
   VObject [("id", VString "doc-2"); ("header", VString "Details");
            ("vector", VArray [VNumber 1%float; VNumber 0%float]);
            ("norm", VNumber 1%float)]].

(** The README's example of an input with precomputed vectors: a [vector]
    and no [norm]. *)
Definition readme_documents : list value :=
  [VObject [("id", VString "doc-1"); ("header", VString "Intro");
            ("text_block", VString "This is the opening section.");
            ("vector", VArray [VNumber 0.1%float; VNumber 0.2%float;
                               VNumber 0.3%float])]].

(* ================================================================= *)
(** * app.js: the command line *)

(** How [readCmdArgs] ends: it returns, or it ends the process by
    [process.exit(code)] after one line on the standard error stream, or it
    throws [new Error(message)]. *)
Inductive ending (A : Type) : Type :=
| Returns (a : A)
| Exits (code : Z) (stderr : string)
| Throws (message : string).

Arguments Returns {A} a.
Arguments Exits {A} code stderr.
Arguments Throws {A} message.

(** [s.startsWith(searchString)]. *)
Definition startsWith (s searchString : string) : bool :=
  String.prefix searchString s.

(** [args.indexOf(name)] on an array of strings: the first index that holds
    [name], or [-1]. *)
Fixpoint indexOf_from (args : list string) (name : string) (i : Z) : Z :=
  match args with
  | [] => (-1)%Z
  | a :: args' =>
      if String.eqb a name then i else indexOf_from args' name (i + 1)%Z
  end.

Definition Array_indexOf (args : list string) (name : string) : Z :=
  indexOf_from args name 0%Z.

(** [getFlag(name)], a closure over [args]; [None] is [null]. *)
Definition getFlag (args : list string) (name : string)
  : ending (option string) :=
  let idx := Array_indexOf args name in
  if (idx =? -1)%Z then Returns None
  else if (Z.of_nat (List.length args) <=? idx + 1)%Z
       then Throws ("Flag " ++ name ++ " needs a value")%string
       else Returns (nth_error args (Z.to_nat (idx + 1))).

(** The object [readCmdArgs] returns; [verbose] is [undefined] ([None]) or
    the flag itself. *)
Record cmd_args : Type := {
  dataFile : string;
  queryText : string;
  verbose : option string
}.

Definition double_quote : string := String (ascii_of_nat 34) EmptyString.

Definition usage : string :=
  ("Usage: node app.js <path to data file> [--query " ++ double_quote
   ++ "your query text" ++ double_quote ++ "] [--verbose]")%string.

(** [readCmdArgs()], with [process.argv] as its argument. *)
Definition readCmdArgs (argv : list string) : ending cmd_args :=
  let args := skipn 2 argv in
  if (List.length args <? 1)%nat then Exits 1 usage
  else
    let dataFile0 := find (fun arg => negb (startsWith arg "--")) args in
    match getFlag args "--query" with
    | Throws message => Throws message
    | Exits code line => Exits code line
    | Returns queryText0 =>
        let verbose0 := find (fun arg => String.eqb arg "--verbose") args in
        match dataFile0 with
        | None | Some EmptyString => Exits 1 "Error: Missing path to data file"
        | Some file =>
            match queryText0 with
            | None | Some EmptyString => Exits 1 "Error: Missing query text"
            | Some text =>
                Returns {| dataFile := file; queryText := text;
                           verbose := verbose0 |}
            end
        end
    end.

(* ================================================================= *)
(** * app.js: the embedder *)

(** How an awaited promise ends. *)
Inductive settled (A : Type) : Type :=
| Fulfilled (a : A)
| Rejected (reason : value).

Arguments Fulfilled {A} a.
Arguments Rejected {A} reason.

Definition default_model : string := "Xenova/all-MiniLM-L6-v2".

(** The value of a parameter [model = default_model]: the default when the
    argument is omitted or [undefined] ([None]). *)
Definition model_of (model : option string) : string :=
  match model with
  | Some m => m
  | None => default_model
  end.

(** The options [embedBatch] passes to the extractor. *)
Definition extractor_options : object :=
  [("pooling", VString "mean"); ("normalize", VBool true)].

Section Embedder.

(** The pipeline objects of [@huggingface/transformers]: callable objects,
    so truthy. *)
Variable Pipeline : Type.

(** [await pipeline(task, model, {})]. *)
Variable pipeline : string -> string -> settled Pipeline.

(** [await extractor(textList, options)]. *)
Variable call : Pipeline -> list value -> object -> settled (list value).

(** The module's state: [_extractor] ([None] is [null]), and the calls made
    to [pipeline] (task and model, oldest first). *)
Record embedder : Type := {
  _extractor : option Pipeline;
  pipeline_calls : list (string * string)
}.

(** [let _extractor = null]. *)
Definition no_extractor : embedder :=
  {| _extractor := None; pipeline_calls := [] |}.

(** [getExtractor(model)]; [None] is an omitted (or [undefined]) [model].
    The calls are awaited one after the other, as the main function does. *)
Definition getExtractor (model : option string) (st : embedder)
  : settled Pipeline * embedder :=
  let model0 := model_of model in
  match _extractor st with
  | Some extractor => (Fulfilled extractor, st)
  | None =>
      let calls := pipeline_calls st ++ [("feature-extraction", model0)] in
      match pipeline "feature-extraction" model0 with
      | Fulfilled extractor =>
          (Fulfilled extractor,
           {| _extractor := Some extractor; pipeline_calls := calls |})
      | Rejected reason =>
          (Rejected reason, {| _extractor := None; pipeline_calls := calls |})
      end
  end.

(** [embedBatch(textList, model)]. *)
Definition embedBatch (textList : list value) (model : option string)
  (st : embedder) : settled (list value) * embedder :=
  match getExtractor model st with
  | (Fulfilled extractor, st') => (call extractor textList extractor_options, st')
  | (Rejected reason, st') => (Rejected reason, st')
  end.

(** Calls of [embedBatch] made one after the other, whatever each gives. *)
Fixpoint embedBatch_each (calls : list (list value * option string))
  (st : embedder) : list (settled (list value)) * embedder :=
  match calls with
  | [] => ([], st)
  | (textList, model) :: calls' =>
      let (r, st') := embedBatch textList model st in
      let (rs, st'') := embedBatch_each calls' st' in
      (r :: rs, st'')
  end.

End Embedder.

Arguments _extractor {Pipeline} e.
Arguments pipeline_calls {Pipeline} e.
Arguments no_extractor {Pipeline}.
Arguments getExtractor {Pipeline} pipeline model st.
Arguments embedBatch {Pipeline} pipeline call textList model st.
Arguments embedBatch_each {Pipeline} pipeline call calls st.

(* ================================================================= *)
(** * app.js: the query and the lines printed *)

(** The Number of an array index. *)
Definition Number_of_index (i : nat) : number :=
  PrimFloat.of_uint63 (Uint63.of_Z (Z.of_nat i)).

Section Query.
Variable E : engine.

(** [embedBatch(texts)], as in the indexing loop. *)
Variable embedBatch : list value -> list value.

(** Number::toString, the shortest decimal text that reads back as the
    Number: the engine's. *)
Variable Number_toString : number -> string.

(** ToString, as a template literal applies it: an array (or typed array)
    is joined with commas, [null] and [undefined] elements leaving nothing. *)
Fixpoint ToString (v : value) : string :=
  match v with
  | VUndefined => "undefined"
  | VNull => "null"
  | VBool b => if b then "true" else "false"
  | VNumber x => Number_toString x
  | VString s => s
  | VArray xs =>
      String.concat ","
        (map (fun x => if is_nullish x then "" else ToString x) xs)
  | VObject _ => "[object Object]"
  end.

(** The callback of [results.map]:
    [({ header, id, score }, index) => `${index + 1}. ${header}  ${id} (score=${score})`]. *)
Definition result_line (r : object) (index : nat) : string :=
  (ToString (VNumber (Number_of_index index + 1)%float) ++ ". "
   ++ ToString (obj_get r "header") ++ "  "
   ++ ToString (obj_get r "id") ++ " (score="
   ++ ToString (obj_get r "score") ++ ")")%string.

(** [results.map(callback)] from index [i] on. *)
Fixpoint map_from {A B : Type} (callback : A -> nat -> B) (i : nat)
  (l : list A) : list B :=
  match l with
  | [] => []
  | x :: l' => callback x i :: map_from callback (S i) l'
  end.

(** The end of the main function: the query is embedded, the index searched
    for the top 10, and one line made for each result. *)
Definition run_query (queryText0 : string) (docs : index)
  : completion (list string) :=
  let qVecArr := embedBatch [VString queryText0] in
  let qVec := array_get qVecArr 0 in
  let* results := search E qVec 10 docs in
  Normal (map_from result_line 0 results).

(** The main function from the parsed documents on: the index is built, then
    the query is run; the calls to [embedBatch] go on being recorded. *)
Definition main_from_docs (fuel : nat) (docs : list value)
  (queryText0 : string) : option (completion (list string) * run) :=
  match build_index E embedBatch fuel docs with
  | None => None
  | Some (Throw e, st) => Some (Throw e, st)
  | Some (Normal _, st) =>
      Some (run_query queryText0 (run_docs st),
            {| run_docs := run_docs st;
               run_calls := run_calls st ++ [[VString queryText0]] |})
  end.

End Query.

(* ================================================================= *)
(** * More notions for the theorems *)

(** The keys of an object are distinct, as [JSON.parse] makes them. *)
Definition distinct_keys (d : value) : Prop :=
  NoDup (map fst (properties d)).

(** The header of a document is a string equal to [text] up to letter case
    and surrounding whitespace. *)
Definition header_equals (text : string) (d : value) : Prop :=
  exists s, header_of d = VString s /\ equal_ignoring_case_and_blanks s text.

(** Where the command line names the data file and the query: [f] is the
    first argument that does not start with [--]; [q] is the argument after
    the first [--query]; the first [--query] is the last argument. *)
Definition first_plain_argument (args : list string) (f : string) : Prop :=
  exists flags after,
    args = flags ++ f :: after
    /\ Forall (fun a => startsWith a "--" = true) flags
    /\ startsWith f "--" = false.

Definition query_argument (args : list string) (q : string) : Prop :=
  exists before after,
    args = before ++ "--query" :: q :: after /\ ~ In "--query" before.

Definition query_without_value (args : list string) : Prop :=
  exists before, args = before ++ ["--query"] /\ ~ In "--query" before.

(** A Number that a [Float32Array] element holds as it is. *)
Definition float32 (x : number) : Prop := fround x = x.

(** An engine whose [Float32Array.from], applied to a value that is no
    array, yields elements of a [Float32Array] too. *)
Definition float32_engine (E : engine) : Prop :=
  forall v vec, TypedArray_from_other E v = Normal vec -> Forall float32 vec.

(** What [add] and [loadDocs] make of an entry: its vector holds 32-bit
    floats, and its other fields have distinct names, none of them [id],
    [vector] or [norm]. *)
Definition entry_kept (e : entry) : Prop :=
  Forall float32 (vector e)
  /\ NoDup (map fst (rest e))
  /\ Forall (fun k => ~ In k ["id"; "vector"; "norm"]) (map fst (rest e)).

(** An element of [this.docs] as a value: the object
    [{ id, vector, norm, ...rest }], the vector a [Float32Array]. *)
Definition entry_value (e : entry) : value :=
  VObject
    (obj_spread
       [("id", id e); ("vector", VArray (map VNumber (vector e)));
        ("norm", norm e)]
       (rest e)).

(** The README's example input: the first document carries a vector, the
    second does not. *)
Definition readme_example_input : list value :=
  [VObject [("id", VString "doc-1"); ("header", VString "Intro");
            ("text_block", VString "This is the opening section.");
            ("vector", VArray [VNumber 0.1%float; VNumber 0.2%float;
                               VNumber 0.3%float])];
   VObject [("id", VString "doc-2"); ("header", VString "Details");
            ("text_block", VString "More detailed explanation goes here.")]].

(** For the examples, a Number::toString that tells NaN from the other
    Numbers only. *)
Definition number_text (x : number) : string :=
  if isNaN x then "NaN" else "#".

(** A gateway that returns one vector too few. *)
Definition embed_drop_last (texts : list value) : list value :=
  removelast (map (fun _ => VArray [VNumber 1%float]) texts).
(* ================================================================= *)
(** * Facts about IEEE 754 data *)

Local Open Scope Z_scope.

(** ** The order of valid data is the order of their keys *)

Lemma digits2_pos_bounds (m : positive) :
  2 ^ (Zpos (digits2_pos m) - 1) <= Zpos m < 2 ^ Zpos (digits2_pos m).
Proof.
  induction m as [p IH | p IH | ]; cbn [digits2_pos].
  - rewrite Pos2Z.inj_succ.
    replace (Z.succ (Zpos (digits2_pos p)) - 1) with (Z.succ (Zpos (digits2_pos p) - 1)) by lia.
    rewrite !Z.pow_succ_r by lia. lia.
  - rewrite Pos2Z.inj_succ.
    replace (Z.succ (Zpos (digits2_pos p)) - 1) with (Z.succ (Zpos (digits2_pos p) - 1)) by lia.
    rewrite !Z.pow_succ_r by lia. lia.
  - cbn. lia.
Qed.

Lemma fexp_ge_emin e : emin64 <= fexp prec emax e.
Proof. unfold fexp, emin64. lia. Qed.

Lemma canonical_inv m e :
  canonical_mantissa prec emax m e = true ->
  emin64 <= e /\ Zpos (digits2_pos m) <= prec /\ (emin64 < e -> Zpos (digits2_pos m) = prec).
Proof.
  unfold canonical_mantissa, fexp, emin64. intros H. apply Z.eqb_eq in H.
  unfold SpecFloat.emin in *. lia.
Qed.

Lemma bounded_inv m e :
  bounded prec emax m e = true ->
  emin64 <= e <= emax - prec /\ Zpos (digits2_pos m) <= prec
  /\ (emin64 < e -> Zpos (digits2_pos m) = prec).
Proof.
  unfold bounded. intros H. apply andb_true_iff in H as [H1 H2].
  apply canonical_inv in H1. apply Z.leb_le in H2. lia.
Qed.

Lemma pow2_pos n : 0 <= n -> 0 < 2 ^ n.
Proof. intros. apply Z.pow_pos_nonneg; lia. Qed.

Lemma finite_key_bounds m e :
  bounded prec emax m e = true ->
  0 < Zpos m * 2 ^ (e - emin64) < 2 ^ (emax - emin64).
Proof.
  intros H. apply bounded_inv in H as (He & Hd & _).
  pose proof (digits2_pos_bounds m) as [_ Hm].
  assert (Hp : 0 < 2 ^ (e - emin64)) by (apply pow2_pos; lia).
  split; [lia|].
  assert (Zpos m < 2 ^ prec).
  { eapply Z.lt_le_trans; [exact Hm|]. apply Z.pow_le_mono_r; lia. }
  apply Z.lt_le_trans with (2 ^ prec * 2 ^ (e - emin64)).
  - apply Z.mul_lt_mono_pos_r; lia.
  - rewrite <- Z.pow_add_r by (unfold prec; lia).
    apply Z.pow_le_mono_r; lia.
Qed.

Lemma finite_key_lt m1 e1 m2 e2 :
  bounded prec emax m1 e1 = true -> bounded prec emax m2 e2 = true ->
  e1 < e2 -> Zpos m1 * 2 ^ (e1 - emin64) < Zpos m2 * 2 ^ (e2 - emin64).
Proof.
  intros H1 H2 Hlt.
  apply bounded_inv in H1 as (He1 & Hd1 & _).
  apply bounded_inv in H2 as (He2 & Hd2 & Hn2).
  pose proof (digits2_pos_bounds m1) as [_ Hm1].
  pose proof (digits2_pos_bounds m2) as [Hm2 _].
  rewrite Hn2 in Hm2 by lia.
  assert (Hm1' : Zpos m1 < 2 ^ prec).
  { eapply Z.lt_le_trans; [exact Hm1|]. apply Z.pow_le_mono_r; lia. }
  replace (e2 - emin64) with ((e2 - e1 - 1) + 1 + (e1 - emin64)) by lia.
  rewrite !Z.pow_add_r by lia.
  assert (Hp : 0 < 2 ^ (e1 - emin64)) by (apply pow2_pos; lia).
  assert (Hq : 0 < 2 ^ (e2 - e1 - 1)) by (apply pow2_pos; lia).
  replace (2 ^ prec) with (2 ^ (prec - 1) * 2) in Hm1' by (unfold prec; reflexivity).
  change (2 ^ 1) with 2.
  generalize dependent (2 ^ (e1 - emin64)). generalize dependent (2 ^ (e2 - e1 - 1)).
  generalize dependent (2 ^ (prec - 1)). intros P Hm2 Hm1' q Hq a Ha.
  apply Z.lt_le_trans with (P * 2 * a).
  - apply Z.mul_lt_mono_pos_r; lia.
  - assert (P * 2 * a <= Z.pos m2 * 2 * a) by (apply Z.mul_le_mono_nonneg_r; lia).
    assert (Z.pos m2 * 2 * a * 1 <= Z.pos m2 * 2 * a * q) by (apply Z.mul_le_mono_nonneg_l; lia).
    lia.
Qed.

Lemma finite_compare_key m1 e1 m2 e2 :
  bounded prec emax m1 e1 = true -> bounded prec emax m2 e2 = true ->
  match e1 ?= e2 with
  | Lt => Lt
  | Gt => Gt
  | Eq => Pos.compare_cont Eq m1 m2
  end = (Zpos m1 * 2 ^ (e1 - emin64) ?= Zpos m2 * 2 ^ (e2 - emin64)).
Proof.
  intros H1 H2.
  destruct (Z.compare_spec e1 e2) as [Heq | Hlt | Hgt].
  - subst e2.
    assert (Hp : 0 < 2 ^ (e1 - emin64)) by (apply pow2_pos; apply bounded_inv in H1; lia).
    change (Pos.compare_cont Eq m1 m2) with (Zpos m1 ?= Zpos m2).
    destruct (Z.compare_spec (Zpos m1) (Zpos m2)) as [Hm | Hm | Hm]; symmetry.
    + apply Z.compare_eq_iff. now rewrite Hm.
    + apply Z.compare_lt_iff. apply Z.mul_lt_mono_pos_r; assumption.
    + apply Z.compare_gt_iff. apply Z.mul_lt_mono_pos_r; assumption.
  - symmetry. apply Z.compare_lt_iff. now apply finite_key_lt.
  - symmetry. apply Z.compare_gt_iff. apply finite_key_lt; auto; lia.
Qed.

Lemma SFcompare_okey x y :
  valid_binary x = true -> valid_binary y = true ->
  x <> S754_nan -> y <> S754_nan ->
  SFcompare x y = Some (okey x ?= okey y).
Proof.
  intros Vx Vy Nx Ny.
  assert (Hinf : 0 < 2 ^ (emax - emin64)) by (apply pow2_pos; vm_compute; congruence).
  destruct x as [sx | sx | | sx mx ex], y as [sy | sy | | sy my ey];
    try congruence; cbn [valid_binary] in Vx, Vy; cbn [SFcompare okey];
    try pose proof (finite_key_bounds _ _ Vx) as Kx;
    try pose proof (finite_key_bounds _ _ Vy) as Ky;
    f_equal.
  all: try destruct sx; try destruct sy; cbn [cond_Zopp]; symmetry;
      try first [ apply Z.compare_eq_iff; lia
                | apply Z.compare_lt_iff; lia
                | apply Z.compare_gt_iff; lia ].
  - rewrite Z.compare_opp, Z.compare_antisym, <- (finite_compare_key _ _ _ _ Vx Vy).
    destruct (ex ?= ey); reflexivity.
  - symmetry. exact (finite_compare_key _ _ _ _ Vx Vy).
Qed.

(** ** Rounding keeps the sign of a nonzero number *)

Lemma iter_pos_nat {A : Type} (f : A -> A) (p : positive) (x : A) :
  iter_pos f p x = Nat.iter (Pos.to_nat p) f x.
Proof.
  revert x. induction p as [p IH | p IH | ]; intros x; cbn [iter_pos].
  - rewrite !IH, Pos2Nat.inj_xI, <- Nat.iter_add, <- Nat.iter_succ_r.
    f_equal. lia.
  - rewrite !IH, Pos2Nat.inj_xO, <- Nat.iter_add. f_equal. lia.
  - reflexivity.
Qed.

Lemma shr_1_lower k mrs :
  0 <= k -> 2 ^ (k + 1) <= shr_m mrs -> 2 ^ k <= shr_m (shr_1 mrs).
Proof.
  intros Hk H. rewrite Z.pow_add_r in H by lia. change (2 ^ 1) with 2 in H.
  assert (0 < 2 ^ k) by (apply pow2_pos; lia).
  destruct mrs as [[ | [p | p | ] | p] r s]; cbn [shr_m shr_1] in *; lia.
Qed.

Lemma iter_shr_1_lower n k mrs :
  0 <= k -> 2 ^ (k + Z.of_nat n) <= shr_m mrs ->
  2 ^ k <= shr_m (Nat.iter n shr_1 mrs).
Proof.
  revert k. induction n as [ | n IH]; intros k Hk H.
  - cbn. now rewrite Z.add_0_r in H.
  - cbn [Nat.iter]. apply shr_1_lower; [exact Hk|]. apply IH; [lia|].
    replace (k + 1 + Z.of_nat n) with (k + Z.of_nat (S n)) by lia. exact H.
Qed.

Lemma shr_record_of_loc_m m l : shr_m (shr_record_of_loc m l) = m.
Proof. destruct l as [ | []]; reflexivity. Qed.

Lemma shr_fexp_pos m e l :
  0 < m -> emin64 <= e ->
  0 < shr_m (fst (shr_fexp prec emax m e l))
  /\ emin64 <= snd (shr_fexp prec emax m e l).
Proof.
  intros Hm He. destruct m as [ | p | p]; try lia.
  unfold shr_fexp, shr. cbn [Zdigits2].
  pose proof (digits2_pos_bounds p) as [Hd _].
  destruct (fexp prec emax (Zpos (digits2_pos p) + e) - e) as [ | q | q] eqn:Hn;
    cbn [fst snd]; try (rewrite shr_record_of_loc_m; lia).
  assert (Hq : Zpos q = Zpos (digits2_pos p) - prec).
  { unfold fexp, emin64, SpecFloat.emin in *. lia. }
  split.
  - rewrite iter_pos_nat.
    apply Z.lt_le_trans with (2 ^ 0); [reflexivity|].
    apply iter_shr_1_lower; [lia|].
    rewrite shr_record_of_loc_m, positive_nat_Z, Z.add_0_l.
    eapply Z.le_trans; [|exact Hd]. apply Z.pow_le_mono_r; [lia|].
    rewrite Hq. unfold prec. lia.
  - pose proof (fexp_ge_emin (Zpos (digits2_pos p) + e)). lia.
Qed.

Lemma round_nearest_even_ge m l : m <= round_nearest_even m l.
Proof.
  unfold round_nearest_even. destruct l as [ | []]; try destruct (Z.even m); lia.
Qed.

Lemma binary_round_aux_sign s m e l :
  0 < m -> emin64 <= e -> has_sign s (binary_round_aux prec emax s m e l).
Proof.
  intros Hm He. unfold binary_round_aux.
  pose proof (shr_fexp_pos m e l Hm He) as [H1 H2].
  destruct (shr_fexp prec emax m e l) as [mrs' e']. cbn [fst snd] in H1, H2.
  pose proof (round_nearest_even_ge (shr_m mrs') (loc_of_shr_record mrs')) as Hr.
  pose proof (shr_fexp_pos (round_nearest_even (shr_m mrs') (loc_of_shr_record mrs'))
                e' loc_Exact ltac:(lia) H2) as [H3 _].
  destruct (shr_fexp prec emax _ e' loc_Exact) as [mrs'' e'']. cbn [fst] in H3.
  destruct (shr_m mrs'') as [ | p | p]; try lia.
  destruct (e'' <=? emax - prec); reflexivity.
Qed.

Lemma binary_round_sign s m e :
  emin64 <= e -> has_sign s (binary_round prec emax s m e).
Proof.
  intros He. unfold binary_round, shl_align.
  pose proof (fexp_ge_emin (Zpos (digits2_pos m) + e)).
  destruct (fexp prec emax (Zpos (digits2_pos m) + e) - e);
    apply binary_round_aux_sign; lia.
Qed.

Lemma shl_align_fst m e e' :
  e' <= e -> Zpos (fst (shl_align m e e')) = Zpos m * 2 ^ (e - e').
Proof.
  intros H. unfold shl_align.
  destruct (e' - e) as [ | d | d] eqn:Hd; cbn [fst]; try lia.
  - replace (e - e') with 0 by lia. lia.
  - replace (e - e') with (Zpos d) by lia. clear.
    induction d as [ | d IH] using Pos.peano_ind.
    + cbn. lia.
    + rewrite Pos.iter_succ, Pos2Z.inj_succ, Z.pow_succ_r by lia.
      rewrite Pos2Z.inj_xO, IH. lia.
Qed.

Lemma okey_finite_aligned s m e ez :
  emin64 <= ez -> ez <= e ->
  okey (S754_finite s m e)
  = cond_Zopp s (Zpos (fst (shl_align m e ez))) * 2 ^ (ez - emin64).
Proof.
  intros H1 H2. cbn [okey]. rewrite shl_align_fst by exact H2.
  replace (e - emin64) with ((e - ez) + (ez - emin64)) by lia.
  rewrite Z.pow_add_r by lia. destruct s; cbn [cond_Zopp]; lia.
Qed.

Lemma SFltb_zero_sign s x :
  has_sign s x -> SFltb (S754_zero false) x = negb s.
Proof.
  destruct x as [ | s' | | s' m e]; cbn; try contradiction; intros ->;
    destruct s; reflexivity.
Qed.

Lemma binary_normalize_gt0 D e :
  emin64 <= e ->
  SFltb (S754_zero false) (binary_normalize prec emax D e false) = (0 <? D).
Proof.
  intros He. unfold binary_normalize. destruct D as [ | p | p].
  - reflexivity.
  - rewrite (SFltb_zero_sign false) by (apply binary_round_sign; exact He).
    reflexivity.
  - rewrite (SFltb_zero_sign true) by (apply binary_round_sign; exact He).
    reflexivity.
Qed.

Lemma SFsub_gt0 x y :
  valid_binary x = true -> valid_binary y = true ->
  x <> S754_nan -> y <> S754_nan ->
  SFltb (S754_zero false) (SF64sub y x) = (okey x <? okey y).
Proof.
  intros Vx Vy Nx Ny.
  assert (Hinf : 0 < 2 ^ (emax - emin64)) by (apply pow2_pos; vm_compute; congruence).
  destruct x as [sx | sx | | sx mx ex], y as [sy | sy | | sy my ey];
    try congruence; cbn [valid_binary] in Vx, Vy;
    try pose proof (finite_key_bounds _ _ Vx) as Kx;
    try pose proof (finite_key_bounds _ _ Vy) as Ky.
  9: {
    unfold SF64sub, SFsub.
    pose proof (bounded_inv _ _ Vx) as (Hex & _).
    pose proof (bounded_inv _ _ Vy) as (Hey & _).
    change (IntDef.Z.min ey ex) with (Z.min ey ex).
    rewrite binary_normalize_gt0 by lia.
    rewrite (okey_finite_aligned sx mx ex (Z.min ey ex)) by lia.
    rewrite (okey_finite_aligned sy my ey (Z.min ey ex)) by lia.
    assert (Hc : 0 < 2 ^ (Z.min ey ex - emin64)) by (apply pow2_pos; lia).
    generalize dependent (2 ^ (Z.min ey ex - emin64)).
    generalize (cond_Zopp sy (Z.pos (fst (shl_align my ey (Z.min ey ex))))).
    generalize (cond_Zopp sx (Z.pos (fst (shl_align mx ex (Z.min ey ex))))).
    intros X Y c Hc.
    destruct (Z.ltb_spec 0 (Y - X)); symmetry; [apply Z.ltb_lt | apply Z.ltb_ge]; nia. }
  all: try destruct sx; try destruct sy; unfold SF64sub, SFsub, SFltb, SFcompare;
    cbn [negb okey cond_Zopp];
    symmetry; first [ apply Z.ltb_lt; lia | apply Z.ltb_ge; lia ].
Qed.

Close Scope Z_scope.

(* ================================================================= *)
(** * Facts about Numbers *)

Local Open Scope float_scope.


Lemma isNaN_false x : isNaN x = false -> Prim2SF x <> S754_nan.
Proof. unfold isNaN. destruct (Prim2SF x); congruence. Qed.

Lemma isNaN_true x : isNaN x = true -> x = NaN.
Proof.
  unfold isNaN. intros H. apply Prim2SF_inj.
  destruct (Prim2SF x); try discriminate. reflexivity.
Qed.

Lemma isNaN_NaN : isNaN NaN = true.
Proof. reflexivity. Qed.

Lemma gt0_sub x y :
  isNaN x = false -> isNaN y = false -> gt0 (y - x) = (key x <? key y)%Z.
Proof.
  intros Hx Hy. unfold gt0, key. rewrite ltb_spec, sub_spec.
  change (Prim2SF pos_zero) with (S754_zero false).
  apply SFsub_gt0; auto using Prim2SF_valid, isNaN_false.
Qed.

Lemma compare_key x y :
  isNaN x = false -> isNaN y = false ->
  SFcompare (Prim2SF x) (Prim2SF y) = Some (key x ?= key y)%Z.
Proof.
  intros Hx Hy. apply SFcompare_okey; auto using Prim2SF_valid, isNaN_false.
Qed.

Lemma leb_key x y :
  isNaN x = false -> isNaN y = false -> (x <=? y) = (key x <=? key y)%Z.
Proof.
  intros Hx Hy. rewrite leb_spec. unfold SFleb. rewrite compare_key by assumption.
  unfold Z.leb. destruct (key x ?= key y)%Z; reflexivity.
Qed.

Lemma ltb_key x y :
  isNaN x = false -> isNaN y = false -> (x <? y) = (key x <? key y)%Z.
Proof.
  intros Hx Hy. rewrite ltb_spec. unfold SFltb. rewrite compare_key by assumption.
  unfold Z.ltb. destruct (key x ?= key y)%Z; reflexivity.
Qed.

Lemma eqb_key x y :
  isNaN x = false -> isNaN y = false -> (x =? y) = (key x =? key y)%Z.
Proof.
  intros Hx Hy. rewrite eqb_spec. unfold SFeqb. rewrite compare_key by assumption.
  rewrite Z.eqb_compare. reflexivity.
Qed.

Lemma eqb_NaN_r x y : isNaN y = true -> (x =? y) = false.
Proof.
  intros H. rewrite eqb_spec. unfold isNaN in H. unfold SFeqb, SFcompare.
  destruct (Prim2SF y); try discriminate. destruct (Prim2SF x); reflexivity.
Qed.

Lemma mul_NaN_r x y : isNaN y = true -> x * y = NaN.
Proof.
  intros H. apply Prim2SF_inj. rewrite mul_spec, (isNaN_true _ H).
  change (Prim2SF NaN) with S754_nan. destruct (Prim2SF x); reflexivity.
Qed.

Lemma add_NaN_r x y : isNaN y = true -> x + y = NaN.
Proof.
  intros H. apply Prim2SF_inj. rewrite add_spec, (isNaN_true _ H).
  change (Prim2SF NaN) with S754_nan. destruct (Prim2SF x); reflexivity.
Qed.

Lemma add_NaN_l x y : isNaN x = true -> x + y = NaN.
Proof.
  intros H. apply Prim2SF_inj. rewrite add_spec, (isNaN_true _ H).
  reflexivity.
Qed.

Lemma div_NaN_l x y : isNaN x = true -> x / y = NaN.
Proof.
  intros H. apply Prim2SF_inj. rewrite div_spec, (isNaN_true _ H).
  reflexivity.
Qed.

Lemma mul_NaN_l x y : isNaN x = true -> (x * y)%float = NaN.
Proof.
  intros H. apply Prim2SF_inj. rewrite mul_spec, (isNaN_true _ H).
  reflexivity.
Qed.

Lemma div_NaN_r x y : isNaN y = true -> (x / y)%float = NaN.
Proof.
  intros H. apply Prim2SF_inj. rewrite div_spec, (isNaN_true _ H).
  change (Prim2SF NaN) with S754_nan. destruct (Prim2SF x); reflexivity.
Qed.

Lemma div_by_zero_product d n q :
  isZero n = true \/ isZero q = true ->
  isNaN (d / (n * q)) = true \/ isInfinity (d / (n * q)) = true.
Proof.
  unfold isZero, isNaN, isInfinity. rewrite div_spec, mul_spec.
  unfold SF64div, SF64mul, SFdiv, SFmul.
  intros [H | H];
    destruct (Prim2SF n) as [ | | | ], (Prim2SF q) as [ | | | ]; try discriminate;
    destruct (Prim2SF d) as [ | | | ]; auto.
Qed.

Close Scope float_scope.

(* ================================================================= *)
(** * Array.prototype.sort with a consistent comparator *)

Section SortSpec.
Context {A : Type}.
Variable comparefn : A -> A -> number.

(** [rank] witnesses that [comparefn] is consistent on the elements that
    satisfy [ok]: [comparefn a b > 0] exactly when [a] ranks below [b]. *)
Variable rank : A -> Z.
Variable ok : A -> Prop.
Hypothesis comparefn_rank :
  forall a b, ok a -> ok b -> gt0 (comparefn a b) = (rank a <? rank b)%Z.

Lemma sort_insert_perm (x : A) (l : list A) :
  Permutation (sort_insert comparefn x l) (x :: l).
Proof.
  induction l as [ | y l IH]; cbn [sort_insert].
  - apply Permutation_refl.
  - destruct (gt0 (comparefn x y)).
    + eapply Permutation_trans; [apply perm_skip, IH | apply perm_swap].
    + apply Permutation_refl.
Qed.

Lemma Array_sort_perm (l : list A) : Permutation (Array_sort comparefn l) l.
Proof.
  induction l as [ | x l IH]; cbn [Array_sort].
  - apply perm_nil.
  - eapply Permutation_trans; [apply sort_insert_perm | apply perm_skip, IH].
Qed.

Lemma Array_sort_length (l : list A) :
  List.length (Array_sort comparefn l) = List.length l.
Proof. apply Permutation_length, Array_sort_perm. Qed.

Lemma Array_sort_ok (l : list A) : Forall ok l -> Forall ok (Array_sort comparefn l).
Proof.
  intros H. eapply Permutation_Forall; [|exact H].
  apply Permutation_sym, Array_sort_perm.
Qed.

Lemma sort_insert_sorted (x : A) (l : list A) :
  ok x -> Forall ok l -> StronglySorted (ranked_down rank) l ->
  StronglySorted (ranked_down rank) (sort_insert comparefn x l).
Proof.
  intros Hx Hl Hs. induction l as [ | y l IH]; cbn [sort_insert].
  - constructor; constructor.
  - inversion Hl as [ | ? ? Hy Hl']; subst.
    inversion Hs as [ | ? ? Hs' Hall]; subst.
    rewrite comparefn_rank by assumption.
    destruct (Z.ltb_spec (rank x) (rank y)) as [Hlt | Hge].
    + constructor; [now apply IH|].
      eapply Permutation_Forall; [apply Permutation_sym, sort_insert_perm|].
      constructor; [unfold ranked_down; lia | exact Hall].
    + constructor; [exact Hs|].
      constructor; [exact Hge|].
      eapply Forall_impl; [|exact Hall]. unfold ranked_down. intros; lia.
Qed.

Lemma Array_sort_sorted (l : list A) :
  Forall ok l -> StronglySorted (ranked_down rank) (Array_sort comparefn l).
Proof.
  induction l as [ | x l IH]; intros H; cbn [Array_sort].
  - constructor.
  - inversion H; subst.
    apply sort_insert_sorted; auto using Array_sort_ok.
Qed.

Lemma sort_insert_filter (x : A) (l : list A) (v : Z) :
  ok x -> Forall ok l ->
  filter (fun a => (rank a =? v)%Z) (sort_insert comparefn x l)
  = filter (fun a => (rank a =? v)%Z) (x :: l).
Proof.
  intros Hx Hl. induction l as [ | y l IH]; cbn [sort_insert].
  - reflexivity.
  - inversion Hl as [ | ? ? Hy Hl']; subst.
    rewrite comparefn_rank by assumption.
    destruct (Z.ltb_spec (rank x) (rank y)) as [Hlt | Hge]; [|reflexivity].
    cbn [filter] in *. rewrite (IH Hl').
    destruct (Z.eqb_spec (rank y) v), (Z.eqb_spec (rank x) v); try reflexivity.
    lia.
Qed.

Lemma Array_sort_stable (l : list A) (v : Z) :
  Forall ok l ->
  filter (fun a => (rank a =? v)%Z) (Array_sort comparefn l)
  = filter (fun a => (rank a =? v)%Z) l.
Proof.
  induction l as [ | x l IH]; intros H; cbn [Array_sort].
  - reflexivity.
  - inversion H; subst.
    rewrite sort_insert_filter by auto using Array_sort_ok.
    cbn [filter]. now rewrite IH.
Qed.

End SortSpec.

Lemma StronglySorted_map_ok {A B : Type} (R : A -> A -> Prop) (R' : B -> B -> Prop)
  (ok : A -> Prop) (f : A -> B) (l : list A) :
  (forall a b, ok a -> ok b -> R a b -> R' (f a) (f b)) ->
  Forall ok l -> StronglySorted R l -> StronglySorted R' (map f l).
Proof.
  intros HR. induction l as [ | x l IH]; intros Hok Hs; cbn [map].
  - constructor.
  - inversion Hok as [ | ? ? Hx Hl]; subst.
    inversion Hs as [ | ? ? Hs' Hall]; subst.
    constructor; [now apply IH|].
    apply Forall_map. rewrite Forall_forall in *. intros b Hb.
    apply HR; auto.
Qed.

(** ** [slice(0, k)] *)

Lemma Array_slice0_nonneg {A : Type} (k : Z) (l : list A) :
  (0 <= k)%Z -> Array_slice0 k l = firstn (Z.to_nat k) l.
Proof.
  intros Hk. unfold Array_slice0.
  destruct (Z.ltb_spec k 0) as [ | _]; [lia|].
  destruct (Z.le_ge_cases k (Z.of_nat (List.length l))).
  - now rewrite Z.min_l.
  - rewrite Z.min_r, Nat2Z.id by assumption.
    rewrite firstn_all. symmetry. apply firstn_all2. lia.
Qed.

Lemma Array_slice0_zero {A : Type} (l : list A) : Array_slice0 0 l = [].
Proof. rewrite Array_slice0_nonneg by lia. reflexivity. Qed.

Lemma Array_slice0_neg {A : Type} (k : Z) (l : list A) :
  (k < 0)%Z -> Array_slice0 k l = firstn (List.length l - Z.to_nat (- k)) l.
Proof.
  intros Hk. unfold Array_slice0.
  destruct (Z.ltb_spec k 0) as [Hneg | Hpos]; [|lia].
  f_equal. lia.
Qed.

(* ================================================================= *)
(** * search *)

Lemma search_array (E : engine) (q : list value) (k : Z) (docs : index) :
  search E (VArray q) k docs
  = Normal (Array_slice0 k (Array_sort (by_score E) (search_candidates E q docs))).
Proof. reflexivity. Qed.

Lemma by_score_rank (E : engine) (a b : object) :
  isNaN (score_of E a) = false -> isNaN (score_of E b) = false ->
  gt0 (by_score E a b) = (key (score_of E a) <? key (score_of E b))%Z.
Proof. intros Ha Hb. unfold by_score. now apply gt0_sub. Qed.

Lemma In_firstn {A : Type} (n : nat) (l : list A) (x : A) :
  In x (firstn n l) -> In x l.
Proof.
  revert l. induction n as [ | n IH]; intros [ | y l]; cbn; try tauto.
  intros [-> | H]; auto.
Qed.

Lemma In_Array_slice0 {A : Type} (k : Z) (l : list A) (x : A) :
  In x (Array_slice0 k l) -> In x l.
Proof. unfold Array_slice0. apply In_firstn. Qed.

Lemma search_result_origin (E : engine) (q : list value) (k : Z) (docs : index)
  (r : object) :
  In r (Array_slice0 k (Array_sort (by_score E) (search_candidates E q docs))) ->
  exists e, In e docs
    /\ r = scored E (to_float32 E q) (Math_hypot E (to_float32 E q)) e.
Proof.
  intros H. apply In_Array_slice0 in H.
  apply (Permutation_in _ (Array_sort_perm (by_score E) _)) in H.
  unfold search_candidates in H. apply in_map_iff in H as (e & <- & He).
  now exists e.
Qed.

(** ** The object literal [{ id, score, ...rest }] *)

Lemma obj_get_set_other (k k' : string) (v : value) (o : object) :
  k <> k' -> obj_get (obj_set k' v o) k = obj_get o k.
Proof.
  intros Hk. unfold obj_get. induction o as [ | [k0 v0] o IH]; cbn.
  - destruct (String.eqb_spec k k'); congruence.
  - destruct (String.eqb_spec k' k0); cbn.
    + subst k0. destruct (String.eqb_spec k k'); congruence.
    + destruct (String.eqb_spec k k0); auto.
Qed.

Lemma obj_get_spread_absent (base rest0 : object) (k : string) :
  obj_lookup k rest0 = None ->
  obj_get (obj_spread base rest0) k = obj_get base k.
Proof.
  unfold obj_spread. revert base.
  induction rest0 as [ | [k0 v0] rest0 IH]; intros base H; cbn in *.
  - reflexivity.
  - destruct (String.eqb_spec k k0); [discriminate|].
    rewrite IH by exact H. now apply obj_get_set_other.
Qed.

Lemma scored_score (E : engine) (q : list number) (qNorm : number) (e : entry) :
  obj_lookup "score" (rest e) = None ->
  obj_get (scored E q qNorm e) "score" = VNumber (cosine E q qNorm e).
Proof.
  intros H. unfold scored. now rewrite obj_get_spread_absent.
Qed.

(** ** The dot product *)

Lemma typed_get_out (a : list number) (i : nat) :
  (List.length a <= i)%nat -> typed_get a i = NaN.
Proof.
  intros H. unfold typed_get. now rewrite (proj2 (nth_error_None a i) H).
Qed.

Lemma typed_get_firstn (a : list number) (n i : nat) :
  (i < n)%nat -> typed_get (firstn n a) i = typed_get a i.
Proof.
  intros H. unfold typed_get. now rewrite nth_error_firstn, (proj2 (Nat.ltb_lt i n) H).
Qed.

Lemma fold_left_ext_in {A B : Type} (f g : A -> B -> A) (l : list B) (a : A) :
  (forall acc i, In i l -> f acc i = g acc i) ->
  fold_left f l a = fold_left g l a.
Proof.
  revert a. induction l as [ | i l IH]; intros a H; cbn.
  - reflexivity.
  - rewrite H by (now left). apply IH. intros; apply H; now right.
Qed.

Lemma fold_add_NaN (t : nat -> number) (l : list nat) :
  fold_left (fun dot i => (dot + t i)%float) l NaN = NaN.
Proof.
  induction l as [ | i l IH]; cbn.
  - reflexivity.
  - rewrite add_NaN_l by reflexivity. exact IH.
Qed.

Lemma dot_product_short (q vector0 : list number) :
  (List.length vector0 < List.length q)%nat -> dot_product q vector0 = NaN.
Proof.
  intros H. unfold dot_product.
  replace (List.length q)
    with (List.length vector0 + S (List.length q - S (List.length vector0)))%nat by lia.
  rewrite seq_app, fold_left_app. cbn [seq fold_left Nat.add].
  rewrite (typed_get_out vector0 _ (le_n _)).
  rewrite (mul_NaN_r _ NaN) by reflexivity.
  rewrite (add_NaN_r _ NaN) by reflexivity.
  apply (fold_add_NaN (fun i => (typed_get q i * typed_get vector0 i)%float)).
Qed.

Lemma dot_product_prefix (q v1 v2 : list number) :
  firstn (List.length q) v1 = firstn (List.length q) v2 ->
  dot_product q v1 = dot_product q v2.
Proof.
  intros H. unfold dot_product. apply fold_left_ext_in.
  intros acc i Hi. apply in_seq in Hi.
  rewrite <- (typed_get_firstn v1 (List.length q) i) by lia.
  rewrite <- (typed_get_firstn v2 (List.length q) i) by lia.
  now rewrite H.
Qed.

Lemma cosine_short (E : engine) (q : list number) (qNorm : number) (e : entry) :
  (List.length (vector e) < List.length q)%nat -> cosine E q qNorm e = NaN.
Proof.
  intros H. unfold cosine. rewrite dot_product_short by exact H.
  now apply div_NaN_l.
Qed.

Lemma to_float32_length (E : engine) (xs : list value) :
  List.length (to_float32 E xs) = List.length xs.
Proof. apply length_map. Qed.

(** ** Descending sequences *)

(** A descending sequence of two scores or more holds no NaN. *)
Lemma descending_no_NaN (scores : list number) :
  descending scores -> (2 <= List.length scores)%nat ->
  Forall (fun x => isNaN x = false) scores.
Proof.
  intros H Hlen. unfold descending in H.
  assert (Hleb : forall a b, PrimFloat.leb b a = true ->
                   isNaN a = false /\ isNaN b = false).
  { intros a b. rewrite leb_spec. unfold isNaN, SFleb, SFcompare.
    destruct (Prim2SF a), (Prim2SF b); try discriminate; auto. }
  destruct scores as [ | a [ | b l]]; cbn in Hlen; try lia.
  inversion H as [ | ? ? Hs Hall]; subst.
  inversion Hall as [ | ? ? Hab Hall']; subst.
  constructor; [apply (Hleb a b Hab)|].
  constructor; [apply (Hleb a b Hab)|].
  eapply Forall_impl; [|exact Hall']. intros c Hc. apply (Hleb a c Hc).
Qed.

(* ================================================================= *)
(** * search: the claims *)

Lemma filter_none {A : Type} (l : list A) : filter (fun _ => false) l = [].
Proof. induction l as [ | a l IH]; [reflexivity | exact IH]. Qed.

(** C1, amended.  Whenever no object [search] sorts has a NaN [score] and
    [k] is not negative, [search] returns the first [k] objects of a ranking
    that holds every scored entry once, is in descending order of [score],
    and keeps objects of equal score in insertion order; when the index
    holds at most [k] entries the whole ranking is returned. *)
Theorem search_descending_stable_top_k (E : engine) (q : list value) (k : Z)
  (docs : index) :
  (0 <= k)%Z ->
  Forall (fun r => isNaN (score_of E r) = false) (search_candidates E q docs) ->
  exists ranked,
    search E (VArray q) k docs = Normal (firstn (Z.to_nat k) ranked)
    /\ Permutation ranked (search_candidates E q docs)
    /\ descending (map (score_of E) ranked)
    /\ stable_by_score E ranked (search_candidates E q docs)
    /\ ((Z.of_nat (List.length docs) <= k)%Z -> firstn (Z.to_nat k) ranked = ranked).
Proof.
  intros Hk Hok.
  set (cands := search_candidates E q docs) in *.
  set (okr := fun r : object => isNaN (score_of E r) = false) in *.
  set (rank := fun r : object => key (score_of E r)).
  assert (Hcmp : forall a b, okr a -> okr b ->
                   gt0 (by_score E a b) = (rank a <? rank b)%Z)
    by (intros a b; apply by_score_rank).
  exists (Array_sort (by_score E) cands).
  pose proof (Array_sort_perm (by_score E) cands) as Hperm.
  pose proof (Array_sort_ok (by_score E) okr cands Hok) as Hok'.
  repeat split.
  - rewrite search_array. fold cands. now rewrite Array_slice0_nonneg.
  - exact Hperm.
  - unfold descending.
    apply (StronglySorted_map_ok (ranked_down rank) _ okr); [|exact Hok'|].
    + intros a b Ha Hb Hab. rewrite leb_key by assumption.
      apply Z.leb_le. exact Hab.
    + now apply (Array_sort_sorted (by_score E) rank okr).
  - intros v. destruct (isNaN v) eqn:Hv.
    + rewrite !(filter_ext (fun r => PrimFloat.eqb (score_of E r) v) (fun _ => false))
        by (intros r; apply eqb_NaN_r; exact Hv).
      now rewrite !filter_none.
    + rewrite (filter_ext_in _ (fun r => (rank r =? key v)%Z) (Array_sort _ _)).
      2:{ intros r Hr. apply eqb_key; [|exact Hv].
          exact (proj1 (Forall_forall _ _) Hok' r Hr). }
      rewrite (filter_ext_in _ (fun r => (rank r =? key v)%Z) cands).
      2:{ intros r Hr. apply eqb_key; [|exact Hv].
          exact (proj1 (Forall_forall _ _) Hok r Hr). }
      now apply (Array_sort_stable (by_score E) rank okr).
  - intros Hlen. apply firstn_all2.
    rewrite (Permutation_length Hperm). unfold cands, search_candidates.
    rewrite length_map. lia.
Qed.

(** The theorem at the index [a = [3, 4]], [b = [1, 0]], the query [[1, 0]]
    and [k = 1]. *)
Lemma search_descending_stable_top_k_witness :
  exists ranked,
    search reference_engine (VArray query_1_0) 1 index_a_b = Normal (firstn (Z.to_nat 1) ranked)
    /\ Permutation ranked (search_candidates reference_engine query_1_0 index_a_b)
    /\ descending (map (score_of reference_engine) ranked)
    /\ stable_by_score reference_engine ranked (search_candidates reference_engine query_1_0 index_a_b)
    /\ ((Z.of_nat (List.length index_a_b) <= 1)%Z -> firstn (Z.to_nat 1) ranked = ranked).
Proof.
  apply (search_descending_stable_top_k reference_engine query_1_0 1 index_a_b).
  - lia.
  - repeat constructor; vm_compute; reflexivity.
Defined.

(** C1 as stated fails.  With the all-zero vector [z] between [a] and [b] the
    scores come back as [0.6, NaN, 1]: [z] compares equal to both neighbours,
    so [b] is never moved before [a].  Nor would another sort do better: no
    arrangement of these three scores is descending.  And for the negative
    [k = -1] the result is not the empty prefix. *)
Lemma search_not_descending_beside_zero_vector :
  ~ (exists rs,
        search reference_engine (VArray query_1_0) 10 index_a_z_b = Normal rs
        /\ descending (map (score_of reference_engine) rs))
  /\ ~ (exists rs,
          Permutation rs (search_candidates reference_engine query_1_0 index_a_z_b)
          /\ descending (map (score_of reference_engine) rs))
  /\ ~ (search reference_engine (VArray query_1_0) (-1) index_a_b = Normal []).
Proof.
  split; [|split; [|intros H; vm_compute in H; discriminate H]].
  - intros (rs & H & D). vm_compute in H. injection H as <-.
    unfold descending in D. cbn [map] in D.
    inversion D as [ | ? ? _ Hall]; subst.
    inversion Hall as [ | ? ? Hz _]; subst.
    vm_compute in Hz. discriminate.
  - intros (rs & P & D). apply descending_no_NaN in D.
    + set (z := scored reference_engine
                  (to_float32 reference_engine query_1_0)
                  (Math_hypot reference_engine (to_float32 reference_engine query_1_0))
                  (nth 1 index_a_z_b (added reference_engine VNull []))).
      assert (Hz : In z rs).
      { apply (Permutation_in _ (Permutation_sym P)). right. left. reflexivity. }
      rewrite Forall_forall in D.
      specialize (D (score_of reference_engine z) (in_map _ _ _ Hz)).
      vm_compute in D. discriminate.
    + rewrite length_map, (Permutation_length P). cbn. lia.
Qed.

(** C4, amended.  For [k <= 0], [search] returns the empty array when
    [k = 0], and for a negative [k] the full ranking (what [search] returns
    for [k] the size of the index) without its last [-k] objects: empty
    only when the index holds at most [-k] entries. *)
Theorem search_nonpositive_k (E : engine) (q : list value) (k : Z) (docs : index) :
  (k <= 0)%Z ->
  exists ranked,
    search E (VArray q) (Z.of_nat (List.length docs)) docs = Normal ranked
    /\ Permutation ranked (search_candidates E q docs)
    /\ search E (VArray q) k docs
       = Normal (if (k =? 0)%Z then []
                 else firstn (List.length docs - Z.to_nat (- k)) ranked).
Proof.
  intros Hk. exists (Array_sort (by_score E) (search_candidates E q docs)).
  pose proof (Array_sort_length (by_score E) (search_candidates E q docs)) as Hlen.
  assert (Hn : List.length (search_candidates E q docs) = List.length docs)
    by apply length_map.
  repeat split.
  - rewrite search_array, Array_slice0_nonneg, Nat2Z.id by lia.
    f_equal. apply firstn_all2. lia.
  - apply Array_sort_perm.
  - rewrite search_array. destruct (Z.eqb_spec k 0) as [-> | Hz].
    + now rewrite Array_slice0_zero.
    + rewrite Array_slice0_neg by lia. now rewrite Hlen, Hn.
Qed.

(** The theorem at [k = -1] on the three-entry index. *)
Lemma search_nonpositive_k_witness :
  exists ranked,
    search reference_engine (VArray query_1_0) 3 index_a_z_b = Normal ranked
    /\ Permutation ranked (search_candidates reference_engine query_1_0 index_a_z_b)
    /\ search reference_engine (VArray query_1_0) (-1) index_a_z_b = Normal (firstn 2 ranked).
Proof.
  apply (search_nonpositive_k reference_engine query_1_0 (-1) index_a_z_b). lia.
Defined.

(** C4 as stated fails: [search(q, -1)] on three entries returns two. *)
Lemma search_negative_k_not_empty :
  ~ (search reference_engine (VArray query_1_0) (-1) index_a_z_b = Normal []).
Proof. intros H. vm_compute in H. discriminate. Qed.

(** C2, amended.  [search] never throws for an array query, and every
    object it returns is the scored form of a stored entry; when the query
    norm or that entry's cached norm is zero, and the entry has no field of
    its own named [score], the returned score is NaN or an infinity: no
    zero-norm case is replaced by [0]. *)
Theorem zero_norm_score_is_not_finite (E : engine) (q : list value) (k : Z)
  (docs : index) :
  let qv := to_float32 E q in
  let qNorm := Math_hypot E qv in
  exists rs,
    search E (VArray q) k docs = Normal rs
    /\ forall r, In r rs ->
         exists e, In e docs /\ r = scored E qv qNorm e
           /\ (isZero qNorm = true \/ isZero (ToNumber E (norm e)) = true ->
               obj_lookup "score" (rest e) = None ->
               exists s, obj_get r "score" = VNumber s
                         /\ (isNaN s = true \/ isInfinity s = true)).
Proof.
  intros qv qNorm. eexists. split; [apply search_array|].
  intros r Hr. apply search_result_origin in Hr as (e & He & ->).
  exists e. repeat split; [exact He|].
  intros Hzero Hown. exists (cosine E qv qNorm e). split.
  - now apply scored_score.
  - unfold cosine. apply div_by_zero_product. tauto.
Qed.

(** C2 as stated fails: the entry [add("z", [0, 0])] has cached norm [0]
    and its score is NaN, not [0]. *)
Lemma zero_norm_entry_score_not_zero :
  isZero (ToNumber reference_engine (norm (hd (added reference_engine VNull []) index_z))) = true
  /\ ~ (exists rs,
          search reference_engine (VArray query_1_0) 10 index_z = Normal rs
          /\ Forall (fun r => isZero (score_of reference_engine r) = true) rs).
Proof.
  split; [reflexivity|].
  intros (rs & H & Hall). vm_compute in H. injection H as <-.
  inversion Hall as [ | ? ? Hz _]; subst. vm_compute in Hz. discriminate.
Qed.

(** C10, amended.  [search] makes no dimensionality check: it never throws
    for an array query.  For a stored entry whose vector is shorter than the
    query the computed score is NaN, and it is the returned score unless the
    entry has a field of its own named [score].  Components beyond the
    query's length are not read: an entry with the same [id], cached norm
    and remaining fields whose vector agrees on the query's indices gets the
    same result. *)
Theorem search_reads_query_indices_only (E : engine) (q : list value) (k : Z)
  (docs : index) :
  let qv := to_float32 E q in
  let qNorm := Math_hypot E qv in
  exists rs,
    search E (VArray q) k docs = Normal rs
    /\ forall r, In r rs ->
         exists e, In e docs /\ r = scored E qv qNorm e
           /\ ((List.length (vector e) < List.length q)%nat ->
               obj_lookup "score" (rest e) = None ->
               obj_get r "score" = VNumber NaN)
           /\ (forall e',
                 id e' = id e -> norm e' = norm e -> rest e' = rest e ->
                 firstn (List.length q) (vector e') = firstn (List.length q) (vector e) ->
                 scored E qv qNorm e' = r).
Proof.
  intros qv qNorm. eexists. split; [apply search_array|].
  intros r Hr. apply search_result_origin in Hr as (e & He & ->).
  exists e. repeat split; [exact He | |].
  - intros Hshort Hown. rewrite scored_score by exact Hown.
    f_equal. apply cosine_short. unfold qv. now rewrite to_float32_length.
  - intros e' Hid Hnorm Hrest Hpre. unfold scored, cosine.
    rewrite Hid, Hnorm, Hrest.
    rewrite (dot_product_prefix qv (vector e') (vector e)); [reflexivity|].
    unfold qv. now rewrite to_float32_length.
Qed.

(** C10 as stated fails twice.  The entry loaded with its own [score: 5] is
    shorter than the query and comes back with score 5, not NaN.  And the
    entries [[3, 4]] and [[3, 0]] agree on the one index of the query [[1]]
    but score 0.6 and 1: the component beyond the query's length reaches the
    score through the cached norm. *)
Lemma returned_score_not_NaN_nor_prefix_determined :
  Forall (fun e => (List.length (vector e) < List.length [VNumber 1%float; VNumber 2%float])%nat)
    index_own_score
  /\ ~ (exists rs,
          search reference_engine (VArray [VNumber 1%float; VNumber 2%float]) 10 index_own_score
          = Normal rs
          /\ Forall (fun r => isNaN (score_of reference_engine r) = true) rs)
  /\ map (fun e => firstn 1 (vector e)) index_3_4
     = map (fun e => firstn 1 (vector e)) index_3_0
  /\ ~ (search reference_engine (VArray [VNumber 1%float]) 10 index_3_4
        = search reference_engine (VArray [VNumber 1%float]) 10 index_3_0).
Proof.
  split; [repeat constructor|]. split; [|split; [reflexivity|]].
  - intros (rs & H & Hall). vm_compute in H. injection H as <-.
    inversion Hall as [ | ? ? Hz _]; subst. vm_compute in Hz. discriminate.
  - intros H.
    apply (f_equal (fun c => match c with
                             | Normal rs =>
                                 map (fun r => Prim2SF (score_of reference_engine r)) rs
                             | Throw _ => []
                             end)) in H.
    vm_compute in H. discriminate H.
Qed.

(** The size of the result: [min(k, N)] objects for [k >= 0], each the
    scored form of a stored entry. *)
Theorem search_returns_at_most_k (E : engine) (q : list value) (k : Z)
  (docs : index) :
  (0 <= k)%Z ->
  exists rs,
    search E (VArray q) k docs = Normal rs
    /\ List.length rs = Nat.min (Z.to_nat k) (List.length docs)
    /\ forall r, In r rs ->
         exists e, In e docs
           /\ r = scored E (to_float32 E q) (Math_hypot E (to_float32 E q)) e.
Proof.
  intros Hk. eexists. split; [apply search_array|]. split.
  - rewrite Array_slice0_nonneg, length_firstn, Array_sort_length by exact Hk.
    unfold search_candidates. now rewrite length_map.
  - intros r Hr. now apply search_result_origin in Hr.
Qed.

Lemma search_returns_at_most_k_witness :
  exists rs,
    search reference_engine (VArray query_1_0) 2 index_a_z_b = Normal rs
    /\ List.length rs = Nat.min (Z.to_nat 2) (List.length index_a_z_b)
    /\ forall r, In r rs ->
         exists e, In e index_a_z_b
           /\ r = scored reference_engine (to_float32 reference_engine query_1_0)
                   (Math_hypot reference_engine (to_float32 reference_engine query_1_0)) e.
Proof.
  apply (search_returns_at_most_k reference_engine query_1_0 2 index_a_z_b). lia.
Defined.

(* ================================================================= *)
(** * add and loadDocs *)

Lemma add_array (E : engine) (id0 : value) (xs : list value) (docs : index) :
  add E id0 (VArray xs) docs = (Normal tt, docs ++ [added E id0 xs]).
Proof. reflexivity. Qed.

Lemma loadDocs_callback_has_vector (E : engine) (d : value) (docs : index) :
  has_vector d -> loadDocs_callback E d docs = (Normal tt, docs ++ [stored E d]).
Proof.
  intros (o & xs & -> & Hv). unfold loadDocs_callback, stored. cbn [properties].
  now rewrite Hv.
Qed.

Lemma loadDocs_callback_lacks_vector (E : engine) (d : value) (docs : index) :
  lacks_vector d -> loadDocs_callback E d docs = (Throw TypeError, docs).
Proof.
  destruct d as [ | | b | x | s | xs | o]; cbn; try reflexivity.
  intros H. destruct (obj_get o "vector"); try discriminate; reflexivity.
Qed.

Lemma loadDocs_forEach_all (E : engine) (ds : list value) (docs : index) :
  Forall has_vector ds ->
  loadDocs_forEach E ds docs = (Normal tt, docs ++ map (stored E) ds).
Proof.
  intros H. revert docs. induction H as [ | d ds Hd _ IH]; intros docs; cbn.
  - now rewrite app_nil_r.
  - rewrite loadDocs_callback_has_vector by exact Hd.
    rewrite IH, <- app_assoc. reflexivity.
Qed.

Lemma loadDocs_forEach_stops (E : engine) (pre : list value) (d : value)
  (post : list value) (docs : index) :
  Forall has_vector pre -> lacks_vector d ->
  loadDocs_forEach E (pre ++ d :: post) docs
  = (Throw TypeError, docs ++ map (stored E) pre).
Proof.
  intros H Hd. revert docs. induction H as [ | p pre Hp _ IH]; intros docs; cbn.
  - rewrite loadDocs_callback_lacks_vector by exact Hd. now rewrite app_nil_r.
  - rewrite loadDocs_callback_has_vector by exact Hp.
    rewrite IH, <- app_assoc. reflexivity.
Qed.

(** C6, amended.  [loadDocs] throws a [TypeError], storing nothing, when its
    argument is not an array.  For an array whose elements are all objects
    with an array [vector] it appends one entry per element, in order: the
    [id] and [norm] as given (absent ones stay [undefined], nothing is
    recomputed), the vector converted to 32-bit floats, and the other
    fields.  At the first element that is not an object, or whose [vector]
    is missing or [null], it throws a [TypeError] and keeps the entries
    stored before it. *)
Theorem loadDocs_accepts_arrays_of_vectors (E : engine) (arg : value) (docs : index) :
  ((forall ds, arg <> VArray ds) -> loadDocs E arg docs = (Throw TypeError, docs))
  /\ (forall ds, arg = VArray ds ->
        (Forall has_vector ds ->
         loadDocs E arg docs = (Normal tt, docs ++ map (stored E) ds))
        /\ (forall pre d post,
              ds = pre ++ d :: post -> Forall has_vector pre -> lacks_vector d ->
              loadDocs E arg docs = (Throw TypeError, docs ++ map (stored E) pre))).
Proof.
  split.
  - intros H. destruct arg; try reflexivity. now destruct (H xs).
  - intros ds ->. split.
    + apply loadDocs_forEach_all.
    + intros pre d post ->. apply loadDocs_forEach_stops.
Qed.

(** C6 as stated fails: an element with no [id] is not well formed and is
    stored all the same; the error for an argument that is no array is a
    [TypeError], never a [SchemaError]; a well-formed element whose [vector]
    is [null] is refused; and the vector [[0.1]] is not stored as it is but
    as the nearest 32-bit float. *)
Lemma loadDocs_takes_element_without_id :
  well_formed_bulk bulk_without_id = false
  /\ ~ (exists e docs', loadDocs reference_engine bulk_without_id [] = (Throw e, docs'))
  /\ well_formed_bulk VNull = false
  /\ ~ (exists e docs',
          loadDocs reference_engine VNull [] = (Throw e, docs')
          /\ error_name e = "SchemaError")
  /\ well_formed_bulk bulk_null_vector = true
  /\ ~ (exists docs', loadDocs reference_engine bulk_null_vector [] = (Normal tt, docs'))
  /\ well_formed_bulk bulk_tenth = true
  /\ ~ (map vector (snd (loadDocs reference_engine bulk_tenth [])) = [[0.1%float]]).
Proof.
  repeat split; try reflexivity.
  - intros (e & docs' & H). discriminate H.
  - intros (e & docs' & H & Hn). destruct e; discriminate Hn.
  - intros (docs' & H). discriminate H.
  - intros H. apply (f_equal (map (map Prim2SF))) in H.
    vm_compute in H. discriminate H.
Qed.

(** C7, amended.  Neither insertion checks a dimensionality: whatever the
    index holds, [add] with an array appends the entry with a vector of that
    array's own length, and so does [loadDocs] for an object with an array
    [vector]; entries of different dimensionality can share an index. *)
Theorem insertion_keeps_any_dimension (E : engine) (docs : index) :
  (forall id0 xs,
      add E id0 (VArray xs) docs = (Normal tt, docs ++ [added E id0 xs])
      /\ List.length (vector (added E id0 xs)) = List.length xs)
  /\ (forall o xs,
        obj_get o "vector" = VArray xs ->
        loadDocs E (VArray [VObject o]) docs
        = (Normal tt, docs ++ [stored E (VObject o)])
        /\ List.length (vector (stored E (VObject o))) = List.length xs).
Proof.
  split.
  - intros id0 xs. split; [reflexivity | apply length_map].
  - intros o xs Hv. split.
    + cbn [loadDocs]. rewrite loadDocs_forEach_all; [reflexivity|].
      constructor; [|constructor]. now exists o, xs.
    + unfold stored. cbn [vector properties]. rewrite Hv. apply length_map.
Qed.

(** C7 as stated fails: after two entries of dimensionality 2, [add] with a
    vector of dimensionality 1 does not throw, and the index holds all
    three. *)
Lemma add_accepts_other_dimension :
  map (fun e => List.length (vector e)) index_a_b = [2; 2]%nat
  /\ ~ (exists e docs',
          add reference_engine (VString "c") (VArray [VNumber 1%float]) index_a_b = (Throw e, docs'))
  /\ map (fun e => List.length (vector e))
       (snd (add reference_engine (VString "c") (VArray [VNumber 1%float]) index_a_b))
     = [2; 2; 1]%nat.
Proof.
  repeat split; try reflexivity.
  intros (e & docs' & H). discriminate H.
Qed.

(** What [add] stores is there to be found: after [add(id, vector)] with an
    array, [search] with a [k] above the former size returns one object for
    each entry, old and new, and among them the new entry's: the object with
    the two fields [id] and [score] and no other, the id as given, the score
    the dot product with the vector as 32-bit floats divided by the product
    of [Math.hypot] of that stored vector and the query's norm. *)
Theorem add_then_search_returns_the_entry (E : engine) (id0 : value)
  (xs q : list value) (k : Z) (docs : index) :
  (Z.of_nat (List.length docs) < k)%Z ->
  exists docs' rs,
    add E id0 (VArray xs) docs = (Normal tt, docs')
    /\ List.length docs' = S (List.length docs)
    /\ search E (VArray q) k docs' = Normal rs
    /\ List.length rs = S (List.length docs)
    /\ In [("id", id0);
           ("score",
            VNumber (dot_product (to_float32 E q) (to_float32 E xs)
                     / (Math_hypot E (to_float32 E xs)
                        * Math_hypot E (to_float32 E q)))%float)] rs.
Proof.
  intros Hk. eexists _, _. split; [apply add_array|].
  assert (Hlen : List.length (docs ++ [added E id0 xs]) = S (List.length docs))
    by (rewrite length_app; cbn; lia).
  split; [exact Hlen|]. split; [apply search_array|].
  rewrite Array_slice0_nonneg by lia.
  rewrite firstn_all2.
  2:{ rewrite Array_sort_length. unfold search_candidates. rewrite length_map. lia. }
  split.
  - rewrite Array_sort_length. unfold search_candidates. now rewrite length_map.
  - apply (Permutation_in _ (Permutation_sym (Array_sort_perm (by_score E) _))).
    unfold search_candidates. apply in_map_iff. exists (added E id0 xs).
    split; [reflexivity|]. apply in_or_app. right. now left.
Qed.

(** [add("c", [0, 1])] to the index of ["a"] and ["b"], then a search for
    the top 3. *)
Lemma add_then_search_returns_the_entry_witness :
  exists docs' rs,
    add reference_engine (VString "c") (VArray [VNumber 0%float; VNumber 1%float])
      index_a_b = (Normal tt, docs')
    /\ List.length docs' = S (List.length index_a_b)
    /\ search reference_engine (VArray query_1_0) 3 docs' = Normal rs
    /\ List.length rs = S (List.length index_a_b)
    /\ In [("id", VString "c");
           ("score",
            VNumber (dot_product (to_float32 reference_engine query_1_0)
                       (to_float32 reference_engine [VNumber 0%float; VNumber 1%float])
                     / (Math_hypot reference_engine
                          (to_float32 reference_engine [VNumber 0%float; VNumber 1%float])
                        * Math_hypot reference_engine
                            (to_float32 reference_engine query_1_0)))%float)] rs.
Proof.
  apply (add_then_search_returns_the_entry reference_engine (VString "c")
           [VNumber 0%float; VNumber 1%float] query_1_0 3 index_a_b).
  cbn. lia.
Defined.

Lemma obj_lookup_without (k : string) (ks : list string) (o : object) :
  obj_lookup k o = None -> obj_lookup k (obj_without ks o) = None.
Proof.
  unfold obj_without. induction o as [ | [k0 v0] o IH]; cbn; [reflexivity|].
  destruct (String.eqb_spec k k0); [discriminate|]. intros H.
  destruct (negb _); cbn; [|now apply IH].
  destruct (String.eqb_spec k k0); [congruence | now apply IH].
Qed.

(** Bulk-loaded documents that carry a vector and no norm, as in the README's
    example input, all come back from [search] with score NaN. *)
Theorem bulk_load_without_norm_scores_NaN (E : engine) (q : list value) (k : Z)
  (ds : list value) :
  Forall (fun d => has_vector d
                   /\ obj_get (properties d) "norm" = VUndefined
                   /\ obj_lookup "score" (properties d) = None) ds ->
  exists rs,
    search E (VArray q) k (snd (loadDocs E (VArray ds) [])) = Normal rs
    /\ Forall (fun r => obj_get r "score" = VNumber NaN) rs.
Proof.
  intros H. eexists. split; [apply search_array|].
  apply Forall_forall. intros r Hr.
  apply search_result_origin in Hr as (e & He & ->).
  cbn [loadDocs] in He. rewrite loadDocs_forEach_all in He.
  2:{ eapply Forall_impl; [|exact H]. now intros d [Hd _]. }
  cbn [snd app] in He. apply in_map_iff in He as (d & <- & Hd).
  rewrite Forall_forall in H. destruct (H d Hd) as (_ & Hnorm & Hscore).
  rewrite scored_score.
  - f_equal. unfold cosine, stored. cbn [norm vector]. rewrite Hnorm.
    cbn [ToNumber]. apply div_NaN_r. now rewrite mul_NaN_l.
  - unfold stored. cbn [rest]. now apply obj_lookup_without.
Qed.

Lemma bulk_load_without_norm_scores_NaN_witness :
  exists rs,
    search reference_engine (VArray [VNumber 1%float; VNumber 0%float; VNumber 0%float])
      10 (snd (loadDocs reference_engine (VArray readme_documents) []))
    = Normal rs
    /\ Forall (fun r => obj_get r "score" = VNumber NaN) rs.
Proof.
  apply (bulk_load_without_norm_scores_NaN reference_engine
           [VNumber 1%float; VNumber 0%float; VNumber 0%float] 10 readme_documents).
  repeat constructor. eexists _, _. split; reflexivity.
Defined.

(* ================================================================= *)
(** * The indexing loop *)

Lemma Get_not_nullish (d : value) (k : string) :
  is_nullish d = false -> Get d k = Normal (obj_get (properties d) k).
Proof. destruct d; cbn; congruence. Qed.

Lemma chunk_texts_all (chunk : list value) :
  Forall (fun d => is_nullish d = false) chunk ->
  chunk_texts chunk = Normal (map text_block_of chunk).
Proof.
  induction 1 as [ | d chunk Hd _ IH]; cbn [chunk_texts map].
  - reflexivity.
  - rewrite (Get_not_nullish d _ Hd), IH. reflexivity.
Qed.

Lemma skipn_nth_cons {A : Type} (j : nat) (l : list A) (d : A) :
  (j < List.length l)%nat -> skipn j l = nth j l d :: skipn (S j) l.
Proof.
  revert l. induction j as [ | j IH]; intros [ | x l] H; cbn in *; try lia.
  - reflexivity.
  - apply IH. lia.
Qed.

Lemma add_chunk_all (E : engine) (todo : list value) (j : nat)
  (embeddings : list value) (docs : index) :
  Forall (fun d => is_nullish d = false) todo ->
  Forall (fun v => exists xs, v = VArray xs) embeddings ->
  (j + List.length todo <= List.length embeddings)%nat ->
  add_chunk E todo j embeddings docs
  = (Normal tt, docs ++ added_chunk E todo (skipn j embeddings)).
Proof.
  intros Htodo Hemb. revert j docs.
  induction Htodo as [ | d todo Hd _ IH]; intros j docs Hlen; cbn [add_chunk].
  - destruct (skipn j embeddings); cbn; now rewrite app_nil_r.
  - cbn [List.length] in Hlen.
    rewrite (Get_not_nullish d _ Hd). fold (header_of d).
    rewrite (skipn_nth_cons j embeddings VUndefined) by lia.
    unfold array_get.
    assert (Hv : exists xs, nth j embeddings VUndefined = VArray xs).
    { rewrite Forall_forall in Hemb. apply Hemb, nth_In. lia. }
    destruct Hv as (xs & Hv). rewrite Hv, add_array.
    rewrite IH by lia. cbn [added_chunk elements].
    rewrite <- app_assoc. reflexivity.
Qed.

Lemma index_chunk_all (E : engine) (embedBatch : list value -> list value)
  (chunk : list value) (st : run) :
  one_vector_per_text embedBatch ->
  Forall (fun d => is_nullish d = false) chunk ->
  index_chunk E embedBatch chunk st
  = (Normal tt,
     {| run_docs := run_docs st
                    ++ added_chunk E chunk (embedBatch (map text_block_of chunk));
        run_calls := run_calls st ++ [map text_block_of chunk] |}).
Proof.
  intros Hemb Hchunk. unfold index_chunk.
  rewrite (chunk_texts_all chunk Hchunk).
  destruct (Hemb (map text_block_of chunk)) as [Hlen Harr].
  rewrite add_chunk_all; [reflexivity | exact Hchunk | exact Harr |].
  rewrite Hlen, length_map. lia.
Qed.

(** ** Batches *)

Lemma batches_fuel_enough {A : Type} (batch : nat) (f1 f2 : nat) (l : list A) :
  (1 <= batch)%nat -> (List.length l <= f1)%nat -> (List.length l <= f2)%nat ->
  batches_fuel f1 batch l = batches_fuel f2 batch l.
Proof.
  intros Hb. revert f2 l. induction f1 as [ | f1 IH]; intros f2 l H1 H2.
  - destruct l; cbn in *; [|lia]. destruct f2; reflexivity.
  - destruct l as [ | x l]; [destruct f2; reflexivity|].
    destruct f2 as [ | f2]; cbn in H2; [lia|].
    cbn [batches_fuel]. f_equal.
    assert (List.length (skipn batch (x :: l)) <= List.length l)%nat.
    { rewrite length_skipn. cbn [List.length]. lia. }
    cbn [List.length] in H1. apply IH; lia.
Qed.

Lemma batches_cons {A : Type} (batch : nat) (l : list A) :
  (1 <= batch)%nat -> l <> [] ->
  batches batch l = firstn batch l :: batches batch (skipn batch l).
Proof.
  intros Hb Hl. unfold batches. destruct l as [ | x l]; [congruence|].
  cbn [List.length batches_fuel]. f_equal.
  apply batches_fuel_enough; [exact Hb | | lia].
  rewrite length_skipn. cbn [List.length]. lia.
Qed.

Lemma batches_nil {A : Type} (batch : nat) : batches batch (@nil A) = [].
Proof. reflexivity. Qed.

Lemma concat_batches {A : Type} (batch : nat) (l : list A) :
  (1 <= batch)%nat -> List.concat (batches batch l) = l.
Proof.
  intros Hb. remember (List.length l) as n eqn:Hn. revert l Hn.
  induction n as [n IH] using lt_wf_ind. intros l Hn.
  destruct l as [ | x l]; [reflexivity|].
  rewrite batches_cons by (auto; congruence). cbn [List.concat].
  rewrite (IH (List.length (skipn batch (x :: l)))); [apply firstn_skipn | | reflexivity].
  subst n. rewrite length_skipn. cbn [List.length]. lia.
Qed.

Lemma Forall_firstn_skipn {A : Type} (P : A -> Prop) (n : nat) (l : list A) :
  Forall P l -> Forall P (firstn n l) /\ Forall P (skipn n l).
Proof. intros H. apply Forall_app. now rewrite firstn_skipn. Qed.

Lemma run_eta (st : run) :
  {| run_docs := run_docs st ++ []; run_calls := run_calls st ++ [] |} = st.
Proof. destruct st. cbn. now rewrite !app_nil_r. Qed.

Lemma indexing_loop_runs (E : engine) (embedBatch : list value -> list value)
  (batch : nat) (docs : list value) :
  (1 <= batch)%nat ->
  one_vector_per_text embedBatch ->
  Forall (fun d => is_nullish d = false) docs ->
  forall fuel i st,
    (List.length docs - i <= fuel)%nat ->
    indexing_loop E embedBatch fuel batch docs i st
    = Some (Normal tt,
            {| run_docs := run_docs st ++ loop_entries E embedBatch batch (skipn i docs);
               run_calls := run_calls st
                            ++ map (map text_block_of) (batches batch (skipn i docs)) |}).
Proof.
  intros Hb Hemb Hdocs.
  assert (Hdone : forall i st, (List.length docs <= i)%nat ->
            Some (Normal tt, st)
            = Some (Normal tt,
                {| run_docs := run_docs st ++ loop_entries E embedBatch batch (skipn i docs);
                   run_calls := run_calls st
                     ++ map (map text_block_of) (batches batch (skipn i docs)) |})).
  { intros i st Hi. rewrite skipn_all2 by exact Hi.
    unfold loop_entries. rewrite batches_nil. cbn [map List.concat].
    now rewrite run_eta. }
  induction fuel as [ | fuel IH]; intros i st Hfuel; cbn [indexing_loop];
    destruct (Nat.ltb_spec i (List.length docs)) as [Hlt | Hge];
    try (apply Hdone; lia); try lia.
  pose proof (Forall_firstn_skipn _ i docs Hdocs) as [_ Hrest].
  pose proof (Forall_firstn_skipn _ batch _ Hrest) as [Hchunk _].
  rewrite (index_chunk_all E embedBatch _ st Hemb Hchunk).
  rewrite IH by lia. cbn [run_docs run_calls].
  assert (Hne : skipn i docs <> []).
  { intros Hnil. apply skipn_all_iff in Hnil. lia. }
  unfold loop_entries.
  rewrite (batches_cons batch (skipn i docs) Hb Hne).
  cbn [map List.concat]. rewrite skipn_skipn, (Nat.add_comm batch i).
  now rewrite <- !app_assoc.
Qed.

(** ** What the entries are *)

Lemma added_chunk_app (E : engine) (c1 c2 v1 v2 : list value) :
  List.length c1 = List.length v1 ->
  added_chunk E (c1 ++ c2) (v1 ++ v2) = added_chunk E c1 v1 ++ added_chunk E c2 v2.
Proof.
  revert v1. induction c1 as [ | d c1 IH]; intros [ | v v1] H; cbn in *; try lia.
  - reflexivity.
  - f_equal. apply IH. lia.
Qed.

Lemma added_chunk_length (E : engine) (chunk vs : list value) :
  List.length chunk = List.length vs ->
  List.length (added_chunk E chunk vs) = List.length chunk.
Proof.
  revert vs. induction chunk as [ | d chunk IH]; intros [ | v vs] H; cbn in *; try lia.
  f_equal. apply IH. lia.
Qed.

Lemma added_chunk_ids (E : engine) (chunk vs : list value) :
  List.length chunk = List.length vs ->
  map id (added_chunk E chunk vs) = map header_of chunk.
Proof.
  revert vs. induction chunk as [ | d chunk IH]; intros [ | v vs] H; cbn in *; try lia.
  - reflexivity.
  - f_equal. apply IH. lia.
Qed.

Lemma added_chunk_rest (E : engine) (chunk vs : list value) :
  Forall (fun e => rest e = []) (added_chunk E chunk vs).
Proof.
  revert vs. induction chunk as [ | d chunk IH]; intros [ | v vs]; cbn; constructor.
  - reflexivity.
  - apply IH.
Qed.

Lemma loop_entries_by_position (E : engine) (embedBatch : list value -> list value)
  (batch : nat) (docs : list value) :
  (1 <= batch)%nat -> one_vector_per_text embedBatch ->
  List.length (loop_vectors embedBatch batch docs) = List.length docs
  /\ loop_entries E embedBatch batch docs
     = added_chunk E docs (loop_vectors embedBatch batch docs).
Proof.
  intros Hb Hemb. unfold loop_entries, loop_vectors.
  rewrite <- (concat_batches batch docs Hb) at 2 4.
  generalize (batches batch docs) as bs. induction bs as [ | c bs [IHl IHe]].
  - split; reflexivity.
  - destruct (Hemb (map text_block_of c)) as [Hlen _]. rewrite length_map in Hlen.
    cbn [map List.concat]. split.
    + rewrite !length_app. congruence.
    + rewrite added_chunk_app by (symmetry; exact Hlen). now rewrite IHe.
Qed.

Lemma loop_entries_rest (E : engine) (embedBatch : list value -> list value)
  (batch : nat) (docs : list value) :
  Forall (fun e => rest e = []) (loop_entries E embedBatch batch docs).
Proof.
  unfold loop_entries. generalize (batches batch docs) as bs.
  induction bs as [ | c bs IH]; cbn [map List.concat].
  - constructor.
  - apply Forall_app. split; [apply added_chunk_rest | exact IH].
Qed.

Lemma embed_ones_contract : one_vector_per_text embed_ones.
Proof.
  intros texts. unfold embed_ones. split; [apply length_map|].
  apply Forall_map, Forall_forall. intros t _. now exists [VNumber 1%float].
Qed.

(** C3.  For every batch size of at least 1 and every collection of [N]
    documents (none of them [null]), with a gateway that returns one vector
    per text, the loop ends normally given [N] turns of fuel, and the index
    holds exactly [N] entries, the entry at each position built from the
    document at that position: its [id] is that document's [header]. *)
Theorem indexing_loop_keeps_document_order (E : engine)
  (embedBatch : list value -> list value) (batch fuel : nat) (docs : list value) :
  (1 <= batch)%nat ->
  (List.length docs <= fuel)%nat ->
  one_vector_per_text embedBatch ->
  Forall (fun d => is_nullish d = false) docs ->
  exists st,
    indexing_loop E embedBatch fuel batch docs 0 start = Some (Normal tt, st)
    /\ List.length (run_docs st) = List.length docs
    /\ run_docs st = added_chunk E docs (loop_vectors embedBatch batch docs)
    /\ map id (run_docs st) = map header_of docs.
Proof.
  intros Hb Hfuel Hemb Hdocs. eexists. split.
  - apply indexing_loop_runs; auto. lia.
  - cbn [run_docs start app skipn].
    destruct (loop_entries_by_position E embedBatch batch docs Hb Hemb) as [Hlen ->].
    repeat split.
    + apply added_chunk_length. now symmetry.
    + apply added_chunk_ids. now symmetry.
Qed.

(** The theorem at three documents in batches of two. *)
Lemma indexing_loop_keeps_document_order_witness :
  exists st,
    indexing_loop reference_engine embed_ones 3 2 three_docs 0 start
    = Some (Normal tt, st)
    /\ List.length (run_docs st) = List.length three_docs
    /\ run_docs st = added_chunk reference_engine three_docs
                       (loop_vectors embed_ones 2 three_docs)
    /\ map id (run_docs st) = map header_of three_docs.
Proof.
  apply (indexing_loop_keeps_document_order reference_engine embed_ones 2 3 three_docs).
  - lia.
  - cbn. lia.
  - exact embed_ones_contract.
  - repeat constructor.
Defined.

(** C8, amended.  Under the same conditions the loop calls [embedBatch] once
    per batch, in order, with the documents' [text_block] values ([undefined]
    where a document has none; [text_blocks] is never read), and adds each
    returned vector, by [add], under its document's [header]. *)
Theorem indexing_loop_embeds_text_block_per_batch (E : engine)
  (embedBatch : list value -> list value) (batch fuel : nat) (docs : list value) :
  (1 <= batch)%nat ->
  (List.length docs <= fuel)%nat ->
  one_vector_per_text embedBatch ->
  Forall (fun d => is_nullish d = false) docs ->
  exists st,
    indexing_loop E embedBatch fuel batch docs 0 start = Some (Normal tt, st)
    /\ run_calls st = map (map text_block_of) (batches batch docs)
    /\ run_docs st = loop_entries E embedBatch batch docs
    /\ map id (run_docs st) = map header_of docs.
Proof.
  intros Hb Hfuel Hemb Hdocs. eexists. split.
  - apply indexing_loop_runs; auto. lia.
  - cbn [run_docs run_calls start app skipn]. repeat split.
    destruct (loop_entries_by_position E embedBatch batch docs Hb Hemb) as [Hlen ->].
    apply added_chunk_ids. now symmetry.
Qed.

(** The theorem at three documents in batches of two. *)
Lemma indexing_loop_embeds_text_block_per_batch_witness :
  exists st,
    indexing_loop reference_engine embed_ones 3 2 three_docs 0 start
    = Some (Normal tt, st)
    /\ run_calls st = map (map text_block_of) (batches 2 three_docs)
    /\ run_docs st = loop_entries reference_engine embed_ones 2 three_docs
    /\ map id (run_docs st) = map header_of three_docs.
Proof.
  apply (indexing_loop_embeds_text_block_per_batch
           reference_engine embed_ones 2 3 three_docs).
  - lia.
  - cbn. lia.
  - exact embed_ones_contract.
  - repeat constructor.
Defined.

(** C8 as stated fails: for a document with [text_blocks: ["a"]] and a field
    [lang] the text embedded is [undefined], not ["a"], and the entry added
    has no [lang]. *)
Lemma indexing_loop_ignores_text_blocks_and_metadata :
  spec_embeddable_text doc_with_blocks = VString "a"
  /\ ~ (exists st,
          indexing_loop reference_engine embed_ones 1 BATCH_SIZE [doc_with_blocks] 0 start
          = Some (Normal tt, st)
          /\ run_calls st = [[spec_embeddable_text doc_with_blocks]])
  /\ ~ (exists st,
          indexing_loop reference_engine embed_ones 1 BATCH_SIZE [doc_with_blocks] 0 start
          = Some (Normal tt, st)
          /\ Forall (fun e => entry_get e "lang" = VString "en") (run_docs st)).
Proof.
  split; [reflexivity|]. split.
  - intros (st & H & Hcalls). vm_compute in H. injection H as <-.
    discriminate Hcalls.
  - intros (st & H & Hall). vm_compute in H. injection H as <-.
    inversion Hall as [ | ? ? Hz _]; subst. discriminate Hz.
Qed.

(** On an empty collection the main function's test [docs[0]["vector"]] reads
    a property of [undefined]: the build throws before anything is indexed. *)
Theorem build_index_empty_collection (E : engine)
  (embedBatch : list value -> list value) (fuel : nat) :
  build_index E embedBatch fuel [] = Some (Throw TypeError, start).
Proof. reflexivity. Qed.

(** A collection whose first document has no vector goes through the loop
    in batches of [BATCH_SIZE]: every document is indexed, in order. *)
Theorem build_index_embedding_path (E : engine)
  (embedBatch : list value -> list value) (fuel : nat) (d : value)
  (ds : list value) :
  truthy (obj_get (properties d) "vector") = false ->
  (List.length (d :: ds) <= fuel)%nat ->
  one_vector_per_text embedBatch ->
  Forall (fun d => is_nullish d = false) (d :: ds) ->
  exists st,
    build_index E embedBatch fuel (d :: ds) = Some (Normal tt, st)
    /\ run_docs st = loop_entries E embedBatch BATCH_SIZE (d :: ds)
    /\ List.length (run_docs st) = List.length (d :: ds)
    /\ map id (run_docs st) = map header_of (d :: ds).
Proof.
  intros Hv Hfuel Hemb Hdocs. unfold build_index. cbn [array_get nth].
  inversion Hdocs as [ | ? ? Hd _]; subst.
  rewrite (Get_not_nullish d _ Hd), Hv.
  assert (Hb : (1 <= BATCH_SIZE)%nat) by (unfold BATCH_SIZE; lia).
  rewrite (indexing_loop_runs E embedBatch BATCH_SIZE (d :: ds) Hb Hemb Hdocs)
    by lia.
  eexists. split; [reflexivity|]. cbn [run_docs start app skipn].
  destruct (loop_entries_by_position E embedBatch BATCH_SIZE (d :: ds) Hb Hemb)
    as [Hlen Heq].
  repeat split.
  - rewrite Heq. apply added_chunk_length. now symmetry.
  - rewrite Heq. apply added_chunk_ids. now symmetry.
Qed.

Lemma build_index_embedding_path_witness :
  exists st,
    build_index reference_engine embed_ones 3 three_docs = Some (Normal tt, st)
    /\ run_docs st = loop_entries reference_engine embed_ones BATCH_SIZE three_docs
    /\ List.length (run_docs st) = List.length three_docs
    /\ map id (run_docs st) = map header_of three_docs.
Proof.
  apply (build_index_embedding_path reference_engine embed_ones 3
           (hd VNull three_docs) (tl three_docs)).
  - reflexivity.
  - cbn. lia.
  - exact embed_ones_contract.
  - repeat constructor.
Defined.

(** A collection whose documents all carry an array [vector] is loaded by
    [loadDocs] whatever the fuel: every document is stored, in order, with
    its [id] and [norm] as given, and [embedBatch] is never called. *)
Theorem build_index_bulk_path (E : engine)
  (embedBatch : list value -> list value) (fuel : nat) (d : value)
  (ds : list value) :
  Forall has_vector (d :: ds) ->
  build_index E embedBatch fuel (d :: ds)
  = Some (Normal tt,
          {| run_docs := map (stored E) (d :: ds); run_calls := [] |}).
Proof.
  intros Hdocs. unfold build_index. cbn [array_get nth].
  inversion Hdocs as [ | ? ? Hd _]; subst.
  destruct Hd as (o & xs & -> & Hv). cbn [Get]. rewrite Hv. cbn [truthy loadDocs].
  now rewrite loadDocs_forEach_all by exact Hdocs.
Qed.

Lemma build_index_bulk_path_witness :
  build_index reference_engine embed_ones 0
    (hd VNull bulk_documents :: tl bulk_documents)
  = Some (Normal tt,
          {| run_docs := map (stored reference_engine)
                           (hd VNull bulk_documents :: tl bulk_documents);
             run_calls := [] |}).
Proof.
  apply (build_index_bulk_path reference_engine embed_ones 0
           (hd VNull bulk_documents) (tl bulk_documents)).
  repeat constructor; eexists _, _; split; reflexivity.
Defined.

(* ================================================================= *)
(** * trim and toLowerCase *)

Local Open Scope string_scope.

Lemma append_assoc (a b c : string) : (a ++ b) ++ c = a ++ (b ++ c).
Proof. induction a as [ | x a IH]; cbn; [reflexivity | now rewrite IH]. Qed.

Lemma append_nil_r (a : string) : a ++ "" = a.
Proof. induction a as [ | x a IH]; cbn; [reflexivity | now rewrite IH]. Qed.

Lemma append_eq_nil (a b : string) : a ++ b = "" -> a = "" /\ b = "".
Proof. destruct a; cbn; [auto | discriminate]. Qed.

Lemma blank_nil : blank "".
Proof. constructor. Qed.

Lemma blank_cons (c : ascii) (s : string) :
  blank (String c s) <-> is_whitespace c = true /\ blank s.
Proof.
  unfold blank. cbn [list_ascii_of_string]. split.
  - intros H. inversion H; subst. auto.
  - intros [H1 H2]. now constructor.
Qed.

Lemma blank_app (a b : string) : blank a -> blank b -> blank (a ++ b).
Proof.
  intros Ha Hb. induction a as [ | x a IH]; cbn; [exact Hb|].
  apply blank_cons in Ha as [Hx Ha]. apply blank_cons. auto.
Qed.

(** ** Strings that end with no whitespace *)

Lemma ends_clean_tail (c : ascii) (s : string) :
  ends_clean (String c s) -> ends_clean s.
Proof. intros H t x ->. apply (H (String c t) x). reflexivity. Qed.

Lemma ends_clean_app (l core : string) :
  core <> "" -> ends_clean core -> ends_clean (l ++ core).
Proof.
  intros Hne H. induction l as [ | a l IH]; cbn; [exact H|].
  intros t c Ht. destruct t as [ | b t]; cbn in Ht.
  - injection Ht as _ Ht. apply append_eq_nil in Ht as [_ Ht]. congruence.
  - injection Ht as _ Ht. exact (IH t c Ht).
Qed.

Lemma trimEnd_blank (r : string) : blank r -> trimEnd r = "".
Proof.
  induction r as [ | c r IH]; intros H; cbn; [reflexivity|].
  apply blank_cons in H as [Hc Hr]. now rewrite (IH Hr), Hc.
Qed.

Lemma trimEnd_app_blank (x r : string) : blank r -> trimEnd (x ++ r) = trimEnd x.
Proof.
  intros Hr. induction x as [ | c x IH]; cbn.
  - now apply trimEnd_blank.
  - now rewrite IH.
Qed.

Lemma trimEnd_ends_clean (x : string) : ends_clean x -> trimEnd x = x.
Proof.
  induction x as [ | c x IH]; intros H; cbn; [reflexivity|].
  rewrite (IH (ends_clean_tail _ _ H)).
  destruct x as [ | b x]; [|reflexivity].
  now rewrite (H "" c eq_refl).
Qed.

Lemma trimStart_app_blank (l x : string) :
  blank l -> starts_clean x -> trimStart (l ++ x) = x.
Proof.
  intros Hl Hx. induction l as [ | c l IH]; cbn.
  - destruct x as [ | a x]; cbn; [reflexivity|]. now rewrite (Hx a x eq_refl).
  - apply blank_cons in Hl as [Hc Hl]. rewrite Hc. now apply IH.
Qed.

(** ** What [trim] leaves is the core, and the only one *)

Lemma trimEnd_split (s : string) : exists r, s = trimEnd s ++ r /\ blank r.
Proof.
  induction s as [ | c s (r & Hs & Hr)]; cbn.
  - exists "". split; [reflexivity | apply blank_nil].
  - destruct (trimEnd s) as [ | b t] eqn:Ht; cbn in Hs.
    + subst r. destruct (is_whitespace c) eqn:Hc.
      * exists (String c s). split; [reflexivity|]. now apply blank_cons.
      * exists s. split; [reflexivity | exact Hr].
    + exists r. split; [|exact Hr]. cbn. now rewrite <- Hs.
Qed.

Lemma trimStart_split (s : string) : exists l, s = l ++ trimStart s /\ blank l.
Proof.
  induction s as [ | c s (l & Hs & Hl)]; cbn.
  - exists "". split; [reflexivity | apply blank_nil].
  - destruct (is_whitespace c) eqn:Hc.
    + exists (String c l). split; [cbn; now rewrite <- Hs|].
      apply blank_cons. auto.
    + exists "". split; [reflexivity | apply blank_nil].
Qed.

Lemma trimStart_starts_clean (s : string) : starts_clean (trimStart s).
Proof.
  induction s as [ | c s IH]; cbn.
  - intros a t H. discriminate.
  - destruct (is_whitespace c) eqn:Hc; [exact IH|].
    intros a t H. injection H as <- _. exact Hc.
Qed.

Lemma trimEnd_ends_clean_result (s : string) : ends_clean (trimEnd s).
Proof.
  induction s as [ | a s IH]; cbn.
  - intros t c H. destruct t; discriminate.
  - destruct (trimEnd s) as [ | b u] eqn:Hu.
    + destruct (is_whitespace a) eqn:Ha.
      * intros t c H. destruct t; discriminate.
      * intros t c H. destruct t as [ | x t]; cbn in H.
        -- injection H as <-. exact Ha.
        -- injection H as _ H. destruct t; discriminate.
    + intros t c H. destruct t as [ | x t]; cbn in H.
      * discriminate.
      * injection H as _ H. exact (IH t c H).
Qed.

Lemma core_of_trim (s : string) : core_of s (trim s).
Proof.
  unfold trim.
  destruct (trimEnd_split s) as (r & Hs & Hr).
  destruct (trimStart_split (trimEnd s)) as (l & He & Hl).
  exists l, r. repeat split; try assumption.
  - rewrite <- append_assoc, <- He. exact Hs.
  - apply trimStart_starts_clean.
  - intros t c H. apply (trimEnd_ends_clean_result s (l ++ t) c).
    rewrite He at 1. rewrite H. now rewrite append_assoc.
Qed.

Lemma core_of_unique (s core : string) : core_of s core -> core = trim s.
Proof.
  intros (l & r & -> & Hl & Hr & Hstart & Hend). unfold trim.
  rewrite <- append_assoc, trimEnd_app_blank by exact Hr.
  destruct core as [ | c core].
  - rewrite append_nil_r, trimEnd_blank by exact Hl. reflexivity.
  - rewrite trimEnd_ends_clean by (apply ends_clean_app; [discriminate | exact Hend]).
    symmetry. now apply trimStart_app_blank.
Qed.

Lemma same_letters_toLowerCase (a b : string) :
  same_letters a b <-> toLowerCase a = toLowerCase b.
Proof.
  unfold same_letters. revert b.
  induction a as [ | x a IH]; intros [ | y b]; cbn; split; intros H;
    try reflexivity; try discriminate; try (now inversion H); try constructor.
  - inversion H; subst. f_equal; [assumption | now apply IH].
  - now injection H.
  - apply IH. now injection H.
Qed.

Lemma equal_ignoring_case_and_blanks_iff (a b : string) :
  equal_ignoring_case_and_blanks a b
  <-> toLowerCase (trim a) = toLowerCase (trim b).
Proof.
  split.
  - intros (ca & cb & Ha & Hb & H).
    apply core_of_unique in Ha, Hb. subst. now apply same_letters_toLowerCase.
  - intros H. exists (trim a), (trim b).
    repeat split; try apply core_of_trim. now apply same_letters_toLowerCase.
Qed.

(* ================================================================= *)
(** * textSearch *)

Lemma find_first {A : Type} (f : A -> bool) (l : list A) :
  match find f l with
  | Some x =>
      exists before after,
        l = (before ++ x :: after)%list /\ f x = true
        /\ Forall (fun y => f y = false) before
  | None => Forall (fun y => f y = false) l
  end.
Proof.
  induction l as [ | y l IH]; cbn.
  - constructor.
  - destruct (f y) eqn:Hy.
    + exists [], l. repeat split; [exact Hy | constructor].
    + destruct (find f l) as [x | ].
      * destruct IH as (before & after & -> & Hx & Hb).
        exists (y :: before), after. repeat split; [exact Hx | now constructor].
      * now constructor.
Qed.

Lemma textSearch_header_bare (text : string) (docs : index) :
  Forall (fun e => rest e = []) docs ->
  textSearch (VString text) "header" docs = None.
Proof.
  intros H. cbn [textSearch]. induction H as [ | e docs He _ IH]; cbn [find].
  - reflexivity.
  - unfold entry_get at 1. rewrite He. cbn. exact IH.
Qed.

(** An index filled by the indexing loop has no [header] to search: the
    entries keep the header as their [id] only, so [textSearch], whose
    default attribute is [header], finds nothing in it. *)
Theorem textSearch_header_after_indexing_loop (E : engine)
  (embedBatch : list value -> list value) (batch fuel : nat) (docs : list value) :
  (1 <= batch)%nat ->
  (List.length docs <= fuel)%nat ->
  one_vector_per_text embedBatch ->
  Forall (fun d => is_nullish d = false) docs ->
  exists st,
    indexing_loop E embedBatch fuel batch docs 0 start = Some (Normal tt, st)
    /\ forall text, textSearch (VString text) "header" (run_docs st) = None.
Proof.
  intros Hb Hfuel Hemb Hdocs. eexists. split.
  - apply indexing_loop_runs; auto. lia.
  - intros text. apply textSearch_header_bare.
    cbn [run_docs start app skipn]. apply loop_entries_rest.
Qed.

Lemma textSearch_header_after_indexing_loop_witness :
  exists st,
    indexing_loop reference_engine embed_ones 3 2 three_docs 0 start
    = Some (Normal tt, st)
    /\ forall text, textSearch (VString text) "header" (run_docs st) = None.
Proof.
  apply (textSearch_header_after_indexing_loop
           reference_engine embed_ones 2 3 three_docs).
  - lia.
  - cbn. lia.
  - exact embed_ones_contract.
  - repeat constructor.
Defined.

Local Open Scope list_scope.

(* ================================================================= *)
(** * The index across calls *)

Lemma loadDocs_callback_grows (E : engine) (d : value) (docs : index) :
  exists new,
    snd (loadDocs_callback E d docs) = docs ++ new
    /\ (List.length new <= 1)%nat.
Proof.
  unfold loadDocs_callback.
  destruct d as [ | | b | x | s | xs | o];
    try (exists []; cbn; split; [now rewrite app_nil_r | lia]).
  destruct (Float32Array_from E (obj_get o "vector")) as [vec | e].
  - eexists [_]. cbn. split; [reflexivity | lia].
  - exists []. cbn. split; [now rewrite app_nil_r | lia].
Qed.

Lemma loadDocs_forEach_grows (E : engine) (ds : list value) (docs : index) :
  exists new,
    snd (loadDocs_forEach E ds docs) = docs ++ new
    /\ (List.length new <= List.length ds)%nat.
Proof.
  revert docs. induction ds as [ | d ds IH]; intros docs; cbn [loadDocs_forEach].
  - exists []. cbn. split; [now rewrite app_nil_r | lia].
  - destruct (loadDocs_callback_grows E d docs) as (new1 & H1 & L1).
    destruct (loadDocs_callback E d docs) as [[[] | e] docs1]; cbn [snd] in *.
    + destruct (IH docs1) as (new2 & H2 & L2). exists (new1 ++ new2).
      rewrite H2, H1, <- app_assoc, length_app. cbn [List.length].
      split; [reflexivity | lia].
    + exists new1. cbn [List.length]. split; [exact H1 | lia].
Qed.

Lemma add_chunk_grows (E : engine) (todo : list value) (j : nat)
  (embeddings : list value) (docs : index) :
  exists new, snd (add_chunk E todo j embeddings docs) = docs ++ new.
Proof.
  revert j docs. induction todo as [ | d todo IH]; intros j docs; cbn [add_chunk].
  - exists []. cbn. now rewrite app_nil_r.
  - destruct (Get d "header") as [header | e].
    2:{ exists []. cbn. now rewrite app_nil_r. }
    unfold add. destruct (Float32Array_from E (array_get embeddings j)) as [vec | e].
    + destruct (IH (S j) (docs ++ [ {| id := header; vector := vec;
                                       norm := VNumber (Math_hypot E vec);
                                       rest := [] |} ])) as (new & H).
      eexists. rewrite H, <- app_assoc. reflexivity.
    + exists []. cbn. now rewrite app_nil_r.
Qed.

Lemma index_chunk_grows (E : engine) (embedBatch : list value -> list value)
  (chunk : list value) (st : run) :
  exists new calls,
    run_docs (snd (index_chunk E embedBatch chunk st)) = run_docs st ++ new
    /\ run_calls (snd (index_chunk E embedBatch chunk st)) = run_calls st ++ calls.
Proof.
  unfold index_chunk. destruct (chunk_texts chunk) as [texts | e].
  - destruct (add_chunk_grows E chunk 0 (embedBatch texts) (run_docs st))
      as (new & H).
    destruct (add_chunk E chunk 0 (embedBatch texts) (run_docs st)) as [c docs'].
    cbn [snd run_docs run_calls] in *. now exists new, [texts].
  - exists [], []. cbn [snd]. now rewrite !app_nil_r.
Qed.

(** No call removes, replaces or reorders an entry of the index, whether it
    returns or throws: [add] leaves the entries it found followed by at most
    one more, [loadDocs] by at most one per element of its argument, and the
    indexing loop only appends, to the index and to the calls made. *)
Theorem index_only_grows (E : engine) :
  (forall id0 vector0 docs,
      exists new,
        snd (add E id0 vector0 docs) = docs ++ new
        /\ (List.length new <= 1)%nat)
  /\ (forall arg docs,
        exists new,
          snd (loadDocs E arg docs) = docs ++ new
          /\ (List.length new <= List.length (elements arg))%nat)
  /\ (forall embedBatch fuel batch ds i st c st',
        indexing_loop E embedBatch fuel batch ds i st = Some (c, st') ->
        exists new calls,
          run_docs st' = run_docs st ++ new
          /\ run_calls st' = run_calls st ++ calls).
Proof.
  split; [|split].
  - intros id0 vector0 docs. unfold add.
    destruct (Float32Array_from E vector0) as [vec | e].
    + eexists [_]. cbn. split; [reflexivity | lia].
    + exists []. cbn. split; [now rewrite app_nil_r | lia].
  - intros arg docs.
    destruct arg as [ | | b | x | s | ds | o];
      try (exists []; cbn; split; [now rewrite app_nil_r | lia]).
    apply loadDocs_forEach_grows.
  - intros embedBatch fuel. induction fuel as [ | fuel IH];
      intros batch ds i st c st' H; cbn [indexing_loop] in H;
      destruct (i <? List.length ds)%nat;
      try discriminate;
      try (injection H as <- <-; exists [], []; now rewrite !app_nil_r).
    destruct (index_chunk_grows E embedBatch (firstn batch (skipn i ds)) st)
      as (new1 & calls1 & Hd & Hc).
    destruct (index_chunk E embedBatch (firstn batch (skipn i ds)) st)
      as [[[] | e] st1]; cbn [snd] in Hd, Hc.
    + apply IH in H as (new2 & calls2 & Hd2 & Hc2).
      exists (new1 ++ new2), (calls1 ++ calls2).
      now rewrite Hd2, Hc2, Hd, Hc, <- !app_assoc.
    + injection H as <- <-. now exists new1, calls1.
Qed.

(* ================================================================= *)
(** * search: one ranking for every k *)

(** Whatever the scores are, NaN included, [search] ranks every entry
    exactly once, and the ranking does not depend on [k]: the result for a
    [k >= 0] is the first [k] objects of one arrangement of the candidates,
    so the result for a smaller [k] is a prefix of the result for a larger
    one. *)
Theorem search_top_k_is_prefix_of_one_ranking (E : engine) (q : list value)
  (docs : index) :
  exists ranked,
    Permutation ranked (search_candidates E q docs)
    /\ forall k, (0 <= k)%Z ->
         search E (VArray q) k docs = Normal (firstn (Z.to_nat k) ranked).
Proof.
  exists (Array_sort (by_score E) (search_candidates E q docs)). split.
  - apply Array_sort_perm.
  - intros k Hk. rewrite search_array. now rewrite Array_slice0_nonneg.
Qed.

(* ================================================================= *)
(** * search: the empty query *)




(* ================================================================= *)
(** * search: a query component that is no number *)





(* ================================================================= *)
(** * What is stored and what is found again *)

(** ** Object literals with a spread *)

Lemma obj_get_set_same (k : string) (v : value) (o : object) :
  obj_get (obj_set k v o) k = v.
Proof.
  unfold obj_get. induction o as [ | [k0 v0] o IH]; cbn.
  - now rewrite String.eqb_refl.
  - destruct (String.eqb_spec k k0) as [-> | Hk]; cbn.
    + now rewrite String.eqb_refl.
    + destruct (String.eqb_spec k k0); [contradiction | exact IH].
Qed.

Lemma obj_lookup_In (k : string) (o : object) :
  obj_lookup k o <> None -> In k (map fst o).
Proof.
  induction o as [ | [k0 v0] o IH]; cbn; [congruence|].
  destruct (String.eqb_spec k k0); auto.
Qed.

Lemma obj_get_spread (base rest0 : object) (k : string) :
  NoDup (map fst rest0) ->
  obj_get (obj_spread base rest0) k
  = match obj_lookup k rest0 with
    | Some v => v
    | None => obj_get base k
    end.
Proof.
  unfold obj_spread. intros H. revert base.
  induction rest0 as [ | [k0 v0] rest0 IH]; intros base; cbn [fold_left fst snd].
  - reflexivity.
  - inversion H as [ | ? ? Hnot Hnd]; subst.
    rewrite (IH Hnd). cbn [obj_lookup].
    destruct (String.eqb_spec k k0) as [-> | Hk].
    + destruct (obj_lookup k0 rest0) eqn:Hl.
      * exfalso. apply Hnot, obj_lookup_In. congruence.
      * apply obj_get_set_same.
    + destruct (obj_lookup k rest0); [reflexivity|].
      now apply obj_get_set_other.
Qed.

Lemma obj_lookup_without_other (k : string) (ks : list string) (o : object) :
  existsb (String.eqb k) ks = false ->
  obj_lookup k (obj_without ks o) = obj_lookup k o.
Proof.
  intros Hk. unfold obj_without. induction o as [ | [k0 v0] o IH]; cbn; [reflexivity|].
  destruct (String.eqb_spec k k0) as [<- | Hne].
  - rewrite Hk. cbn. now rewrite String.eqb_refl.
  - destruct (negb _); cbn; [|exact IH].
    destruct (String.eqb_spec k k0); [contradiction | exact IH].
Qed.

Lemma obj_lookup_without_named (k : string) (ks : list string) (o : object) :
  existsb (String.eqb k) ks = true ->
  obj_lookup k (obj_without ks o) = None.
Proof.
  intros Hk. unfold obj_without. induction o as [ | [k0 v0] o IH]; cbn; [reflexivity|].
  destruct (existsb (String.eqb k0) ks) eqn:H0; cbn; [exact IH|].
  destruct (String.eqb_spec k k0) as [-> | Hne]; [congruence | exact IH].
Qed.

Lemma NoDup_obj_without (ks : list string) (o : object) :
  NoDup (map fst o) -> NoDup (map fst (obj_without ks o)).
Proof.
  unfold obj_without. induction o as [ | [k0 v0] o IH]; cbn; intros H.
  - constructor.
  - inversion H as [ | ? ? Hnot Hnd]; subst.
    destruct (negb _); cbn; [|now apply IH].
    constructor; [|now apply IH].
    intros Hin. apply Hnot. apply in_map_iff in Hin as ([k1 v1] & <- & Hin).
    apply filter_In in Hin as [Hin _]. apply in_map_iff. now exists (k1, v1).
Qed.

(** A stored document shows its own fields: every attribute but [vector]
    reads as in the document. *)
Lemma entry_get_stored (E : engine) (o : object) (attr : string) :
  NoDup (map fst o) -> attr <> "vector" ->
  entry_get (stored E (VObject o)) attr = obj_get o attr.
Proof.
  intros Hnd Hv. unfold entry_get, stored. cbn [id vector norm rest properties].
  rewrite obj_get_spread by now apply NoDup_obj_without.
  destruct (existsb (String.eqb attr) ["id"; "vector"; "norm"]) eqn:Hk.
  - rewrite obj_lookup_without_named by exact Hk.
    cbn in Hk. unfold obj_get at 1. cbn [obj_lookup].
    destruct (String.eqb_spec attr "id") as [-> | _]; [reflexivity|].
    destruct (String.eqb_spec attr "vector") as [-> | _]; [contradiction|].
    destruct (String.eqb_spec attr "norm") as [-> | _]; [reflexivity | discriminate].
  - rewrite obj_lookup_without_other by exact Hk.
    change (obj_get o attr)
      with (match obj_lookup attr o with Some v => v | None => VUndefined end).
    destruct (obj_lookup attr o); [reflexivity|].
    cbn in Hk. unfold obj_get. cbn [obj_lookup].
    destruct (attr =? "id")%string; [discriminate|].
    destruct (attr =? "vector")%string; [discriminate|].
    destruct (attr =? "norm")%string; [discriminate | reflexivity].
Qed.

(** The object [search] makes of a stored document. *)
Lemma scored_stored (E : engine) (q : list number) (qNorm : number)
  (o : object) (k : string) :
  NoDup (map fst o) ->
  obj_get (scored E q qNorm (stored E (VObject o))) k
  = if (k =? "vector")%string || (k =? "norm")%string then VUndefined
    else if (k =? "score")%string
         then match obj_lookup "score" o with
              | Some v => v
              | None => VNumber (cosine E q qNorm (stored E (VObject o)))
              end
         else obj_get o k.
Proof.
  intros Hnd. unfold scored. cbn [id rest stored properties].
  rewrite obj_get_spread by now apply NoDup_obj_without.
  destruct (existsb (String.eqb k) ["id"; "vector"; "norm"]) eqn:Hk.
  - rewrite obj_lookup_without_named by exact Hk.
    cbn in Hk. unfold obj_get at 1. cbn [obj_lookup].
    destruct (String.eqb_spec k "id") as [-> | _]; [reflexivity|].
    destruct (String.eqb_spec k "vector") as [-> | _]; [reflexivity|].
    destruct (String.eqb_spec k "norm") as [-> | _]; [reflexivity | discriminate].
  - rewrite obj_lookup_without_other by exact Hk.
    cbn in Hk.
    destruct (String.eqb_spec k "id") as [-> | Hid]; [discriminate|].
    destruct (String.eqb_spec k "vector") as [-> | _]; [discriminate|].
    destruct (String.eqb_spec k "norm") as [-> | _]; [discriminate|].
    cbn [orb].
    change (obj_get o k)
      with (match obj_lookup k o with Some v => v | None => VUndefined end).
    destruct (String.eqb_spec k "score") as [-> | Hs].
    + destruct (obj_lookup "score" o); reflexivity.
    + destruct (obj_lookup k o); [reflexivity|].
      unfold obj_get. cbn [obj_lookup].
      destruct (String.eqb_spec k "id"); [contradiction|].
      destruct (String.eqb_spec k "score"); [contradiction | reflexivity].
Qed.

(** After a bulk load of well-formed documents, every object [search]
    returns stands for one of the documents: it has that document's [id] and
    every other field of it ([header], [text_block], ...), it has neither
    [vector] nor [norm], and its [score] is the document's own [score] field
    if it has one, else the cosine computed with the document's [norm]. *)
Theorem search_after_loadDocs_returns_document_fields (E : engine)
  (q : list value) (k : Z) (ds : list value) :
  Forall has_vector ds ->
  Forall distinct_keys ds ->
  exists rs,
    search E (VArray q) k (snd (loadDocs E (VArray ds) [])) = Normal rs
    /\ Forall
         (fun r =>
            exists d,
              In d ds
              /\ (forall key, key <> "score" -> key <> "vector" -> key <> "norm" ->
                    obj_get r key = obj_get (properties d) key)
              /\ obj_get r "vector" = VUndefined
              /\ obj_get r "norm" = VUndefined
              /\ obj_get r "score"
                 = match obj_lookup "score" (properties d) with
                   | Some v => v
                   | None =>
                       VNumber (cosine E (to_float32 E q)
                                  (Math_hypot E (to_float32 E q)) (stored E d))
                   end) rs.
Proof.
  intros Hv Hnd. eexists. split; [apply search_array|].
  apply Forall_forall. intros r Hr.
  apply search_result_origin in Hr as (e & He & ->).
  cbn [loadDocs] in He. rewrite loadDocs_forEach_all in He by exact Hv.
  cbn [snd app] in He. apply in_map_iff in He as (d & <- & Hd).
  rewrite Forall_forall in Hv, Hnd.
  destruct (Hv d Hd) as (o & xs & -> & _). specialize (Hnd (VObject o) Hd).
  unfold distinct_keys in Hnd. cbn [properties] in *.
  exists (VObject o). split; [exact Hd|]. cbn [properties].
  repeat split; try (rewrite scored_stored by exact Hnd; reflexivity).
  intros key Hs Hvec Hn. rewrite scored_stored by exact Hnd.
  destruct (String.eqb_spec key "vector"); [contradiction|].
  destruct (String.eqb_spec key "norm"); [contradiction|].
  destruct (String.eqb_spec key "score"); [contradiction | reflexivity].
Qed.

Lemma search_after_loadDocs_returns_document_fields_witness :
  exists rs,
    search reference_engine (VArray query_1_0) 10
      (snd (loadDocs reference_engine (VArray readme_documents) [])) = Normal rs
    /\ Forall
         (fun r =>
            exists d,
              In d readme_documents
              /\ (forall key, key <> "score" -> key <> "vector" -> key <> "norm" ->
                    obj_get r key = obj_get (properties d) key)
              /\ obj_get r "vector" = VUndefined
              /\ obj_get r "norm" = VUndefined
              /\ obj_get r "score"
                 = match obj_lookup "score" (properties d) with
                   | Some v => v
                   | None =>
                       VNumber (cosine reference_engine
                                  (to_float32 reference_engine query_1_0)
                                  (Math_hypot reference_engine
                                     (to_float32 reference_engine query_1_0))
                                  (stored reference_engine d))
                   end) rs.
Proof.
  apply (search_after_loadDocs_returns_document_fields
           reference_engine query_1_0 10 readme_documents).
  - repeat constructor. eexists _, _. split; reflexivity.
  - repeat constructor; cbn; intuition discriminate.
Defined.

(** ** textSearch after a bulk load and after the indexing loop *)

Lemma find_app_first {A : Type} (f : A -> bool) (before : list A) (x : A)
  (after : list A) :
  Forall (fun y => f y = false) before -> f x = true ->
  find f (before ++ x :: after) = Some x.
Proof.
  intros Hb Hx. induction Hb as [ | y before Hy _ IH]; cbn.
  - now rewrite Hx.
  - now rewrite Hy.
Qed.

Lemma attr_matches_header (text : string) (v : value) (d : value) :
  header_of d = v ->
  attr_matches (toLowerCase (trim text)) v = true <-> header_equals text d.
Proof.
  intros <-. unfold header_equals, attr_matches. split.
  - destruct (header_of d) as [ | | | | s | | ]; try discriminate.
    intros H. apply String.eqb_eq in H. exists s. split; [reflexivity|].
    now apply equal_ignoring_case_and_blanks_iff.
  - intros (s & -> & H). apply String.eqb_eq.
    now apply equal_ignoring_case_and_blanks_iff.
Qed.

Lemma attr_matches_not_header (text : string) (v : value) (d : value) :
  header_of d = v -> ~ header_equals text d ->
  attr_matches (toLowerCase (trim text)) v = false.
Proof.
  intros Hv Hn. destruct (attr_matches _ v) eqn:H; [|reflexivity].
  exfalso. apply Hn. now apply (attr_matches_header text v d Hv).
Qed.

(** After a bulk load of well-formed documents, [textSearch] by [header]
    returns the entry stored for the first document whose header is a
    string equal to the text up to letter case and surrounding whitespace. *)
Theorem textSearch_header_after_loadDocs (E : engine) (text : string)
  (pre : list value) (d : value) (post : list value) :
  Forall has_vector (pre ++ d :: post) ->
  Forall distinct_keys (pre ++ d :: post) ->
  header_equals text d ->
  Forall (fun p => ~ header_equals text p) pre ->
  textSearch (VString text) "header"
    (snd (loadDocs E (VArray (pre ++ d :: post)) []))
  = Some (stored E d).
Proof.
  intros Hv Hnd Hd Hpre. cbn [loadDocs textSearch].
  rewrite loadDocs_forEach_all by exact Hv. cbn [snd app].
  rewrite map_app. cbn [map].
  assert (Hget : forall p, has_vector p -> distinct_keys p ->
            entry_get (stored E p) "header" = header_of p).
  { intros p (o & xs & -> & _) Hp. apply entry_get_stored; [exact Hp | discriminate]. }
  apply Forall_app in Hv as [Hv1 Hv2]. apply Forall_app in Hnd as [Hnd1 Hnd2].
  inversion Hv2 as [ | ? ? Hvd _]; subst. inversion Hnd2 as [ | ? ? Hndd _]; subst.
  apply find_app_first.
  - apply Forall_map. rewrite Forall_forall in *. intros p Hp.
    apply (attr_matches_not_header text _ p); [|now apply Hpre].
    symmetry. apply Hget; auto.
  - apply (attr_matches_header text _ d); [|exact Hd].
    symmetry. now apply Hget.
Qed.

Lemma textSearch_header_after_loadDocs_witness :
  textSearch (VString " INTRO ") "header"
    (snd (loadDocs reference_engine (VArray ([] ++ hd VNull readme_documents :: [])) []))
  = Some (stored reference_engine (hd VNull readme_documents)).
Proof.
  apply (textSearch_header_after_loadDocs reference_engine " INTRO " []
           (hd VNull readme_documents) []).
  - repeat constructor. eexists _, _. split; reflexivity.
  - repeat constructor; cbn; intuition discriminate.
  - exists "Intro". split; [reflexivity|].
    apply equal_ignoring_case_and_blanks_iff. reflexivity.
  - constructor.
Defined.

Lemma added_chunk_origin (E : engine) (chunk vs : list value) :
  Forall (fun e => exists p, In p chunk /\ id e = header_of p /\ rest e = [])
    (added_chunk E chunk vs).
Proof.
  revert vs. induction chunk as [ | d chunk IH]; intros [ | v vs]; cbn [added_chunk];
    try constructor.
  - exists d. cbn. auto.
  - eapply Forall_impl; [|apply IH]. cbn. intros e (p & Hp & H). exists p. auto.
Qed.

Lemma entry_get_id_bare (e : entry) : rest e = [] -> entry_get e "id" = id e.
Proof. intros H. unfold entry_get. rewrite H. reflexivity. Qed.

(** After the indexing loop, the documents are found by [textSearch] with
    the attribute [id]: for the first document whose header equals the text
    up to letter case and surrounding whitespace it returns the entry made
    for that document, the one at the document's position. *)
Theorem textSearch_id_after_indexing_loop (E : engine)
  (embedBatch : list value -> list value) (batch fuel : nat) (text : string)
  (pre : list value) (d : value) (post : list value) :
  (1 <= batch)%nat ->
  (List.length (pre ++ d :: post) <= fuel)%nat ->
  one_vector_per_text embedBatch ->
  Forall (fun d => is_nullish d = false) (pre ++ d :: post) ->
  header_equals text d ->
  Forall (fun p => ~ header_equals text p) pre ->
  exists st e,
    indexing_loop E embedBatch fuel batch (pre ++ d :: post) 0 start
    = Some (Normal tt, st)
    /\ textSearch (VString text) "id" (run_docs st) = Some e
    /\ nth_error (run_docs st) (List.length pre) = Some e
    /\ id e = header_of d.
Proof.
  intros Hb Hfuel Hemb Hdocs Hd Hpre.
  destruct (loop_entries_by_position E embedBatch batch (pre ++ d :: post) Hb Hemb)
    as [Hlen Heq].
  set (vs := loop_vectors embedBatch batch (pre ++ d :: post)) in *.
  rewrite length_app in Hlen. cbn [List.length] in Hlen.
  assert (Hsplit : vs = firstn (List.length pre) vs ++ skipn (List.length pre) vs)
    by (symmetry; apply firstn_skipn).
  assert (Hl1 : List.length (firstn (List.length pre) vs) = List.length pre)
    by (rewrite length_firstn; lia).
  destruct (skipn (List.length pre) vs) as [ | v vs2] eqn:Hskip.
  { apply (f_equal (@List.length value)) in Hskip.
    rewrite length_skipn in Hskip. cbn in Hskip. lia. }
  rewrite Hsplit, added_chunk_app in Heq by (symmetry; exact Hl1).
  cbn [added_chunk] in Heq.
  exists {| run_docs := loop_entries E embedBatch batch (pre ++ d :: post);
            run_calls := map (map text_block_of) (batches batch (pre ++ d :: post)) |}.
  exists (added E (header_of d) (elements v)).
  split; [|split; [|split]].
  - rewrite (indexing_loop_runs E embedBatch batch _ Hb Hemb Hdocs) by lia.
    reflexivity.
  - cbn [run_docs textSearch]. rewrite Heq. apply find_app_first.
    + pose proof (added_chunk_origin E pre (firstn (List.length pre) vs)) as Ho.
      rewrite Forall_forall in *. intros e He.
      destruct (Ho e He) as (p & Hp & Hid & Hrest).
      rewrite (entry_get_id_bare e Hrest).
      apply (attr_matches_not_header text _ p); [now symmetry | now apply Hpre].
    + rewrite entry_get_id_bare by reflexivity. cbn [id added].
      now apply (attr_matches_header text _ d).
  - cbn [run_docs]. rewrite Heq.
    rewrite nth_error_app2 by (rewrite added_chunk_length; [lia | now symmetry]).
    rewrite added_chunk_length by (now symmetry).
    now rewrite Nat.sub_diag.
  - reflexivity.
Qed.

Lemma textSearch_id_after_indexing_loop_witness :
  exists st e,
    indexing_loop reference_engine embed_ones 3 2
      ([hd VNull three_docs] ++ nth 1 three_docs VNull :: [nth 2 three_docs VNull])
      0 start
    = Some (Normal tt, st)
    /\ textSearch (VString "finance") "id" (run_docs st) = Some e
    /\ nth_error (run_docs st) (List.length [hd VNull three_docs]) = Some e
    /\ id e = header_of (nth 1 three_docs VNull).
Proof.
  apply (textSearch_id_after_indexing_loop reference_engine embed_ones 2 3 "finance"
           [hd VNull three_docs] (nth 1 three_docs VNull) [nth 2 three_docs VNull]).
  - lia.
  - cbn. lia.
  - exact embed_ones_contract.
  - repeat constructor.
  - exists "Finance". split; [reflexivity|].
    apply equal_ignoring_case_and_blanks_iff. reflexivity.
  - constructor; [|constructor].
    intros (s & Hs & H). injection Hs as <-.
    apply equal_ignoring_case_and_blanks_iff in H. discriminate H.
Defined.

(* ================================================================= *)
(** * The indexing loop: its calls and its failures *)

Lemma batches_length {A : Type} (batch : nat) (l : list A) :
  (1 <= batch)%nat ->
  List.length (batches batch l) = ((List.length l + batch - 1) / batch)%nat.
Proof.
  intros Hb. remember (List.length l) as n eqn:Hn. revert l Hn.
  induction n as [n IH] using lt_wf_ind. intros l Hn.
  destruct l as [ | x l].
  - cbn in Hn. subst n. cbn [batches batches_fuel List.length].
    symmetry. apply Nat.div_small. lia.
  - rewrite batches_cons by (auto; congruence). cbn [List.length] in *.
    assert (Hs : List.length (skipn batch (x :: l)) = (n - batch)%nat)
      by (rewrite length_skipn; cbn [List.length]; lia).
    rewrite (IH (n - batch)%nat) by (try lia; now symmetry).
    destruct (Nat.le_gt_cases n batch) as [Hle | Hgt].
    + replace (n - batch + batch - 1)%nat with (batch - 1)%nat by lia.
      rewrite Nat.div_small by lia.
      apply (Nat.div_unique _ _ 1 (n - 1))%nat; lia.
    + replace (n + batch - 1)%nat with ((n - batch + batch - 1) + 1 * batch)%nat by lia.
      rewrite Nat.div_add by lia. lia.
Qed.

Lemma batches_sizes {A : Type} (batch : nat) (l : list A) :
  (1 <= batch)%nat ->
  Forall (fun c => (1 <= List.length c <= batch)%nat) (batches batch l).
Proof.
  intros Hb. remember (List.length l) as n eqn:Hn. revert l Hn.
  induction n as [n IH] using lt_wf_ind. intros l Hn.
  destruct l as [ | x l]; [constructor|].
  rewrite batches_cons by (auto; congruence). constructor.
  - rewrite length_firstn. cbn [List.length]. lia.
  - apply (IH (List.length (skipn batch (x :: l)))); [|reflexivity].
    subst n. rewrite length_skipn. cbn [List.length]. lia.
Qed.

(** Under the conditions of C3 the loop calls [embedBatch] [ceil(N / B)]
    times, never with an empty batch and never with more than [B] texts, and
    the texts of all the calls together are the documents' [text_block]
    values, each once, in document order. *)
Theorem indexing_loop_number_of_calls (E : engine)
  (embedBatch : list value -> list value) (batch fuel : nat) (docs : list value) :
  (1 <= batch)%nat ->
  (List.length docs <= fuel)%nat ->
  one_vector_per_text embedBatch ->
  Forall (fun d => is_nullish d = false) docs ->
  exists st,
    indexing_loop E embedBatch fuel batch docs 0 start = Some (Normal tt, st)
    /\ List.length (run_calls st) = ((List.length docs + batch - 1) / batch)%nat
    /\ Forall (fun texts => (1 <= List.length texts <= batch)%nat) (run_calls st)
    /\ List.concat (run_calls st) = map text_block_of docs.
Proof.
  intros Hb Hfuel Hemb Hdocs. eexists. split.
  - apply indexing_loop_runs; auto. lia.
  - cbn [run_calls start app skipn]. split; [|split].
    + rewrite length_map. now apply batches_length.
    + apply Forall_map. eapply Forall_impl; [|apply (batches_sizes batch docs Hb)].
      cbn. intros c Hc. now rewrite length_map.
    + rewrite <- concat_map. now rewrite concat_batches.
Qed.

Lemma indexing_loop_number_of_calls_witness :
  exists st,
    indexing_loop reference_engine embed_ones 3 2 three_docs 0 start
    = Some (Normal tt, st)
    /\ List.length (run_calls st) = ((List.length three_docs + 2 - 1) / 2)%nat
    /\ Forall (fun texts => (1 <= List.length texts <= 2)%nat) (run_calls st)
    /\ List.concat (run_calls st) = map text_block_of three_docs.
Proof.
  apply (indexing_loop_number_of_calls reference_engine embed_ones 2 3 three_docs).
  - lia.
  - cbn. lia.
  - exact embed_ones_contract.
  - repeat constructor.
Defined.

Lemma add_chunk_short (E : engine) (todo : list value) (j : nat)
  (embeddings : list value) (docs : index) :
  Forall (fun d => is_nullish d = false) todo ->
  Forall (fun v => exists xs, v = VArray xs) embeddings ->
  (j <= List.length embeddings < j + List.length todo)%nat ->
  add_chunk E todo j embeddings docs
  = (Throw TypeError, docs ++ added_chunk E todo (skipn j embeddings)).
Proof.
  intros Htodo Hemb. revert j docs.
  induction Htodo as [ | d todo Hd _ IH]; intros j docs Hlen; cbn [add_chunk].
  - cbn [List.length] in Hlen. lia.
  - cbn [List.length] in Hlen.
    rewrite (Get_not_nullish d _ Hd). fold (header_of d).
    destruct (Nat.eq_dec j (List.length embeddings)) as [-> | Hne].
    + unfold array_get. rewrite nth_overflow by lia.
      rewrite skipn_all. cbn. now rewrite app_nil_r.
    + rewrite (skipn_nth_cons j embeddings VUndefined) by lia.
      unfold array_get.
      assert (Hv : exists xs, nth j embeddings VUndefined = VArray xs).
      { rewrite Forall_forall in Hemb. apply Hemb, nth_In. lia. }
      destruct Hv as (xs & Hv). rewrite Hv, add_array.
      rewrite IH by lia. cbn [added_chunk elements].
      rewrite <- app_assoc. reflexivity.
Qed.

(** When the embedder answers a batch with fewer vectors than texts, the
    loop adds the entries for the vectors it got, throws a [TypeError] at
    the first document left without one ([Float32Array.from(undefined)]),
    and embeds no later batch. *)
Theorem indexing_loop_stops_at_missing_embedding (E : engine)
  (embedBatch : list value -> list value) (batch fuel : nat) (docs : list value)
  (i : nat) (st : run) :
  (i < List.length docs)%nat ->
  Forall (fun d => is_nullish d = false) (firstn batch (skipn i docs)) ->
  Forall (fun v => exists xs, v = VArray xs)
    (embedBatch (map text_block_of (firstn batch (skipn i docs)))) ->
  (List.length (embedBatch (map text_block_of (firstn batch (skipn i docs))))
   < List.length (firstn batch (skipn i docs)))%nat ->
  indexing_loop E embedBatch (S fuel) batch docs i st
  = Some (Throw TypeError,
          {| run_docs :=
               run_docs st
               ++ added_chunk E (firstn batch (skipn i docs))
                    (embedBatch (map text_block_of (firstn batch (skipn i docs))));
             run_calls :=
               run_calls st ++ [map text_block_of (firstn batch (skipn i docs))] |}).
Proof.
  intros Hi Hchunk Harr Hshort. cbn [indexing_loop].
  rewrite (proj2 (Nat.ltb_lt _ _) Hi).
  unfold index_chunk. rewrite (chunk_texts_all _ Hchunk).
  rewrite add_chunk_short; [reflexivity | exact Hchunk | exact Harr | lia].
Qed.

Lemma indexing_loop_stops_at_missing_embedding_witness :
  indexing_loop reference_engine embed_drop_last 1 2 three_docs 0 start
  = Some (Throw TypeError,
          {| run_docs :=
               run_docs start
               ++ added_chunk reference_engine (firstn 2 (skipn 0 three_docs))
                    (embed_drop_last (map text_block_of (firstn 2 (skipn 0 three_docs))));
             run_calls :=
               run_calls start ++ [map text_block_of (firstn 2 (skipn 0 three_docs))] |}).
Proof.
  apply (indexing_loop_stops_at_missing_embedding reference_engine embed_drop_last
           2 0 three_docs 0 start).
  - cbn. lia.
  - repeat constructor.
  - repeat constructor. now exists [VNumber 1%float].
  - cbn. lia.
Defined.

Lemma chunk_texts_null (chunk : list value) :
  Exists (fun d => is_nullish d = true) chunk ->
  chunk_texts chunk = Throw TypeError.
Proof.
  induction 1 as [d chunk Hd | d chunk _ IH]; cbn [chunk_texts].
  - destruct d; try discriminate; reflexivity.
  - rewrite IH. destruct d; reflexivity.
Qed.

(** A [null] among the documents of a batch makes the loop throw a
    [TypeError] when it reads the batch's texts: nothing of that batch is
    embedded or indexed, and what earlier batches added stays. *)
Theorem indexing_loop_stops_at_null_document (E : engine)
  (embedBatch : list value -> list value) (batch fuel : nat) (docs : list value)
  (i : nat) (st : run) :
  (i < List.length docs)%nat ->
  Exists (fun d => is_nullish d = true) (firstn batch (skipn i docs)) ->
  indexing_loop E embedBatch (S fuel) batch docs i st = Some (Throw TypeError, st).
Proof.
  intros Hi Hnull. cbn [indexing_loop].
  rewrite (proj2 (Nat.ltb_lt _ _) Hi).
  unfold index_chunk. now rewrite (chunk_texts_null _ Hnull).
Qed.

Lemma indexing_loop_stops_at_null_document_witness :
  indexing_loop reference_engine embed_ones 1 2 (three_docs ++ [VNull]) 2
    {| run_docs := added_chunk reference_engine (firstn 2 three_docs)
                     (embed_ones (firstn 2 three_docs));
       run_calls := [map text_block_of (firstn 2 three_docs)] |}
  = Some (Throw TypeError,
          {| run_docs := added_chunk reference_engine (firstn 2 three_docs)
                           (embed_ones (firstn 2 three_docs));
             run_calls := [map text_block_of (firstn 2 three_docs)] |}).
Proof.
  apply (indexing_loop_stops_at_null_document reference_engine embed_ones 2 0
           (three_docs ++ [VNull]) 2).
  - cbn. lia.
  - cbn. apply Exists_cons_tl, Exists_cons_hd. reflexivity.
Defined.

(** The main function looks for a vector on the first document only.  When
    that document has one and a later document has none (or is no object),
    [loadDocs] throws a [TypeError] at that document: the documents before
    it are stored, the embedder is never called. *)
Theorem build_index_stops_at_document_without_vector (E : engine)
  (embedBatch : list value -> list value) (fuel : nat) (d : value)
  (pre : list value) (bad : value) (post : list value) :
  has_vector d ->
  Forall has_vector pre ->
  lacks_vector bad ->
  build_index E embedBatch fuel (d :: pre ++ bad :: post)
  = Some (Throw TypeError,
          {| run_docs := map (stored E) (d :: pre); run_calls := [] |}).
Proof.
  intros Hd Hpre Hbad. unfold build_index. cbn [array_get nth].
  destruct Hd as (o & xs & -> & Hv).
  cbn [Get]. rewrite Hv. cbn [truthy loadDocs].
  change (VObject o :: pre ++ bad :: post) with ((VObject o :: pre) ++ bad :: post).
  rewrite (loadDocs_forEach_stops E (VObject o :: pre) bad post []).
  - reflexivity.
  - constructor; [now exists o, xs | exact Hpre].
  - exact Hbad.
Qed.

Lemma build_index_stops_at_document_without_vector_witness :
  build_index reference_engine embed_ones 0
    (hd VNull readme_example_input :: [] ++ nth 1 readme_example_input VNull :: [])
  = Some (Throw TypeError,
          {| run_docs := map (stored reference_engine) (hd VNull readme_example_input :: []);
             run_calls := [] |}).
Proof.
  apply (build_index_stops_at_document_without_vector reference_engine embed_ones 0
           (hd VNull readme_example_input) [] (nth 1 readme_example_input VNull) []).
  - eexists _, _. split; reflexivity.
  - constructor.
  - reflexivity.
Defined.

(* ================================================================= *)
(** * The command line *)

Lemma find_Some_iff {A : Type} (f : A -> bool) (l : list A) (x : A) :
  find f l = Some x
  <-> exists before after,
        l = before ++ x :: after
        /\ Forall (fun y => f y = false) before /\ f x = true.
Proof.
  split.
  - intros H. pose proof (find_first f l) as Hf. rewrite H in Hf.
    destruct Hf as (before & after & -> & Hx & Hb). now exists before, after.
  - intros (before & after & -> & Hb & Hx). now apply find_app_first.
Qed.

Lemma find_None_iff {A : Type} (f : A -> bool) (l : list A) :
  find f l = None <-> Forall (fun y => f y = false) l.
Proof.
  split.
  - intros H. pose proof (find_first f l) as Hf. now rewrite H in Hf.
  - induction 1 as [ | y l Hy _ IH]; cbn; [reflexivity | now rewrite Hy].
Qed.

Lemma find_flag (name : string) (args : list string) :
  find (fun arg => String.eqb arg name) args
  = if in_dec string_dec name args then Some name else None.
Proof.
  destruct (in_dec string_dec name args) as [Hin | Hout].
  - induction args as [ | a args IH]; [contradiction|]. cbn.
    destruct (String.eqb_spec a name) as [-> | Hne]; [reflexivity|].
    apply IH. destruct Hin; [contradiction | assumption].
  - apply find_None_iff, Forall_forall. intros a Ha.
    destruct (String.eqb_spec a name); [subst; contradiction | reflexivity].
Qed.

Lemma first_occurrence (name : string) (args : list string) :
  In name args ->
  exists before after, args = before ++ name :: after /\ ~ In name before.
Proof.
  induction args as [ | a args IH]; [contradiction|]. intros Hin.
  destruct (string_dec a name) as [-> | Hne].
  - exists [], args. split; [reflexivity | auto].
  - destruct Hin as [-> | Hin]; [contradiction|].
    destruct (IH Hin) as (before & after & -> & Hb).
    exists (a :: before), after. split; [reflexivity|].
    intros [H | H]; auto.
Qed.

Lemma indexOf_from_absent (args : list string) (name : string) (i : Z) :
  ~ In name args -> indexOf_from args name i = (-1)%Z.
Proof.
  revert i. induction args as [ | a args IH]; intros i H; cbn; [reflexivity|].
  destruct (String.eqb_spec a name) as [-> | Hne].
  - exfalso. apply H. now left.
  - apply IH. intros Hin. apply H. now right.
Qed.

Lemma indexOf_from_first (before after : list string) (name : string) (i : Z) :
  ~ In name before ->
  indexOf_from (before ++ name :: after) name i
  = (i + Z.of_nat (List.length before))%Z.
Proof.
  revert i. induction before as [ | a before IH]; intros i H; cbn [app indexOf_from].
  - rewrite String.eqb_refl. cbn. lia.
  - destruct (String.eqb_spec a name) as [-> | Hne].
    + exfalso. apply H. now left.
    + rewrite IH by (intros Hin; apply H; now right).
      cbn [List.length]. lia.
Qed.

Lemma getFlag_absent (args : list string) (name : string) :
  ~ In name args -> getFlag args name = Returns None.
Proof.
  intros H. unfold getFlag, Array_indexOf. now rewrite indexOf_from_absent.
Qed.

Lemma getFlag_last (before : list string) (name : string) :
  ~ In name before ->
  getFlag (before ++ [name]) name
  = Throws ("Flag " ++ name ++ " needs a value")%string.
Proof.
  intros H. unfold getFlag, Array_indexOf. rewrite indexOf_from_first by exact H.
  destruct (Z.eqb_spec (0 + Z.of_nat (List.length before)) (-1)); [lia|].
  rewrite length_app. cbn [List.length].
  destruct (Z.leb_spec (Z.of_nat (List.length before + 1))
              (0 + Z.of_nat (List.length before) + 1)); [reflexivity | lia].
Qed.

Lemma getFlag_value (before : list string) (name v : string) (after : list string) :
  ~ In name before ->
  getFlag (before ++ name :: v :: after) name = Returns (Some v).
Proof.
  intros H. unfold getFlag, Array_indexOf. rewrite indexOf_from_first by exact H.
  destruct (Z.eqb_spec (0 + Z.of_nat (List.length before)) (-1)); [lia|].
  rewrite length_app. cbn [List.length].
  destruct (Z.leb_spec (Z.of_nat (List.length before + S (S (List.length after))))
              (0 + Z.of_nat (List.length before) + 1)); [lia|].
  f_equal.
  replace (Z.to_nat (0 + Z.of_nat (List.length before) + 1))
    with (List.length before + 1)%nat by lia.
  rewrite nth_error_app2 by lia.
  replace (List.length before + 1 - List.length before)%nat with 1%nat by lia.
  reflexivity.
Qed.

(** Where the first [name] stands in [args], if anywhere. *)
Lemma flag_cases (args : list string) (name : string) :
  ~ In name args
  \/ (exists before, args = before ++ [name] /\ ~ In name before)
  \/ (exists before v after,
        args = before ++ name :: v :: after /\ ~ In name before).
Proof.
  destruct (in_dec string_dec name args) as [Hin | Hout]; [|now left].
  right. destruct (first_occurrence name args Hin) as (before & after & -> & Hb).
  destruct after as [ | v after].
  - left. now exists before.
  - right. now exists before, v, after.
Qed.

(** [readCmdArgs] returns exactly when the first argument that does not
    start with [--] is not empty and the first [--query] is followed by a
    non-empty argument.  It then returns that first argument as [dataFile],
    the argument after the first [--query] as [queryText], and [--verbose]
    as [verbose] when it occurs anywhere among the arguments. *)
Theorem readCmdArgs_returns (argv : list string) (r : cmd_args) :
  readCmdArgs argv = Returns r
  <-> first_plain_argument (skipn 2 argv) (dataFile r)
      /\ dataFile r <> ""
      /\ query_argument (skipn 2 argv) (queryText r)
      /\ queryText r <> ""
      /\ verbose r
         = if in_dec string_dec "--verbose" (skipn 2 argv)
           then Some "--verbose" else None.
Proof.
  unfold first_plain_argument, query_argument, readCmdArgs. set (args := skipn 2 argv). rewrite find_flag.
  assert (Hneg : forall l : list string,
            Forall (fun y => negb (startsWith y "--") = false) l
            <-> Forall (fun a => startsWith a "--" = true) l).
  { intros l. split; apply Forall_impl; intros a; destruct (startsWith a "--");
      cbn; congruence. }
  split.
  - intros H.
    destruct (Nat.ltb_spec (List.length args) 1) as [ | Hlen]; [discriminate|].
    destruct (flag_cases args "--query")
      as [Hq | [(before & Hargs & Hq) | (before & v & after & Hargs & Hq)]].
    + rewrite getFlag_absent in H by exact Hq.
      destruct (find _ args) as [[ | c f] | ]; discriminate.
    + assert (Hg : getFlag args "--query" = Throws "Flag --query needs a value")
        by (rewrite Hargs; now apply getFlag_last).
      rewrite Hg in H. discriminate.
    + assert (Hg : getFlag args "--query" = Returns (Some v))
        by (rewrite Hargs; now apply getFlag_value).
      rewrite Hg in H.
      destruct (find (fun arg => negb (startsWith arg "--")) args)
        as [[ | c f] | ] eqn:Hf; try discriminate.
      destruct v as [ | c' v]; try discriminate.
      injection H as <-. cbn [dataFile queryText verbose].
      apply find_Some_iff in Hf as (flags & after' & Hf & Hflags & Hx).
      repeat split; try discriminate.
      * exists flags, after'. split; [exact Hf|]. split; [now apply Hneg|].
        now destruct (startsWith (String c f) "--").
      * now exists before, after.
  - intros ((flags & after' & Hf & Hflags & Hx) & Hfile
            & (before & after & Hargs & Hq) & Htext & Hverb).
    assert (Hfind : find (fun arg => negb (startsWith arg "--")) args
                    = Some (dataFile r)).
    { apply find_Some_iff. exists flags, after'.
      split; [exact Hf|]. split; [now apply Hneg | now rewrite Hx]. }
    rewrite Hfind.
    destruct (Nat.ltb_spec (List.length args) 1) as [Hlen | _].
    { rewrite Hargs, length_app in Hlen. cbn [List.length] in Hlen. lia. }
    assert (Hg : getFlag args "--query" = Returns (Some (queryText r)))
      by (rewrite Hargs; now apply getFlag_value).
    rewrite Hg.
    destruct r as [file text verb]. cbn [dataFile queryText verbose] in *.
    destruct file; [contradiction|]. destruct text; [contradiction|].
    now rewrite Hverb.
Qed.

(** When [--query] and its text stand before the path of the data file (and
    the text does not itself start with [--]), [readCmdArgs] returns the
    query text as the data file. *)
Theorem readCmdArgs_takes_query_text_for_data_file (node script : string)
  (flags : list string) (text : string) (after : list string) :
  Forall (fun a => startsWith a "--" = true) flags ->
  ~ In "--query" flags ->
  text <> "" ->
  startsWith text "--" = false ->
  exists v,
    readCmdArgs (node :: script :: flags ++ "--query" :: text :: after)
    = Returns {| dataFile := text; queryText := text; verbose := v |}.
Proof.
  intros Hflags Hq Htext Hstart. unfold readCmdArgs. cbn [skipn].
  destruct (Nat.ltb_spec (List.length (flags ++ "--query" :: text :: after)) 1)
    as [Hlen | _].
  { rewrite length_app in Hlen. cbn [List.length] in Hlen. lia. }
  rewrite getFlag_value by exact Hq.
  assert (Hfind : find (fun arg => negb (startsWith arg "--"))
                    (flags ++ "--query" :: text :: after) = Some text).
  { change (flags ++ "--query" :: text :: after)
      with (flags ++ ["--query"] ++ text :: after).
    rewrite app_assoc. apply find_app_first; [|now rewrite Hstart].
    apply Forall_app. split.
    - eapply Forall_impl; [|exact Hflags]. cbn. now intros a ->.
    - repeat constructor. }
  rewrite Hfind. destruct text; [contradiction|]. eexists. reflexivity.
Qed.

Lemma readCmdArgs_takes_query_text_for_data_file_witness :
  exists v,
    readCmdArgs ("node" :: "app.js" :: ["--verbose"] ++ "--query" :: "cats" :: ["data.json"])
    = Returns {| dataFile := "cats"; queryText := "cats"; verbose := v |}.
Proof.
  apply (readCmdArgs_takes_query_text_for_data_file "node" "app.js"
           ["--verbose"] "cats" ["data.json"]).
  - repeat constructor.
  - cbn. intuition discriminate.
  - discriminate.
  - reflexivity.
Defined.

(** [readCmdArgs] throws exactly when the first [--query] is the last
    argument, whether a data file is named or not; the error's message is
    [Flag --query needs a value]. *)
Theorem readCmdArgs_throws (argv : list string) (message : string) :
  readCmdArgs argv = Throws message
  <-> message = "Flag --query needs a value"
      /\ query_without_value (skipn 2 argv).
Proof.
  unfold query_without_value, readCmdArgs. set (args := skipn 2 argv). split.
  - intros H.
    destruct (Nat.ltb_spec (List.length args) 1) as [ | Hlen]; [discriminate|].
    destruct (flag_cases args "--query")
      as [Hq | [(before & Hargs & Hq) | (before & v & after & Hargs & Hq)]].
    + rewrite getFlag_absent in H by exact Hq.
      destruct (find _ args) as [[ | c f] | ]; discriminate.
    + assert (Hg : getFlag args "--query" = Throws "Flag --query needs a value")
        by (rewrite Hargs; now apply getFlag_last).
      rewrite Hg in H. injection H as <-. split; [reflexivity|]. now exists before.
    + assert (Hg : getFlag args "--query" = Returns (Some v))
        by (rewrite Hargs; now apply getFlag_value).
      rewrite Hg in H.
      destruct (find _ args) as [[ | c f] | ]; try discriminate;
        destruct v; discriminate.
  - intros (-> & before & Hargs & Hq).
    destruct (Nat.ltb_spec (List.length args) 1) as [Hlen | _].
    { rewrite Hargs, length_app in Hlen. cbn [List.length] in Hlen. lia. }
    assert (Hg : getFlag args "--query" = Throws "Flag --query needs a value")
      by (rewrite Hargs; now apply getFlag_last).
    now rewrite Hg.
Qed.

Lemma first_occurrence_unique (name : string) (b1 a1 b2 a2 : list string) :
  b1 ++ name :: a1 = b2 ++ name :: a2 ->
  ~ In name b1 -> ~ In name b2 -> b1 = b2 /\ a1 = a2.
Proof.
  revert b2. induction b1 as [ | x b1 IH]; intros [ | y b2] H H1 H2; cbn in *.
  - injection H as <-. auto.
  - injection H as <- _. tauto.
  - injection H as -> _. tauto.
  - injection H as <- H. destruct (IH b2 H) as [<- <-]; tauto.
Qed.

Lemma find_plain_argument (args : list string) (f : string) :
  find (fun arg => negb (startsWith arg "--")) args = Some f
  <-> first_plain_argument args f.
Proof.
  unfold first_plain_argument. rewrite find_Some_iff.
  split; intros (flags & after & -> & Hflags & Hf); exists flags, after;
    (split; [reflexivity|]); split.
  - eapply Forall_impl; [|exact Hflags]. cbn. intros a.
    now destruct (startsWith a "--").
  - now destruct (startsWith f "--").
  - eapply Forall_impl; [|exact Hflags]. cbn. now intros a ->.
  - now rewrite Hf.
Qed.

Lemma getFlag_query (args : list string) :
  (getFlag args "--query" = Returns None /\ ~ In "--query" args)
  \/ (getFlag args "--query" = Throws "Flag --query needs a value"
      /\ query_without_value args)
  \/ (exists q, getFlag args "--query" = Returns (Some q) /\ query_argument args q).
Proof.
  destruct (flag_cases args "--query")
    as [Hq | [(before & -> & Hq) | (before & v & after & -> & Hq)]].
  - left. split; [now apply getFlag_absent | exact Hq].
  - right. left. split; [now apply getFlag_last | now exists before].
  - right. right. exists v. split; [now apply getFlag_value | now exists before, after].
Qed.

Lemma query_argument_unique (args : list string) (q1 q2 : string) :
  query_argument args q1 -> query_argument args q2 -> q1 = q2.
Proof.
  intros (b1 & a1 & -> & H1) (b2 & a2 & H & H2).
  destruct (first_occurrence_unique _ _ _ _ _ H H1 H2) as [_ Ha]. congruence.
Qed.

Lemma query_argument_has_value (args : list string) (q : string) :
  query_argument args q -> ~ query_without_value args.
Proof.
  intros (b1 & a1 & -> & H1) (b2 & H & H2).
  destruct (first_occurrence_unique _ _ _ _ _ H H1 H2) as [_ Ha]. discriminate.
Qed.

(** [readCmdArgs] ends the process exactly in these cases, always with
    status 1: with the usage line when there is no argument; with
    [Error: Missing path to data file] when no argument is a plain one or
    the first plain one is empty; and, a data file being named, with
    [Error: Missing query text] when there is no [--query] or its value is
    empty.  (A [--query] that is the last argument throws instead.) *)
Theorem readCmdArgs_exits (argv : list string) (code : Z) (line : string) :
  readCmdArgs argv = Exits code line
  <-> code = 1%Z
      /\ ((skipn 2 argv = [] /\ line = usage)
          \/ (skipn 2 argv <> []
              /\ ~ query_without_value (skipn 2 argv)
              /\ (forall f, first_plain_argument (skipn 2 argv) f -> f = "")
              /\ line = "Error: Missing path to data file")
          \/ (~ query_without_value (skipn 2 argv)
              /\ (exists f, first_plain_argument (skipn 2 argv) f /\ f <> "")
              /\ (forall q, query_argument (skipn 2 argv) q -> q = "")
              /\ line = "Error: Missing query text")).
Proof.
  unfold readCmdArgs. generalize (skipn 2 argv) as args. intros args.
  pose proof (find_plain_argument args) as Hfind.
  destruct (Nat.ltb_spec (List.length args) 1) as [Hlen | Hlen].
  { destruct args as [ | a args']; [|cbn in Hlen; lia]. split.
    - intros H. injection H as <- <-. auto.
    - intros (-> & [(_ & ->) | [(Hne & _) | (_ & (f & (flags & after & H & _) & _) & _)]]).
      + reflexivity.
      + contradiction.
      + destruct flags; discriminate. }
  assert (Hne : args <> []).
  { intros H. rewrite H in Hlen. cbn in Hlen. lia. }
  destruct (getFlag_query args)
    as [(-> & Hq) | [(-> & Hq) | (q & -> & Hq)]].
  - (* no --query *)
    assert (Hnv : ~ query_without_value args).
    { intros (before & H & _). apply Hq. rewrite H. apply in_or_app. right. now left. }
    assert (Hnq : forall q, query_argument args q -> q = "").
    { intros q (before & after & H & _). exfalso. apply Hq. rewrite H.
      apply in_or_app. right. now left. }
    destruct (find _ args) as [[ | c f] | ] eqn:Hf.
    + split.
      * intros H. injection H as <- <-. split; [reflexivity|]. right. left.
        repeat split; try assumption.
        intros f Hf'. apply Hfind in Hf'. congruence.
      * intros (-> & [(H & _) | [(_ & _ & _ & ->) | (_ & (f & Hf' & Hfne) & _)]]).
        -- contradiction.
        -- reflexivity.
        -- apply Hfind in Hf'. congruence.
    + split.
      * intros H. injection H as <- <-. split; [reflexivity|]. right. right.
        repeat split; try assumption.
        exists (String c f). split; [now apply Hfind | discriminate].
      * intros (-> & [(H & _) | [(_ & _ & Hall & _) | (_ & _ & _ & ->)]]).
        -- contradiction.
        -- specialize (Hall (String c f) (proj1 (Hfind _) eq_refl)). discriminate.
        -- reflexivity.
    + split.
      * intros H. injection H as <- <-. split; [reflexivity|]. right. left.
        repeat split; try assumption.
        intros f Hf'. apply Hfind in Hf'. congruence.
      * intros (-> & [(H & _) | [(_ & _ & _ & ->) | (_ & (f & Hf' & Hfne) & _)]]).
        -- contradiction.
        -- reflexivity.
        -- apply Hfind in Hf'. congruence.
  - (* --query is last: a throw *)
    split; [discriminate|].
    intros (_ & [(H & _) | [(_ & Hn & _) | (Hn & _)]]); contradiction.
  - (* --query q *)
    assert (Hnv : ~ query_without_value args)
      by (now apply (query_argument_has_value args q)).
    destruct (find _ args) as [[ | c f] | ] eqn:Hf.
    + split.
      * intros H. injection H as <- <-. split; [reflexivity|]. right. left.
        repeat split; try assumption.
        intros f Hf'. apply Hfind in Hf'. congruence.
      * intros (-> & [(H & _) | [(_ & _ & _ & ->) | (_ & (f & Hf' & Hfne) & _)]]).
        -- contradiction.
        -- reflexivity.
        -- apply Hfind in Hf'. congruence.
    + destruct q as [ | c' q].
      * split.
        -- intros H. injection H as <- <-. split; [reflexivity|]. right. right.
           repeat split; try assumption.
           ++ exists (String c f). split; [now apply Hfind | discriminate].
           ++ intros q' Hq'. apply (query_argument_unique args _ _ Hq' Hq).
        -- intros (-> & [(H & _) | [(_ & _ & Hall & _) | (_ & _ & _ & ->)]]).
           ++ contradiction.
           ++ specialize (Hall (String c f) (proj1 (Hfind _) eq_refl)). discriminate.
           ++ reflexivity.
      * split; [discriminate|].
        intros (_ & [(H & _) | [(_ & _ & Hall & _) | (_ & _ & Hall & _)]]).
        -- contradiction.
        -- specialize (Hall (String c f) (proj1 (Hfind _) eq_refl)). discriminate.
        -- specialize (Hall (String c' q) Hq). discriminate.
    + split.
      * intros H. injection H as <- <-. split; [reflexivity|]. right. left.
        repeat split; try assumption.
        intros f Hf'. apply Hfind in Hf'. congruence.
      * intros (-> & [(H & _) | [(_ & _ & _ & ->) | (_ & (f & Hf' & Hfne) & _)]]).
        -- contradiction.
        -- reflexivity.
        -- apply Hfind in Hf'. congruence.
Qed.

(* ================================================================= *)
(** * The embedder *)

Lemma embedBatch_each_loaded (Pipeline : Type)
  (pipeline : string -> string -> settled Pipeline)
  (call : Pipeline -> list value -> object -> settled (list value))
  (extractor : Pipeline) (loads : list (string * string))
  (calls : list (list value * option string)) :
  embedBatch_each pipeline call calls
    {| _extractor := Some extractor; pipeline_calls := loads |}
  = (map (fun c => call extractor (fst c) extractor_options) calls,
     {| _extractor := Some extractor; pipeline_calls := loads |}).
Proof.
  induction calls as [ | [textList model] calls IH]; cbn [embedBatch_each map fst].
  - reflexivity.
  - unfold embedBatch at 1, getExtractor. cbn [_extractor]. now rewrite IH.
Qed.

Lemma embedBatch_each_not_loaded (Pipeline : Type)
  (pipeline : string -> string -> settled Pipeline)
  (call : Pipeline -> list value -> object -> settled (list value))
  (extractor : Pipeline)
  (failed : list (list value * option string * value))
  (textList : list value) (model : option string)
  (later : list (list value * option string)) (loads : list (string * string)) :
  Forall (fun c => pipeline "feature-extraction" (model_of (snd (fst c)))
                   = Rejected (snd c)) failed ->
  pipeline "feature-extraction" (model_of model) = Fulfilled extractor ->
  embedBatch_each pipeline call (map fst failed ++ (textList, model) :: later)
    {| _extractor := None; pipeline_calls := loads |}
  = (map (fun c => Rejected (snd c)) failed
     ++ map (fun c => call extractor (fst c) extractor_options)
          ((textList, model) :: later),
     {| _extractor := Some extractor;
        pipeline_calls :=
          loads
          ++ map (fun c => ("feature-extraction", model_of (snd c)))
               (map fst failed ++ [(textList, model)]) |}).
Proof.
  intros Hfailed Hload. revert loads.
  induction Hfailed as [ | [[t m] reason] failed Hc _ IH]; intros loads;
    cbn [map app fst snd embedBatch_each].
  - unfold embedBatch at 1, getExtractor. cbn [_extractor pipeline_calls].
    rewrite Hload. now rewrite embedBatch_each_loaded.
  - cbn [fst snd] in Hc.
    unfold embedBatch at 1, getExtractor. cbn [_extractor pipeline_calls].
    rewrite Hc. rewrite IH.
    now rewrite <- app_assoc.
Qed.

(** The extractor is loaded once.  Of calls of [embedBatch] awaited one
    after the other, those made before the extractor loads each call
    [pipeline] (task [feature-extraction], the model the call names or the
    default model) and are rejected with its reason, nothing being kept; the
    first call for which [pipeline] succeeds stores the extractor; every
    later call is answered by that extractor, whatever model it names, and
    [pipeline] is not called again. *)
Theorem embedBatch_loads_the_extractor_once (Pipeline : Type)
  (pipeline : string -> string -> settled Pipeline)
  (call : Pipeline -> list value -> object -> settled (list value))
  (extractor : Pipeline)
  (failed : list (list value * option string * value))
  (textList : list value) (model : option string)
  (later : list (list value * option string)) :
  Forall (fun c => pipeline "feature-extraction" (model_of (snd (fst c)))
                   = Rejected (snd c)) failed ->
  pipeline "feature-extraction" (model_of model) = Fulfilled extractor ->
  embedBatch_each pipeline call (map fst failed ++ (textList, model) :: later)
    no_extractor
  = (map (fun c => Rejected (snd c)) failed
     ++ map (fun c => call extractor (fst c) extractor_options)
          ((textList, model) :: later),
     {| _extractor := Some extractor;
        pipeline_calls :=
          map (fun c => ("feature-extraction", model_of (snd c)))
            (map fst failed ++ [(textList, model)]) |}).
Proof.
  intros Hfailed Hload.
  apply (embedBatch_each_not_loaded Pipeline pipeline call extractor
           failed textList model later [] Hfailed Hload).
Qed.

Lemma embedBatch_loads_the_extractor_once_witness :
  embedBatch_each
    (fun _ model => if String.eqb model "missing" then Rejected (VString "404")
                    else Fulfilled model)
    (fun extractor texts _ => Fulfilled (map (fun _ => VString extractor) texts))
    (map fst [([VString "a"], Some "missing", VString "404")]
     ++ ([VString "b"], None) :: [([VString "c"], Some "other-model")])
    no_extractor
  = (map (fun c => Rejected (snd c)) [([VString "a"], Some "missing", VString "404")]
     ++ map (fun c => Fulfilled (map (fun _ => VString default_model) (fst c)))
          (([VString "b"], None) :: [([VString "c"], Some "other-model")]),
     {| _extractor := Some default_model;
        pipeline_calls :=
          map (fun c => ("feature-extraction", model_of (snd c)))
            (map fst [([VString "a"], Some "missing", VString "404")]
             ++ [([VString "b"], None)]) |}).
Proof.
  apply (embedBatch_loads_the_extractor_once string
           (fun _ model => if String.eqb model "missing" then Rejected (VString "404")
                           else Fulfilled model)
           (fun extractor texts _ => Fulfilled (map (fun _ => VString extractor) texts))
           default_model [([VString "a"], Some "missing", VString "404")]
           [VString "b"] None [([VString "c"], Some "other-model")]).
  - repeat constructor.
  - reflexivity.
Defined.

(* ================================================================= *)
(** * The query and the lines printed *)

Lemma nth_error_map_from {A B : Type} (callback : A -> nat -> B) (i : nat)
  (l : list A) (j : nat) :
  nth_error (map_from callback i l) j
  = option_map (fun x => callback x (i + j)%nat) (nth_error l j).
Proof.
  revert i j. induction l as [ | x l IH]; intros i [ | j]; cbn; try reflexivity.
  - now rewrite Nat.add_0_r.
  - rewrite IH. now rewrite Nat.add_succ_comm.
Qed.

Lemma length_map_from {A B : Type} (callback : A -> nat -> B) (i : nat)
  (l : list A) :
  List.length (map_from callback i l) = List.length l.
Proof. revert i. induction l as [ | x l IH]; intros i; cbn; auto. Qed.

Lemma search_top_10 (E : engine) (xs : list value) (docs : index) :
  exists results,
    search E (VArray xs) 10 docs = Normal results
    /\ List.length results = Nat.min 10 (List.length docs)
    /\ Forall (fun r => exists e, In e docs
                 /\ r = scored E (to_float32 E xs) (Math_hypot E (to_float32 E xs)) e)
         results.
Proof.
  eexists. split; [apply search_array|]. split.
  - rewrite Array_slice0_nonneg by lia. rewrite length_firstn, Array_sort_length.
    unfold search_candidates. rewrite length_map. reflexivity.
  - apply Forall_forall. intros r Hr. now apply search_result_origin in Hr.
Qed.

Lemma query_vector (embedBatch : list value -> list value) (text : string) :
  one_vector_per_text embedBatch ->
  exists xs, array_get (embedBatch [VString text]) 0 = VArray xs.
Proof.
  intros Hemb. destruct (Hemb [VString text]) as [Hlen Harr].
  destruct (embedBatch [VString text]) as [ | v vs]; [discriminate|].
  inversion Harr; subst. assumption.
Qed.

Section Lines.
Variable E : engine.
Variable embedBatch : list value -> list value.
Variable Number_toString : number -> string.

Local Open Scope string_scope.

(** The lines [run_query] makes: one for each of the top 10, each made of
    the scored form of an entry of the index. *)
Lemma run_query_lines (text : string) (docs : index) :
  one_vector_per_text embedBatch ->
  exists lines,
    run_query E embedBatch Number_toString text docs = Normal lines
    /\ List.length lines = Nat.min 10 (List.length docs)
    /\ forall i line,
         nth_error lines i = Some line ->
         exists e q qNorm,
           In e docs
           /\ line = result_line Number_toString (scored E q qNorm e) i.
Proof.
  intros Hemb. unfold run_query.
  destruct (query_vector embedBatch text Hemb) as (xs & ->).
  destruct (search_top_10 E xs docs) as (results & -> & Hlen & Hres).
  cbn [bind]. eexists. split; [reflexivity|]. split.
  - now rewrite length_map_from.
  - intros i line Hline. rewrite nth_error_map_from in Hline. cbn in Hline.
    destruct (nth_error results i) as [r | ] eqn:Hr; [|discriminate].
    injection Hline as <-. apply nth_error_In in Hr.
    rewrite Forall_forall in Hres. destruct (Hres r Hr) as (e & He & ->).
    now exists e, (to_float32 E xs), (Math_hypot E (to_float32 E xs)).
Qed.

(** From the parsed documents to the printed lines, when the first document
    has no vector: every document is embedded and indexed, the embedder is
    called once more for the query, and [min(10, N)] lines are made.  Line
    [i] starts with [i + 1]; it shows [undefined] where the header is meant
    to be and a document's header where the id is meant to be. *)
Theorem main_prints_undefined_headers_after_indexing (fuel : nat) (d : value)
  (ds : list value) (text : string) :
  truthy (obj_get (properties d) "vector") = false ->
  (List.length (d :: ds) <= fuel)%nat ->
  one_vector_per_text embedBatch ->
  Forall (fun d => is_nullish d = false) (d :: ds) ->
  exists lines st,
    main_from_docs E embedBatch Number_toString fuel (d :: ds) text
    = Some (Normal lines, st)
    /\ List.length lines = Nat.min 10 (List.length (d :: ds))
    /\ run_calls st
       = (map (map text_block_of) (batches BATCH_SIZE (d :: ds))
          ++ [[VString text]])%list
    /\ forall i line,
         nth_error lines i = Some line ->
         exists doc score,
           In doc (d :: ds)
           /\ line
              = Number_toString (Number_of_index i + 1)%float ++ ". "
                ++ "undefined" ++ "  "
                ++ ToString Number_toString (header_of doc) ++ " (score="
                ++ Number_toString score ++ ")".
Proof.
  intros Hv Hfuel Hemb Hdocs. unfold main_from_docs, build_index.
  cbn [array_get nth]. inversion Hdocs as [ | ? ? Hd _]; subst.
  rewrite (Get_not_nullish d _ Hd), Hv.
  assert (Hb : (1 <= BATCH_SIZE)%nat) by (unfold BATCH_SIZE; lia).
  rewrite (indexing_loop_runs E embedBatch BATCH_SIZE (d :: ds) Hb Hemb Hdocs)
    by lia.
  cbn [run_docs run_calls start app skipn].
  destruct (loop_entries_by_position E embedBatch BATCH_SIZE (d :: ds) Hb Hemb)
    as [Hlen Heq].
  destruct (run_query_lines text (loop_entries E embedBatch BATCH_SIZE (d :: ds)) Hemb)
    as (lines & Hrun & Hcount & Hlines).
  exists lines. eexists. split; [now rewrite Hrun|]. split; [|split].
  - rewrite Hcount, Heq. f_equal. apply added_chunk_length. now symmetry.
  - reflexivity.
  - intros i line Hline.
    destruct (Hlines i line Hline) as (e & q & qNorm & He & ->).
    rewrite Heq in He.
    pose proof (added_chunk_origin E (d :: ds)
                  (loop_vectors embedBatch BATCH_SIZE (d :: ds))) as Ho.
    rewrite Forall_forall in Ho. destruct (Ho e He) as (doc & Hdoc & Hid & Hrest).
    exists doc, (cosine E q qNorm e). split; [exact Hdoc|].
    unfold result_line, scored. rewrite Hrest, Hid. reflexivity.
Qed.

(** From the parsed documents to the printed lines, when every document is
    well formed and carries a vector: the documents are loaded as they are,
    the embedder is called for the query only, and [min(10, N)] lines are
    made, each showing the header and the id of one of the documents. *)
Theorem main_prints_document_headers_after_bulk_load (fuel : nat) (d : value)
  (ds : list value) (text : string) :
  Forall has_vector (d :: ds) ->
  Forall distinct_keys (d :: ds) ->
  one_vector_per_text embedBatch ->
  exists lines st,
    main_from_docs E embedBatch Number_toString fuel (d :: ds) text
    = Some (Normal lines, st)
    /\ List.length lines = Nat.min 10 (List.length (d :: ds))
    /\ run_calls st = [[VString text]]
    /\ forall i line,
         nth_error lines i = Some line ->
         exists doc score,
           In doc (d :: ds)
           /\ line
              = Number_toString (Number_of_index i + 1)%float ++ ". "
                ++ ToString Number_toString (header_of doc) ++ "  "
                ++ ToString Number_toString (obj_get (properties doc) "id")
                ++ " (score=" ++ ToString Number_toString score ++ ")".
Proof.
  intros Hv Hnd Hemb. unfold main_from_docs, build_index.
  cbn [array_get nth]. inversion Hv as [ | ? ? Hd _]; subst.
  destruct Hd as (o & xs & -> & Hvec). cbn [Get]. rewrite Hvec. cbn [truthy loadDocs].
  rewrite loadDocs_forEach_all by exact Hv. cbn [app run_docs run_calls].
  destruct (run_query_lines text (map (stored E) (VObject o :: ds)) Hemb)
    as (lines & Hrun & Hcount & Hlines).
  exists lines. eexists. split; [now rewrite Hrun|]. split; [|split].
  - now rewrite Hcount, length_map.
  - reflexivity.
  - intros i line Hline.
    destruct (Hlines i line Hline) as (e & q & qNorm & He & ->).
    apply in_map_iff in He as (doc & <- & Hdoc).
    rewrite Forall_forall in Hv, Hnd.
    destruct (Hv doc Hdoc) as (o' & xs' & -> & _).
    specialize (Hnd (VObject o') Hdoc). unfold distinct_keys in Hnd.
    cbn [properties] in Hnd.
    exists (VObject o'), (obj_get (scored E q qNorm (stored E (VObject o'))) "score").
    split; [exact Hdoc|]. unfold result_line.
    rewrite !(scored_stored E q qNorm o' _ Hnd). reflexivity.
Qed.

End Lines.

Lemma main_prints_undefined_headers_after_indexing_witness :
  exists lines st,
    main_from_docs reference_engine embed_ones number_text 3
      (hd VNull three_docs :: tl three_docs) "cats"
    = Some (Normal lines, st)
    /\ List.length lines = Nat.min 10 (List.length (hd VNull three_docs :: tl three_docs))
    /\ run_calls st
       = (map (map text_block_of) (batches BATCH_SIZE (hd VNull three_docs :: tl three_docs))
          ++ [[VString "cats"]])
    /\ forall i line,
         nth_error lines i = Some line ->
         exists doc score,
           In doc (hd VNull three_docs :: tl three_docs)
           /\ line
              = (number_text (Number_of_index i + 1)%float ++ ". "
                 ++ "undefined" ++ "  "
                 ++ ToString number_text (header_of doc) ++ " (score="
                 ++ number_text score ++ ")")%string.
Proof.
  apply (main_prints_undefined_headers_after_indexing reference_engine embed_ones
           number_text 3 (hd VNull three_docs) (tl three_docs) "cats").
  - reflexivity.
  - cbn. lia.
  - exact embed_ones_contract.
  - repeat constructor.
Defined.

Lemma main_prints_document_headers_after_bulk_load_witness :
  exists lines st,
    main_from_docs reference_engine embed_ones number_text 0
      (hd VNull readme_documents :: tl readme_documents) "cats"
    = Some (Normal lines, st)
    /\ List.length lines
       = Nat.min 10 (List.length (hd VNull readme_documents :: tl readme_documents))
    /\ run_calls st = [[VString "cats"]]
    /\ forall i line,
         nth_error lines i = Some line ->
         exists doc score,
           In doc (hd VNull readme_documents :: tl readme_documents)
           /\ line
              = (number_text (Number_of_index i + 1)%float ++ ". "
                 ++ ToString number_text (header_of doc) ++ "  "
                 ++ ToString number_text (obj_get (properties doc) "id")
                 ++ " (score=" ++ ToString number_text score ++ ")")%string.
Proof.
  apply (main_prints_document_headers_after_bulk_load reference_engine embed_ones
           number_text 0 (hd VNull readme_documents) (tl readme_documents) "cats").
  - repeat constructor. eexists _, _. split; reflexivity.
  - repeat constructor; cbn; intuition discriminate.
  - exact embed_ones_contract.
Defined.

(* ================================================================= *)
(** * Rounding to a format, and the elements of a Float32Array *)

Local Open Scope Z_scope.

(** ** Digits *)

Lemma Zdigits2_bounds (m : Z) :
  0 < m -> 0 < Zdigits2 m /\ 2 ^ (Zdigits2 m - 1) <= m < 2 ^ Zdigits2 m.
Proof.
  destruct m as [ | p | p]; try lia. intros _. cbn [Zdigits2].
  split; [lia | apply digits2_pos_bounds].
Qed.

Lemma Zdigits2_unique (m d : Z) :
  2 ^ (d - 1) <= m < 2 ^ d -> 0 < m -> Zdigits2 m = d.
Proof.
  intros [Hl Hu] Hm. destruct (Zdigits2_bounds m Hm) as (HD & HL & HU).
  assert (Hd : 0 < d).
  { destruct (Z.lt_ge_cases 0 d) as [ | Hd]; [assumption|].
    assert (2 ^ d <= 1); [|lia].
    destruct (Z.eq_dec d 0) as [-> | ]; [cbn; lia|].
    rewrite Z.pow_neg_r by lia. lia. }
  destruct (Z.lt_trichotomy (Zdigits2 m) d) as [H | [H | H]]; [|exact H|].
  - assert (2 ^ Zdigits2 m <= 2 ^ (d - 1)) by (apply Z.pow_le_mono_r; lia). lia.
  - assert (2 ^ d <= 2 ^ (Zdigits2 m - 1)) by (apply Z.pow_le_mono_r; lia). lia.
Qed.

Lemma Zdigits2_mono (a b : Z) : 0 < a -> a <= b -> Zdigits2 a <= Zdigits2 b.
Proof.
  intros Ha Hab.
  destruct (Zdigits2_bounds a Ha) as (Da & La & Ua).
  destruct (Zdigits2_bounds b ltac:(lia)) as (Db & Lb & Ub).
  destruct (Z.le_gt_cases (Zdigits2 a) (Zdigits2 b)) as [ | H]; [assumption|].
  assert (2 ^ Zdigits2 b <= 2 ^ (Zdigits2 a - 1)) by (apply Z.pow_le_mono_r; lia). lia.
Qed.

Lemma Zdigits2_shiftl (m k : Z) :
  0 < m -> 0 <= k -> Zdigits2 (m * 2 ^ k) = Zdigits2 m + k.
Proof.
  intros Hm Hk. destruct (Zdigits2_bounds m Hm) as (D & L & U).
  assert (0 < 2 ^ k) by (apply Z.pow_pos_nonneg; lia).
  apply Zdigits2_unique; [|nia].
  replace (Zdigits2 m + k - 1) with ((Zdigits2 m - 1) + k) by lia.
  rewrite !Z.pow_add_r by lia. nia.
Qed.

Lemma Zdigits2_shiftr (m n : Z) :
  0 < m -> 0 <= n -> 0 < m / 2 ^ n -> Zdigits2 (m / 2 ^ n) = Zdigits2 m - n.
Proof.
  intros Hm Hn Hq. destruct (Zdigits2_bounds m Hm) as (D & L & U).
  assert (Hp : 0 < 2 ^ n) by (apply Z.pow_pos_nonneg; lia).
  assert (Hlt : n < Zdigits2 m).
  { destruct (Z.lt_ge_cases n (Zdigits2 m)) as [ | H]; [assumption|].
    assert (2 ^ Zdigits2 m <= 2 ^ n) by (apply Z.pow_le_mono_r; lia).
    rewrite Z.div_small in Hq by lia. lia. }
  apply Zdigits2_unique; [|exact Hq]. split.
  - apply Z.div_le_lower_bound; [exact Hp|].
    rewrite <- Z.pow_add_r by lia.
    replace (n + (Zdigits2 m - n - 1)) with (Zdigits2 m - 1) by lia. exact L.
  - apply Z.div_lt_upper_bound; [exact Hp|].
    rewrite <- Z.pow_add_r by lia.
    replace (n + (Zdigits2 m - n)) with (Zdigits2 m) by lia. exact U.
Qed.

(** ** Shifting right *)

(** [shr_1] halves the mantissa. *)
Lemma shr_m_shr_1 mrs : 0 <= shr_m mrs -> shr_m (shr_1 mrs) = shr_m mrs / 2.
Proof.
  destruct mrs as [[ | [p | p | ] | p] r s]; cbn [shr_m shr_1]; intros H; try lia.
  - reflexivity.
  - rewrite Pos2Z.inj_xI. apply (Z.div_unique _ _ _ 1); lia.
  - rewrite Pos2Z.inj_xO. apply (Z.div_unique _ _ _ 0); lia.
  - reflexivity.
Qed.

Lemma shr_m_iter n mrs :
  0 <= shr_m mrs -> shr_m (Nat.iter n shr_1 mrs) = shr_m mrs / 2 ^ Z.of_nat n.
Proof.
  intros H. induction n as [ | n IH].
  - cbn. now rewrite Z.div_1_r.
  - rewrite Nat.iter_succ, shr_m_shr_1.
    + rewrite IH, Z.div_div by (try apply Z.pow_pos_nonneg; lia).
      rewrite Nat2Z.inj_succ, Z.pow_succ_r by lia. f_equal. lia.
    + rewrite IH. apply Z.div_pos; [lia | apply Z.pow_pos_nonneg; lia].
Qed.

Lemma shr_exact_iter n m :
  0 <= m ->
  Nat.iter n shr_1 {| shr_m := m * 2 ^ Z.of_nat n; shr_r := false; shr_s := false |}
  = {| shr_m := m; shr_r := false; shr_s := false |}.
Proof.
  intros Hm. induction n as [ | n IH].
  - cbn. f_equal. lia.
  - rewrite Nat.iter_succ_r.
    replace (shr_1 {| shr_m := m * 2 ^ Z.of_nat (S n); shr_r := false; shr_s := false |})
      with {| shr_m := m * 2 ^ Z.of_nat n; shr_r := false; shr_s := false |}; [exact IH|].
    rewrite Nat2Z.inj_succ, Z.pow_succ_r by lia.
    assert (0 <= m * 2 ^ Z.of_nat n)
      by (apply Z.mul_nonneg_nonneg; [lia | apply Z.pow_nonneg; lia]).
    destruct (m * 2 ^ Z.of_nat n) as [ | p | p] eqn:Hp; try lia.
    + replace (m * (2 * 2 ^ Z.of_nat n)) with 0 by lia. reflexivity.
    + replace (m * (2 * 2 ^ Z.of_nat n)) with (Zpos (xO p)) by lia. reflexivity.
Qed.

Section Fmt.
Variables prec0 emax0 : Z.
Hypothesis prec_pos : 0 < prec0.


Lemma fexp_mono a b : a <= b -> fexp prec0 emax0 a <= fexp prec0 emax0 b.
Proof. unfold SpecFloat.fexp. lia. Qed.

Lemma fexp_ge a : SpecFloat.emin prec0 emax0 <= fexp prec0 emax0 a.
Proof. unfold SpecFloat.fexp. lia. Qed.

(** What [shr_fexp] gives when the exponent is not above the format's. *)
Lemma shr_fexp_spec m e l :
  0 < m -> e <= fexp prec0 emax0 (Zdigits2 m + e) ->
  snd (shr_fexp prec0 emax0 m e l) = fexp prec0 emax0 (Zdigits2 m + e)
  /\ shr_m (fst (shr_fexp prec0 emax0 m e l)) = m / 2 ^ (fexp prec0 emax0 (Zdigits2 m + e) - e).
Proof.
  intros Hm Ha. unfold shr_fexp, shr.
  destruct (fexp prec0 emax0 (Zdigits2 m + e) - e) as [ | p | p] eqn:Hn; cbn [fst snd]; try lia.
  - split; [lia|]. destruct l as [ | []]; cbn [shr_record_of_loc shr_m]; now rewrite Z.div_1_r.
  - split; [lia|]. rewrite iter_pos_nat, shr_m_iter.
    + rewrite positive_nat_Z. now destruct l as [ | []].
    + destruct l as [ | []]; cbn; lia.
Qed.

Lemma shr_fexp_canonical m e l :
  0 < m -> e <= fexp prec0 emax0 (Zdigits2 m + e) ->
  0 < shr_m (fst (shr_fexp prec0 emax0 m e l)) ->
  fexp prec0 emax0
    (Zdigits2 (shr_m (fst (shr_fexp prec0 emax0 m e l)))
     + snd (shr_fexp prec0 emax0 m e l))
  = snd (shr_fexp prec0 emax0 m e l).
Proof.
  intros Hm Ha. destruct (shr_fexp_spec m e l Hm Ha) as [-> ->]. intros Hq.
  rewrite Zdigits2_shiftr by (auto; lia). f_equal. lia.
Qed.

Lemma round_nearest_even_cases m l :
  round_nearest_even m l = m \/ round_nearest_even m l = m + 1.
Proof. unfold round_nearest_even. destruct l as [ | []]; try destruct (Z.even m); auto. Qed.

(** Rounding gives a datum of the format. *)
Lemma binary_round_aux_valid s m e l :
  0 < m -> e <= fexp prec0 emax0 (Zdigits2 m + e) ->
  SpecFloat.valid_binary prec0 emax0 (binary_round_aux prec0 emax0 s m e l) = true.
Proof.
  intros Hm Ha. unfold binary_round_aux.
  pose proof (shr_fexp_spec m e l Hm Ha) as [He1 Hm1].
  pose proof (shr_fexp_canonical m e l Hm Ha) as Hc1.
  destruct (shr_fexp prec0 emax0 m e l) as [mrs1 e1]. cbn [fst snd] in *.
  set (r := round_nearest_even (shr_m mrs1) (loc_of_shr_record mrs1)).
  assert (Hm1' : 0 <= shr_m mrs1).
  { rewrite Hm1. apply Z.div_pos; [lia | apply Z.pow_pos_nonneg; lia]. }
  assert (Hr : r = shr_m mrs1 \/ r = shr_m mrs1 + 1) by apply round_nearest_even_cases.
  destruct (Z.eq_dec r 0) as [Hr0 | Hr0].
  - (* r = 0 *)
    rewrite Hr0. unfold shr_fexp, shr. cbn [Zdigits2 shr_record_of_loc].
    destruct (fexp prec0 emax0 (0 + e1) - e1) as [ | p | p]; cbn [shr_m]; try reflexivity.
    rewrite iter_pos_nat.
    assert (H0 : shr_m (Nat.iter (Pos.to_nat p) shr_1
                 {| shr_m := 0; shr_r := false; shr_s := false |}) = 0).
    { rewrite shr_m_iter by (cbn; lia). cbn [shr_m]. apply Z.div_0_l.
      apply Z.pow_nonzero; lia. }
    now rewrite H0.
  - assert (Hrpos : 0 < r) by lia.
    assert (Ha2 : e1 <= fexp prec0 emax0 (Zdigits2 r + e1)).
    { destruct (Z.eq_dec (shr_m mrs1) 0) as [Hz | Hz].
      - (* m1 = 0: e1 = SpecFloat.emin prec0 emax0 *)
        assert (e1 = SpecFloat.emin prec0 emax0).
        { rewrite Hz in Hm1. symmetry in Hm1.
          destruct (Zdigits2_bounds m Hm) as (D & L & U).
          assert (Hn : 0 <= fexp prec0 emax0 (Zdigits2 m + e) - e) by lia.
          assert (Hp : 0 < 2 ^ (fexp prec0 emax0 (Zdigits2 m + e) - e))
            by (apply Z.pow_pos_nonneg; lia).
          assert (Hlt : m < 2 ^ (fexp prec0 emax0 (Zdigits2 m + e) - e)).
          { destruct (Z.lt_ge_cases m (2 ^ (fexp prec0 emax0 (Zdigits2 m + e) - e)))
              as [ | Hge]; [assumption|].
            assert (1 <= m / 2 ^ (fexp prec0 emax0 (Zdigits2 m + e) - e)); [|lia].
            apply Z.div_le_lower_bound; lia. }
          assert (Zdigits2 m - 1 < fexp prec0 emax0 (Zdigits2 m + e) - e).
          { apply (Z.pow_lt_mono_r_iff 2); lia. }
          unfold SpecFloat.fexp in *. lia. }
        pose proof (fexp_ge (Zdigits2 r + e1)). lia.
      - rewrite <- (Hc1 ltac:(lia)) at 1. apply fexp_mono.
        assert (Zdigits2 (shr_m mrs1) <= Zdigits2 r) by (apply Zdigits2_mono; lia). lia. }
    pose proof (shr_fexp_spec r e1 loc_Exact Hrpos Ha2) as [He2 Hm2].
    pose proof (shr_fexp_canonical r e1 loc_Exact Hrpos Ha2) as Hc2.
    destruct (shr_fexp prec0 emax0 r e1 loc_Exact) as [mrs2 e2]. cbn [fst snd] in *.
    destruct (shr_m mrs2) as [ | p | p] eqn:Hp; try reflexivity.
    destruct (Z.leb_spec e2 (emax0 - prec0)) as [Hle | Hgt]; [|reflexivity].
    cbn [SpecFloat.valid_binary]. unfold bounded, canonical_mantissa.
    apply andb_true_intro. split; [|now apply Z.leb_le].
    apply Z.eqb_eq. apply (Hc2 ltac:(lia)).
Qed.

Lemma Pos_iter_xO m d : Zpos (Pos.iter xO m d) = Zpos m * 2 ^ Zpos d.
Proof.
  induction d as [ | d IH] using Pos.peano_ind.
  - cbn. lia.
  - rewrite Pos.iter_succ, Pos2Z.inj_succ, Z.pow_succ_r by lia.
    rewrite Pos2Z.inj_xO, IH. lia.
Qed.

Lemma shl_align_spec m e e' :
  let '(mz, ez) := shl_align m e e' in
  (e' < e /\ ez = e' /\ Zpos mz = Zpos m * 2 ^ (e - e'))
  \/ (e <= e' /\ ez = e /\ mz = m).
Proof.
  unfold shl_align. destruct (e' - e) as [ | d | d] eqn:Hd.
  - right. repeat split. lia.
  - right. repeat split. lia.
  - left. split; [lia|]. split; [reflexivity|].
    rewrite Pos_iter_xO. f_equal. f_equal. lia.
Qed.

Lemma binary_round_valid s m e :
  SpecFloat.valid_binary prec0 emax0 (binary_round prec0 emax0 s m e) = true.
Proof.
  unfold binary_round.
  pose proof (shl_align_spec m e (fexp prec0 emax0 (Zpos (digits2_pos m) + e))) as H.
  destruct (shl_align m e (fexp prec0 emax0 (Zpos (digits2_pos m) + e))) as [mz ez].
  apply binary_round_aux_valid; [lia|]. cbn [Zdigits2].
  change (Zpos (digits2_pos mz)) with (Zdigits2 (Zpos mz)).
  change (Zpos (digits2_pos m)) with (Zdigits2 (Zpos m)) in H.
  destruct H as [(Hlt & -> & Hmz) | (Hle & -> & ->)].
  - rewrite Hmz, Zdigits2_shiftl by lia.
    replace (Zdigits2 (Zpos m) + (e - fexp prec0 emax0 (Zdigits2 (Zpos m) + e))
             + fexp prec0 emax0 (Zdigits2 (Zpos m) + e))
      with (Zdigits2 (Zpos m) + e) by lia. lia.
  - exact Hle.
Qed.

(** Rounding a number that the format holds gives its canonical datum. *)
Lemma binary_round_exact s m e mc ec :
  bounded prec0 emax0 mc ec = true ->
  (e <= ec /\ Zpos m = Zpos mc * 2 ^ (ec - e))
  \/ (ec <= e /\ Zpos mc = Zpos m * 2 ^ (e - ec)) ->
  binary_round prec0 emax0 s m e = S754_finite s mc ec.
Proof.
  intros Hb Hrel. unfold bounded, canonical_mantissa in Hb.
  apply andb_prop in Hb as [Hc Hle]. apply Z.eqb_eq in Hc.
  change (Zpos (digits2_pos mc)) with (Zdigits2 (Zpos mc)) in Hc.
  assert (Hsum : Zdigits2 (Zpos m) + e = Zdigits2 (Zpos mc) + ec).
  { destruct Hrel as [[H1 H2] | [H1 H2]].
    - rewrite H2, Zdigits2_shiftl by lia. lia.
    - rewrite H2, Zdigits2_shiftl by lia. lia. }
  unfold binary_round.
  change (Zpos (digits2_pos m)) with (Zdigits2 (Zpos m)). rewrite Hsum, Hc.
  pose proof (shl_align_spec m e ec) as H.
  destruct (shl_align m e ec) as [mz ez].
  assert (Hz : ez <= ec /\ Zpos mz = Zpos mc * 2 ^ (ec - ez)).
  { destruct H as [(Hlt & -> & Hmz) | (Hge & -> & ->)].
    - split; [lia|]. rewrite Z.sub_diag. cbn [Z.pow]. 
      destruct Hrel as [[H1 H2] | [H1 H2]]; lia.
    - destruct Hrel as [[H1 H2] | [H1 H2]]; [auto|].
      assert (e = ec) by lia. subst. rewrite Z.sub_diag in *. cbn in *. split; lia. }
  clear H Hrel. destruct Hz as [Hez Hmz].
  unfold binary_round_aux.
  assert (Hd : Zdigits2 (Zpos mz) + ez = Zdigits2 (Zpos mc) + ec).
  { rewrite Hmz, Zdigits2_shiftl by lia. lia. }
  assert (H1 : shr_fexp prec0 emax0 (Zpos mz) ez loc_Exact
               = ({| shr_m := Zpos mc; shr_r := false; shr_s := false |}, ec)).
  { unfold shr_fexp, shr. rewrite Hd, Hc. cbn [shr_record_of_loc].
    destruct (ec - ez) as [ | p | p] eqn:Hn; try lia.
    - f_equal; [|lia]. f_equal. rewrite Hmz. cbn. lia.
    - f_equal; [|lia]. rewrite iter_pos_nat, Hmz.
      rewrite <- (positive_nat_Z p). apply shr_exact_iter. lia. }
  rewrite H1. cbn [shr_m loc_of_shr_record round_nearest_even].
  assert (H2 : shr_fexp prec0 emax0 (Zpos mc) ec loc_Exact
               = ({| shr_m := Zpos mc; shr_r := false; shr_s := false |}, ec)).
  { unfold shr_fexp, shr. rewrite Hc, Z.sub_diag. reflexivity. }
  rewrite H2. cbn [shr_m]. now rewrite Hle.
Qed.

End Fmt.

(** ** A binary32 datum read back as a Number *)

Lemma bounded32_inv m e :
  SpecFloat.bounded 24 128 m e = true ->
  Zdigits2 (Zpos m) <= 24 /\ -149 <= e <= 104.
Proof.
  unfold bounded, canonical_mantissa, SpecFloat.fexp, SpecFloat.emin.
  intros H. apply andb_prop in H as [H1 H2].
  apply Z.eqb_eq in H1. apply Z.leb_le in H2. cbn [Zdigits2]. lia.
Qed.

Lemma Prim2SF_SF2Prim_binary32 s m e :
  SpecFloat.bounded 24 128 m e = true ->
  exists mc,
    Zpos mc = Zpos m * 2 ^ (53 - Zdigits2 (Zpos m))
    /\ Prim2SF (SF2Prim (S754_finite s m e))
       = S754_finite s mc (e - (53 - Zdigits2 (Zpos m))).
Proof.
  intros Hb. destruct (bounded32_inv m e Hb) as (Hd & He).
  destruct (Zdigits2_bounds (Zpos m) ltac:(lia)) as (Dpos & L & U).
  set (k := 53 - Zdigits2 (Zpos m)) in *.
  assert (Hk : 0 <= k) by lia.
  assert (Hpos : 0 < Zpos m * 2 ^ k).
  { apply Z.mul_pos_pos; [lia | apply Z.pow_pos_nonneg; lia]. }
  exists (Z.to_pos (Zpos m * 2 ^ k)).
  assert (Hmc : Zpos (Z.to_pos (Zpos m * 2 ^ k)) = Zpos m * 2 ^ k)
    by (apply Z2Pos.id; exact Hpos).
  split; [exact Hmc|].
  set (mc := Z.to_pos (Zpos m * 2 ^ k)) in *.
  assert (Hdc : Zdigits2 (Zpos mc) = 53).
  { rewrite Hmc, Zdigits2_shiftl by lia. unfold k. lia. }
  assert (Hf : Prim2SF (Z.ldexp (of_uint63 (Uint63.of_Z (Zpos m))) e)
               = S754_finite false mc (e - k)).
  { rewrite FloatLemmas.Z_ldexp_spec, of_uint63_spec, Uint63.of_Z_spec.
    rewrite Z.mod_small.
    2:{ split; [lia|]. apply Z.lt_le_trans with (2 ^ 24); [|unfold Uint63.wB; cbn; lia].
        eapply Z.lt_le_trans; [exact U|]. apply Z.pow_le_mono_r; lia. }
    cbn [binary_normalize].
    rewrite (binary_round_exact prec emax false m 0 mc (- k)).
    - cbn [SFldexp].
      apply (binary_round_exact prec emax false mc (- k + e) mc (e - k)).
      + unfold bounded, canonical_mantissa.
        change (Zpos (digits2_pos mc)) with (Zdigits2 (Zpos mc)). rewrite Hdc.
        apply andb_true_intro. unfold SpecFloat.fexp, SpecFloat.emin, prec, emax.
        split; [apply Z.eqb_eq | apply Z.leb_le]; lia.
      + left. split; [lia|]. replace (e - k - (- k + e)) with 0 by lia. cbn. lia.
    - unfold bounded, canonical_mantissa.
      change (Zpos (digits2_pos mc)) with (Zdigits2 (Zpos mc)). rewrite Hdc.
      apply andb_true_intro. unfold SpecFloat.fexp, SpecFloat.emin, prec, emax.
      split; [apply Z.eqb_eq | apply Z.leb_le]; lia.
    - right. split; [lia|]. rewrite Hmc. f_equal. f_equal. lia. }
  unfold SF2Prim. destruct s.
  - rewrite FloatAxioms.opp_spec, Hf. reflexivity.
  - exact Hf.
Qed.

Lemma fround_finite x s m e :
  Prim2SF x = S754_finite s m e ->
  fround x = SF2Prim (binary_round 24 128 s m e).
Proof. intros H. unfold fround. rewrite H. now destruct s. Qed.

(** Storing into a [Float32Array] what was read from one changes nothing. *)
Lemma fround_idempotent (x : number) : fround (fround x) = fround x.
Proof.
  destruct (Prim2SF x) as [s | s | | s m e] eqn:Hx;
    try (unfold fround at 2; rewrite Hx; unfold fround; now rewrite Hx).
  rewrite (fround_finite x s m e Hx).
  pose proof (binary_round_valid 24 128 ltac:(lia) s m e) as Hv.
  destruct (binary_round 24 128 s m e) as [s1 | s1 | | s1 m1 e1] eqn:Hy;
    try (unfold fround; rewrite Prim2SF_SF2Prim by reflexivity; reflexivity).
  cbn [SpecFloat.valid_binary] in Hv.
  destruct (Prim2SF_SF2Prim_binary32 s1 m1 e1 Hv) as (mc & Hmc & Hp).
  rewrite (fround_finite _ _ _ _ Hp). f_equal.
  apply binary_round_exact; [exact Hv|].
  left. split.
  - destruct (bounded32_inv m1 e1 Hv). lia.
  - rewrite Hmc. f_equal. f_equal. lia.
Qed.

Close Scope Z_scope.

(* ================================================================= *)
(** * The index holds 32-bit floats *)

Lemma to_float32_float32 (E : engine) (xs : list value) :
  Forall float32 (to_float32 E xs).
Proof.
  unfold to_float32. apply Forall_map, Forall_forall. intros x _.
  apply fround_idempotent.
Qed.

Lemma to_float32_kept (E : engine) (vec : list number) :
  Forall float32 vec -> to_float32 E (map VNumber vec) = vec.
Proof.
  unfold to_float32. induction 1 as [ | x vec Hx _ IH]; cbn [map ToNumber].
  - reflexivity.
  - now rewrite Hx, IH.
Qed.

Lemma Float32Array_from_float32 (E : engine) (v : value) (vec : list number) :
  float32_engine E -> Float32Array_from E v = Normal vec -> Forall float32 vec.
Proof.
  intros HE H. destruct v as [ | | b | x | s | xs | o]; cbn in H;
    try discriminate; try (now apply (HE _ _ H)).
  injection H as <-. apply to_float32_float32.
Qed.

(** [Float32Array.from] changes nothing in a vector it has made: [add] and
    [search] give the same result for an array and for the 32-bit floats it
    converts to. *)
Theorem conversion_to_float32_is_idempotent (E : engine) (xs : list value) :
  to_float32 E (map VNumber (to_float32 E xs)) = to_float32 E xs
  /\ (forall id0 docs,
        add E id0 (VArray (map VNumber (to_float32 E xs))) docs
        = add E id0 (VArray xs) docs)
  /\ (forall k docs,
        search E (VArray (map VNumber (to_float32 E xs))) k docs
        = search E (VArray xs) k docs).
Proof.
  assert (H : to_float32 E (map VNumber (to_float32 E xs)) = to_float32 E xs)
    by (apply to_float32_kept, to_float32_float32).
  split; [exact H|]. split.
  - intros id0 docs. unfold add. cbn [Float32Array_from]. now rewrite H.
  - intros k docs. unfold search. cbn [Float32Array_from bind]. now rewrite H.
Qed.

Lemma obj_without_keys (ks : list string) (o : object) :
  Forall (fun k => ~ In k ks) (map fst (obj_without ks o)).
Proof.
  unfold obj_without. apply Forall_map, Forall_forall. intros [k v] Hin.
  apply filter_In in Hin as [_ Hk]. cbn [fst] in *. intros Hks.
  apply Bool.negb_true_iff in Hk.
  assert (existsb (String.eqb k) ks = true); [|congruence].
  apply existsb_exists. exists k. split; [exact Hks | apply String.eqb_refl].
Qed.

Lemma loadDocs_forEach_kept (E : engine) (ds : list value) (docs : index) :
  float32_engine E ->
  Forall distinct_keys ds ->
  Forall entry_kept docs ->
  Forall entry_kept (snd (loadDocs_forEach E ds docs)).
Proof.
  intros HE Hds. revert docs.
  induction Hds as [ | d ds Hd _ IH]; intros docs Hdocs; cbn [loadDocs_forEach].
  - exact Hdocs.
  - unfold loadDocs_callback.
    destruct d as [ | | b | x | s | xs | o]; try exact Hdocs.
    destruct (Float32Array_from E (obj_get o "vector")) as [vec | e] eqn:Hv;
      [|exact Hdocs].
    apply IH. apply Forall_app. split; [exact Hdocs|].
    constructor; [|constructor]. unfold entry_kept. cbn [vector rest].
    split; [|split].
    + exact (Float32Array_from_float32 E _ _ HE Hv).
    + now apply NoDup_obj_without.
    + apply obj_without_keys.
Qed.

(** The index keeps its entries well formed: whatever [add] and [loadDocs]
    are given (the documents' keys being distinct), every stored vector
    holds 32-bit floats only, and the other fields of an entry never
    include [id], [vector] or [norm]. *)
Theorem index_entries_stay_well_formed (E : engine) (docs : index) :
  float32_engine E ->
  Forall entry_kept docs ->
  (forall id0 vector0, Forall entry_kept (snd (add E id0 vector0 docs)))
  /\ (forall arg,
        Forall distinct_keys (elements arg) ->
        Forall entry_kept (snd (loadDocs E arg docs))).
Proof.
  intros HE Hdocs. split.
  - intros id0 vector0. unfold add.
    destruct (Float32Array_from E vector0) as [vec | e] eqn:Hv; [|exact Hdocs].
    cbn [snd]. apply Forall_app. split; [exact Hdocs|].
    constructor; [|constructor]. unfold entry_kept. cbn [vector rest map].
    split; [exact (Float32Array_from_float32 E _ _ HE Hv)|].
    split; constructor.
  - intros arg Harg. destruct arg as [ | | b | x | s | ds | o]; try exact Hdocs.
    now apply loadDocs_forEach_kept.
Qed.

Lemma index_entries_stay_well_formed_witness :
  (forall id0 vector0, Forall entry_kept (snd (add reference_engine id0 vector0 [])))
  /\ (forall arg,
        Forall distinct_keys (elements arg) ->
        Forall entry_kept (snd (loadDocs reference_engine arg []))).
Proof.
  apply (index_entries_stay_well_formed reference_engine []).
  - intros v vec H. injection H as <-. constructor.
  - constructor.
Defined.

(** ** Loading the entries of an index *)

Lemma obj_set_absent (k : string) (v : value) (o : object) :
  obj_lookup k o = None -> obj_set k v o = o ++ [(k, v)].
Proof.
  induction o as [ | [k0 v0] o IH]; cbn; [reflexivity|].
  destruct (String.eqb_spec k k0); [discriminate|]. intros H. now rewrite IH.
Qed.

Lemma obj_lookup_app_absent (k : string) (o1 o2 : object) :
  obj_lookup k o1 = None -> obj_lookup k (o1 ++ o2) = obj_lookup k o2.
Proof.
  induction o1 as [ | [k0 v0] o1 IH]; cbn; [reflexivity|].
  destruct (String.eqb_spec k k0); [discriminate | exact IH].
Qed.

Lemma obj_spread_disjoint (base rest0 : object) :
  NoDup (map fst rest0) ->
  Forall (fun k => obj_lookup k base = None) (map fst rest0) ->
  obj_spread base rest0 = base ++ rest0.
Proof.
  unfold obj_spread. revert base.
  induction rest0 as [ | [k v] rest0 IH]; intros base Hnd Hout; cbn [fold_left fst snd].
  - now rewrite app_nil_r.
  - cbn [map fst] in Hnd, Hout.
    inversion Hnd as [ | ? ? Hk Hnd']; subst. inversion Hout as [ | ? ? Hb Hout']; subst.
    rewrite obj_set_absent by exact Hb. rewrite IH; [now rewrite <- app_assoc | exact Hnd' |].
    rewrite Forall_forall in *. intros k' Hk'.
    rewrite obj_lookup_app_absent by now apply Hout'.
    cbn. destruct (String.eqb_spec k' k); [subst; contradiction | reflexivity].
Qed.

Lemma obj_without_kept (ks : list string) (o : object) :
  Forall (fun k => ~ In k ks) (map fst o) -> obj_without ks o = o.
Proof.
  unfold obj_without. induction o as [ | [k v] o IH]; cbn [map fst filter]; intros H.
  - reflexivity.
  - inversion H as [ | ? ? Hk Ho]; subst.
    assert (Hf : existsb (String.eqb k) ks = false).
    { destruct (existsb (String.eqb k) ks) eqn:He; [|reflexivity].
      apply existsb_exists in He as (k' & Hin & Heq).
      apply String.eqb_eq in Heq. subst. contradiction. }
    rewrite Hf. cbn [negb]. now rewrite IH.
Qed.

Lemma entry_value_object (e : entry) :
  entry_kept e ->
  entry_value e
  = VObject ([("id", id e); ("vector", VArray (map VNumber (vector e)));
              ("norm", norm e)] ++ rest e).
Proof.
  intros (_ & Hnd & Hout). unfold entry_value. f_equal.
  apply obj_spread_disjoint; [exact Hnd|].
  eapply Forall_impl; [|exact Hout]. cbn. intros k Hk.
  destruct (String.eqb_spec k "id"); [subst; exfalso; apply Hk; cbn; auto|].
  destruct (String.eqb_spec k "vector"); [subst; exfalso; apply Hk; cbn; auto|].
  destruct (String.eqb_spec k "norm"); [subst; exfalso; apply Hk; cbn; auto|].
  reflexivity.
Qed.

Lemma stored_entry_value (E : engine) (e : entry) :
  entry_kept e -> has_vector (entry_value e) /\ stored E (entry_value e) = e.
Proof.
  intros He. rewrite (entry_value_object e He). destruct He as (Hvec & Hnd & Hout).
  split.
  - eexists _, _. split; reflexivity.
  - unfold stored. cbn [properties app].
    change (obj_get (("id", id e) :: _) "id") with (id e).
    change (obj_get (("id", id e) :: ("vector", VArray (map VNumber (vector e))) :: _) "vector")
      with (VArray (map VNumber (vector e))).
    change (obj_get (("id", id e) :: ("vector", VArray (map VNumber (vector e)))
                     :: ("norm", norm e) :: rest e) "norm") with (norm e).
    cbn [elements]. rewrite (to_float32_kept E _ Hvec).
    change (obj_without ["id"; "vector"; "norm"]
              (("id", id e) :: ("vector", VArray (map VNumber (vector e)))
               :: ("norm", norm e) :: rest e))
      with (obj_without ["id"; "vector"; "norm"] (rest e)).
    rewrite (obj_without_kept _ _ Hout). now destruct e.
Qed.

(** [loadDocs] applied to the entries of an index ([other.docs]) appends
    those very entries: same ids, vectors, norms and other fields. *)
Theorem loadDocs_copies_an_index (E : engine) (src docs : index) :
  Forall entry_kept src ->
  loadDocs E (VArray (map entry_value src)) docs = (Normal tt, docs ++ src).
Proof.
  intros Hsrc. cbn [loadDocs]. rewrite loadDocs_forEach_all.
  - f_equal. f_equal. rewrite map_map.
    induction Hsrc as [ | e src He _ IH]; cbn [map]; [reflexivity|].
    now rewrite (proj2 (stored_entry_value E e He)), IH.
  - apply Forall_map. eapply Forall_impl; [|exact Hsrc].
    intros e He. apply (stored_entry_value E e He).
Qed.

Lemma loadDocs_copies_an_index_witness :
  loadDocs reference_engine (VArray (map entry_value index_a_b)) index_z
  = (Normal tt, index_z ++ index_a_b).
Proof.
  apply (loadDocs_copies_an_index reference_engine index_a_b index_z).
  repeat constructor; cbn; intuition discriminate.
Defined.

(* ================================================================= *)
(** * textSearch: the claim *)

Local Open Scope string_scope.

(** ** The tables of [trim] and [toLowerCase] against the letters and spaces *)













(** ** The property a name denotes *)







Local Open Scope list_scope.
